(** * Kokoro TTS announcement server: a shallow embedding and its properties

    The development follows the layout of the repository:

    - [Py]        the pieces of the Python runtime the sources rely on
                  ([str], [bytes], [strip], [replace], UTF-8 decoding);
    - [Context]   [claude_code_tts_server/core/context.py];
    - [Playback]  [claude_code_tts_server/core/playback.py];
    - [Kokoro]    [claude_code_tts_server/tts/kokoro.py];
    - [Sounds]    [claude_code_tts_server/core/sounds.py];
    - [Server]    [kokoro-server.py]: connections, generation and the
                  supervision of a playing child;
    - [Files]     the temporary files that [tempfile], [soundfile] and
                  [os.unlink] act on;
    - [SoundFiles] [save_audio] and [SoundManager] of [core/sounds.py];
    - [TransitionSound], [ServerPlayback]
                  the playback side of [kokoro-server.py];
    - [Logging]   [claude_code_tts_server/core/logging.py].

    Python objects are embedded as follows.  A [str] is a list of Unicode
    code points, a [bytes] value a list of [byte]s.  Functions that
    mutate module-level state take the state and return the new one.
    Calls into the operating system (process creation, [which], the
    monotonic clock, the socket) read an explicit environment. *)

From Stdlib Require Import List ZArith NArith Lia Bool.
From Stdlib Require Import Strings.String Strings.Ascii Strings.Byte.
From Stdlib Require Import QArith Qreals Reals Lra.
From Stdlib Require Floats.
From stdpp Require Import base gmap strings list.
Import ListNotations.

(* ===================================================================== *)
(** * Python runtime                                                      *)
(* ===================================================================== *)

Module Py.

(** A Python [str]: a sequence of code points. *)
Definition str := list N.

(** A Python [bytes] object. *)
Definition bytes := list byte.

(** The [str] whose characters are those of an ASCII literal. *)
Definition lit (s : string) : str :=
  map N_of_ascii (list_ascii_of_string s).

(** The [bytes] literal [b"..."] of an ASCII literal. *)
Definition blit (s : string) : bytes := list_byte_of_string s.

#[global] Instance byte_eq_decision : EqDecision byte := Byte.byte_eq_dec.

Definition str_eqb (a b : str) : bool :=
  bool_decide (a = b).

Definition bytes_eqb (a b : bytes) : bool :=
  bool_decide (a = b).

(** [s.replace(old, new)] for a one-character [old]. *)
Fixpoint replace1 (old : N) (new : str) (s : str) : str :=
  match s with
  | [] => []
  | c :: r =>
      if N.eqb c old then new ++ replace1 old new r
      else c :: replace1 old new r
  end.

(** [s[:k]] for an integer [k]: a negative [k] counts from the end. *)
Definition slice_to {A} (s : list A) (k : Z) : list A :=
  if (0 <=? k)%Z then firstn (Z.to_nat k) s
  else firstn (length s - Z.to_nat (- k)) s.

(** [len(s)] as a Python integer. *)
Definition len {A} (s : list A) : Z := Z.of_nat (length s).

(** Removal of the leading characters that satisfy [p]. *)
Fixpoint lstrip {A} (p : A -> bool) (s : list A) : list A :=
  match s with
  | [] => []
  | c :: r => if p c then lstrip p r else s
  end.

Definition rstrip {A} (p : A -> bool) (s : list A) : list A :=
  rev (lstrip p (rev s)).

Definition strip_with {A} (p : A -> bool) (s : list A) : list A :=
  rstrip p (lstrip p s).

(** [bytes.strip()] removes ASCII whitespace: space, [\t \n \v \f \r]. *)
Definition is_bytes_space (b : byte) : bool :=
  let n := Byte.to_N b in
  (n =? 32)%N || ((9 <=? n)%N && (n <=? 13)%N).

Definition bytes_strip (b : bytes) : bytes := strip_with is_bytes_space b.

Local Open Scope N_scope.

(** [str.strip()] removes the characters for which [str.isspace] holds:
    the ASCII whitespace, the separators U+001C..U+001F, and the Unicode
    spaces of bidirectional class WS, B or S. *)
Definition is_str_space (c : N) : bool :=
  ((9 <=? c) && (c <=? 13)) || ((28 <=? c) && (c <=? 32))
  || (c =? 133) || (c =? 160) || (c =? 5760)
  || ((8192 <=? c) && (c <=? 8202))
  || (c =? 8232) || (c =? 8233) || (c =? 8239) || (c =? 8287)
  || (c =? 12288).

Definition str_strip (s : str) : str := strip_with is_str_space s.

(** ** [bytes.decode('utf-8', errors='ignore')]

    The decoder reads one well-formed sequence at a time.  On an error the
    [ignore] handler drops the offending bytes and decoding resumes after
    them: one byte for an invalid start byte, the lead byte and the valid
    continuation bytes read so far for an invalid continuation byte, and
    all remaining bytes for a sequence cut off by the end of the data. *)

Definition is_cont (b : N) : bool := (128 <=? b) && (b <=? 191).

(** The second byte of a three-byte sequence: [E0] needs [A0..BF] (no
    overlong forms), [ED] needs [80..9F] (no surrogates). *)
Definition second_of_3 (b0 b1 : N) : bool :=
  is_cont b1
  && negb ((b0 =? 224) && (b1 <? 160))
  && negb ((b0 =? 237) && (160 <=? b1)).

(** The second byte of a four-byte sequence: [F0] needs [90..BF], [F4]
    needs [80..8F] (nothing above U+10FFFF). *)
Definition second_of_4 (b0 b1 : N) : bool :=
  is_cont b1
  && negb ((b0 =? 240) && (b1 <? 144))
  && negb ((b0 =? 244) && (144 <=? b1)).

Fixpoint decode_points (bs : list N) : str :=
  match bs with
  | [] => []
  | b0 :: r0 =>
      if b0 <? 128 then b0 :: decode_points r0
      else if b0 <? 194 then decode_points r0
      else if b0 <? 224 then
        match r0 with
        | [] => []
        | b1 :: r1 =>
            if is_cont b1
            then ((b0 - 192) * 64 + (b1 - 128)) :: decode_points r1
            else decode_points r0
        end
      else if b0 <? 240 then
        match r0 with
        | [] => []
        | b1 :: r1 =>
            if second_of_3 b0 b1 then
              match r1 with
              | [] => []
              | b2 :: r2 =>
                  if is_cont b2
                  then ((b0 - 224) * 4096 + (b1 - 128) * 64 + (b2 - 128))
                         :: decode_points r2
                  else decode_points r1
              end
            else decode_points r0
        end
      else if b0 <? 245 then
        match r0 with
        | [] => []
        | b1 :: r1 =>
            if second_of_4 b0 b1 then
              match r1 with
              | [] => []
              | b2 :: r2 =>
                  if is_cont b2 then
                    match r2 with
                    | [] => []
                    | b3 :: r3 =>
                        if is_cont b3
                        then ((b0 - 240) * 262144 + (b1 - 128) * 4096
                              + (b2 - 128) * 64 + (b3 - 128))
                               :: decode_points r3
                        else decode_points r2
                    end
                  else decode_points r1
              end
            else decode_points r0
        end
      else decode_points r0
  end.

Local Close Scope N_scope.

Definition decode_utf8_ignore (b : bytes) : str :=
  decode_points (map Byte.to_N b).

(** The outcome of a call that may raise an exception. *)
Inductive result (A : Type) :=
| Ok (a : A)
| Exn (e : string).
Arguments Ok {A} a.
Arguments Exn {A} e.

End Py.

(* ===================================================================== *)
(** * core/context.py                                                     *)
(* ===================================================================== *)

Module Context.
Import Py.

Definition LF : N := 10.
Definition CR : N := 13.

(** The two-character escape written ["\\n"] in the source: a backslash
    followed by the letter n. *)
Definition escaped_newline : str := [92%N; 110%N].

Definition ellipsis : str := lit "...".

(** The text after the two [replace] calls of [sanitize_for_log]. *)
Definition escape (text : str) : str :=
  replace1 CR [] (replace1 LF escaped_newline text).

(** [sanitize_for_log(text, max_len)]. *)
Definition sanitize_for_log (text : str) (max_len : Z) : str :=
  let text := escape text in
  if (len text >? max_len)%Z then slice_to text max_len ++ ellipsis
  else text.

End Context.

(* ===================================================================== *)
(** * core/playback.py                                                    *)
(* ===================================================================== *)

Module Playback.

Local Open Scope string_scope.

(** ** The host

    What the module asks of the operating system: the platform name, the
    outcome of [subprocess.run(["which", name])] ([None] when the call
    raises [OSError], otherwise its return code), whether an executable
    can be spawned, and how a child reacts to [SIGTERM]. *)
Record host := {
  platform : string;
  which : string -> option Z;
  can_spawn : list string -> bool;
  obeys_sigterm : nat -> bool
}.

(** A [subprocess.Popen] object is a mutable handle; the handles live in
    a table indexed by process id, so that every holder of a handle sees
    the same state. *)
Inductive proc_status :=
| Running
| Exited (returncode : Z).

Record process := {
  args : list string;
  status : proc_status
}.

Record world := {
  procs : gmap nat process;
  next_pid : nat;
  clock : Z;                      (* time.monotonic(), in milliseconds *)
  debug_log : list string
}.

Definition SIGTERM : Z := 15.
Definition SIGKILL : Z := 9.

(** [subprocess.Popen(args, ...)]: [None] stands for [OSError]. *)
Definition Popen (h : host) (w : world) (a : list string)
  : option (nat * world) :=
  if can_spawn h a then
    let child := {| args := a; status := Running |} in
    Some (next_pid w,
          {| procs := <[next_pid w := child]> (procs w);
             next_pid := S (next_pid w);
             clock := clock w;
             debug_log := debug_log w |})
  else None.

(** [proc.poll()]: [None] while the child runs, else its return code. *)
Definition poll (w : world) (pid : nat) : option Z :=
  match procs w !! pid with
  | Some {| status := Exited rc |} => Some rc
  | _ => None
  end.

Definition set_status (w : world) (pid : nat) (s : proc_status) : world :=
  {| procs := alter (fun p => {| args := args p; status := s |}) pid (procs w);
     next_pid := next_pid w;
     clock := clock w;
     debug_log := debug_log w |}.


(** [proc.terminate()], then [proc.wait(timeout=0.1)], then [proc.kill()]
    when the wait times out. *)
Definition terminate_or_kill (h : host) (w : world) (pid : nat) : world :=
  if obeys_sigterm h pid then set_status w pid (Exited (- SIGTERM))
  else set_status w pid (Exited (- SIGKILL)).

Definition log_debug (w : world) (msg : string) : world :=
  {| procs := procs w; next_pid := next_pid w; clock := clock w;
     debug_log := debug_log w ++ [msg] |}.

(** ** [get_player] *)

Definition candidates : list (list string) :=
  [["mpv"; "--no-terminal"]; ["paplay"]; ["aplay"]].

(** The [for player in ...] loop: the first candidate whose [which]
    returns 0; an [OSError] skips the candidate. *)
Fixpoint first_on_path (h : host) (players : list (list string))
  : option (list string) :=
  match players with
  | [] => None
  | player :: rest =>
      match which h (hd "" player) with
      | Some 0%Z => Some player
      | _ => first_on_path h rest
      end
  end.

Definition get_player (h : host) : option (list string) :=
  if String.eqb (platform h) "darwin" then Some ["afplay"]
  else first_on_path h candidates.

(** ** An [audio_file] argument of type [Path | str] *)
Inductive audio_arg :=
| AsPath (p : string)
| AsStr (s : string).

(** Truth value: a [Path] is always true, a [str] when it is non-empty. *)
Definition truthy (a : audio_arg) : bool :=
  match a with
  | AsPath _ => true
  | AsStr s => negb (String.eqb s "")
  end.

Definition to_str (a : audio_arg) : string :=
  match a with AsPath p => p | AsStr s => s end.

(** The outcome of a call that may raise. *)
Inductive outcome (A : Type) :=
| Return (a : A)
| Raise_OSError.
Arguments Return {A} a.
Arguments Raise_OSError {A}.

(** [play_sound_async(audio_file)] *)
Definition play_sound_async (h : host) (w : world) (audio_file : audio_arg)
  : outcome (option nat) * world :=
  match get_player h with
  | Some player =>
      if truthy audio_file then
        match Popen h w (player ++ [to_str audio_file]) with
        | Some (pid, w') => (Return (Some pid), w')
        | None => (Raise_OSError, w)
        end
      else (Return None, w)
  | None => (Return None, w)
  end.

(** ** [class AudioPlayer] *)

Record AudioPlayer := {
  current_process : option nat;
  play_start_time : option Z;
  _current_audio_file : option string
}.

(** [__init__] *)
Definition init : AudioPlayer :=
  {| current_process := None;
     play_start_time := None;
     _current_audio_file := None |}.

Definition is_playing (w : world) (p : AudioPlayer) : bool :=
  match current_process p with
  | Some pid => match poll w pid with None => true | Some _ => false end
  | None => false
  end.

Definition get_elapsed_time (w : world) (p : AudioPlayer) : option Z :=
  match play_start_time p with
  | None => None
  | Some t0 => Some (clock w - t0)%Z
  end.

Definition play (h : host) (w : world) (p : AudioPlayer) (audio_file : string)
  : outcome bool * world * AudioPlayer :=
  match get_player h with
  | None => (Return false, w, p)
  | Some player =>
      match Popen h w (player ++ [audio_file]) with
      | None => (Raise_OSError, w, p)
      | Some (pid, w') =>
          (Return true, w',
           {| current_process := Some pid;
              play_start_time := Some (clock w');
              _current_audio_file := Some audio_file |})
      end
  end.

Definition stop (h : host) (w : world) (p : AudioPlayer)
  : option string * world * AudioPlayer :=
  let audio_file := _current_audio_file p in
  let w' :=
    match current_process p with
    | Some pid =>
        match poll w pid with
        | None => terminate_or_kill h w pid
        | Some _ => w
        end
    | None => w
    end in
  (audio_file, w', init).

Definition check_finished (w : world) (p : AudioPlayer)
  : option string * AudioPlayer :=
  match current_process p with
  | Some pid =>
      match poll w pid with
      | Some _ => (_current_audio_file p, init)
      | None => (None, p)
      end
  | None => (None, p)
  end.


Definition play_drop_sound (h : host) (w : world) (drop_file : option string)
  : outcome unit * world :=
  match drop_file with
  | Some f =>
      let w := log_debug w "Playing drop tone" in
      match play_sound_async h w (AsPath f) with
      | (Return _, w') => (Return tt, w')
      | (Raise_OSError, w') => (Raise_OSError, w')
      end
  | None => (Return tt, w)
  end.

(** ** Runs of an [AudioPlayer]

    The calls a client may make, interleaved with what the environment
    does on its own: a child exits, time passes. *)
Inductive action :=
| Play (audio_file : string)
| Stop
| CheckFinished
| ChildExits (pid : nat) (rc : Z)
| Sleep (dt : Z).

Definition child_exits (w : world) (pid : nat) (rc : Z) : world :=
  match poll w pid with
  | None => set_status w pid (Exited rc)
  | Some _ => w
  end.

Definition advance (w : world) (dt : Z) : world :=
  {| procs := procs w; next_pid := next_pid w;
     clock := (clock w + Z.max 0 dt)%Z; debug_log := debug_log w |}.

Definition step (h : host) (s : world * AudioPlayer) (a : action)
  : world * AudioPlayer :=
  let (w, p) := s in
  match a with
  | Play f => let '(_, w', p') := play h w p f in (w', p')
  | Stop => let '(_, w', p') := stop h w p in (w', p')
  | CheckFinished => (w, snd (check_finished w p))
  | ChildExits pid rc => (child_exits w pid rc, p)
  | Sleep dt => (advance w dt, p)
  end.

Definition run (h : host) (s : world * AudioPlayer) (acts : list action)
  : world * AudioPlayer :=
  fold_left (step h) acts s.

(** The three fields of the player state are set together. *)
Definition all_set (p : AudioPlayer) : Prop :=
  is_Some (current_process p) /\ is_Some (play_start_time p)
  /\ is_Some (_current_audio_file p).

Definition all_cleared (p : AudioPlayer) : Prop :=
  current_process p = None /\ play_start_time p = None
  /\ _current_audio_file p = None.

Definition coherent (p : AudioPlayer) : Prop :=
  all_set p \/ all_cleared p.

End Playback.

(* ===================================================================== *)
(** * tts/kokoro.py                                                       *)
(* ===================================================================== *)

Module Kokoro.
Import Py.

(** Audio samples ([np.ndarray]). *)
Definition ndarray := list R.

(** What iterating [pipeline(text, voice=...)] produces: the audio of the
    segments it yields, or an exception. *)
Inductive pipeline_run :=
| Yields (chunks : list ndarray)
| Raises (e : string).

(** A loaded pipeline.  Its outcome may differ from one call to the next,
    so it is a function of the number of the call as well. *)
Definition pipeline := nat -> str -> pipeline_run.

(** ** [concurrent.futures.ThreadPoolExecutor]

    Submitted tasks wait in a queue, in submission order; a pool thread
    takes the task at the head of the queue when fewer than [max_workers]
    tasks are running.  Tasks are named by numbers. *)
Record executor := {
  max_workers : nat;
  work_queue : list nat;
  running : list nat
}.

Definition ThreadPoolExecutor (max_workers : nat) : executor :=
  {| max_workers := max_workers; work_queue := []; running := [] |}.

(** What can happen to an executor. *)
Inductive event :=
| Submit (t : nat)       (* loop.run_in_executor(executor, task) *)
| Begin (t : nat)        (* a pool thread starts running the task *)
| End (t : nat).         (* the task returns or raises *)

(** The executor after an event, [None] when the event cannot occur. *)
Definition exec_step (e : executor) (ev : event) : option executor :=
  match ev with
  | Submit t =>
      Some {| max_workers := max_workers e;
              work_queue := work_queue e ++ [t];
              running := running e |}
  | Begin t =>
      match work_queue e with
      | t' :: q =>
          if (t =? t')%nat && (length (running e) <? max_workers e)%nat
          then Some {| max_workers := max_workers e;
                       work_queue := q;
                       running := running e ++ [t] |}
          else None
      | [] => None
      end
  | End t =>
      if existsb (Nat.eqb t) (running e)
      then Some {| max_workers := max_workers e;
                   work_queue := work_queue e;
                   running :=
                     List.filter (fun u => negb (t =? u)%nat) (running e) |}
      else None
  end.

Fixpoint exec_run (e : executor) (evs : list event) : option executor :=
  match evs with
  | [] => Some e
  | ev :: rest =>
      match exec_step e ev with
      | Some e' => exec_run e' rest
      | None => None
      end
  end.

(** ** [class KokoroTTS] *)

Inductive level := TRACE | DEBUG | WARNING | ERROR.

Inductive message :=
| Loading_model
| Model_loaded
| Pipeline_not_initialized
| Synthesis_time
| TTS_generation_failed (e : string).

Record KokoroTTS := {
  pipeline_ : option pipeline;
  _executor : executor;
  log : list (level * message)
}.

(** [__init__] *)
Definition init : KokoroTTS :=
  {| pipeline_ := None; _executor := ThreadPoolExecutor 1; log := [] |}.

Definition logged (self : KokoroTTS) (l : level) (m : message) : KokoroTTS :=
  {| pipeline_ := pipeline_ self;
     _executor := _executor self;
     log := log self ++ [(l, m)] |}.

(** [initialize], given the pipeline that [KPipeline(...)] builds. *)
Definition initialize (self : KokoroTTS) (loaded : pipeline) : KokoroTTS :=
  let self := logged self DEBUG Loading_model in
  logged {| pipeline_ := Some loaded;
            _executor := _executor self;
            log := log self |} DEBUG Model_loaded.

(** The inner function [generate] of [synthesize]. *)
Definition generate (pl : pipeline) (call : nat) (text : str)
  : result (option ndarray) :=
  match pl call text with
  | Raises e => Exn e
  | Yields [] => Ok None
  | Yields chunks => Ok (Some (concat chunks))
  end.

(** [synthesize(text)], as the [call]-th use of the pipeline: the result
    and the object with its log. *)
Definition synthesize (self : KokoroTTS) (call : nat) (text : str)
  : option ndarray * KokoroTTS :=
  match pipeline_ self with
  | None => (None, logged self ERROR Pipeline_not_initialized)
  | Some pl =>
      match generate pl call text with
      | Ok audio => (audio, logged self TRACE Synthesis_time)
      | Exn e => (None, logged self ERROR (TTS_generation_failed e))
      end
  end.

(** ** Traces of an executor *)

(** No task begins while another one runs: [active] is the running
    task, if any, before the events [evs]. *)
Fixpoint one_at_a_time (active : option nat) (evs : list event) : bool :=
  match evs with
  | [] => true
  | Submit _ :: rest => one_at_a_time active rest
  | Begin t :: rest =>
      match active with
      | None => one_at_a_time (Some t) rest
      | Some _ => false
      end
  | End t :: rest =>
      match active with
      | Some u => (t =? u)%nat && one_at_a_time None rest
      | None => false
      end
  end.

(** The tasks begun, in the order in which they begin. *)
Fixpoint begun (evs : list event) : list nat :=
  match evs with
  | [] => []
  | Begin t :: rest => t :: begun rest
  | _ :: rest => begun rest
  end.

(** Whenever a task begins, every task begun before it has ended. *)
Definition serialized (evs : list event) : Prop :=
  forall pre u post t,
    evs = pre ++ Begin u :: post -> In (Begin t) pre -> In (End t) pre.

(** With one worker thread the running tasks are the active one. *)
Definition single_thread (e : executor) (active : option nat) : Prop :=
  max_workers e = 1%nat
  /\ running e = match active with Some t => [t] | None => [] end.

End Kokoro.

(* ===================================================================== *)
(** * core/sounds.py                                                      *)
(* ===================================================================== *)

(** Arrays of samples are lists of real numbers: the floating-point
    arithmetic of numpy is read as exact arithmetic, and a decimal
    literal of the source as the rational it denotes.  Sample counts,
    which come from [int(...)], are computed exactly. *)

Module Sounds.
Import Py.

Local Open Scope R_scope.

Definition ndarray := list R.

(** An array converted with [astype(np.float32)]. *)
Record float32_array := { samples : ndarray }.

Definition astype_float32 (a : ndarray) : float32_array := {| samples := a |}.

(** A small error monad: numpy raises [ValueError] when the shapes of an
    in-place operation do not agree. *)
Definition bind {A B} (c : result A) (k : A -> result B) : result B :=
  match c with
  | Ok a => k a
  | Exn e => Exn e
  end.

Notation "x <- c ;; k" := (bind c (fun x => k))
  (at level 100, c at next level, right associativity).

(** [int(n * x)] for an integer [n] and a literal [x]: the product,
    truncated towards zero. *)
Definition int_of_product (n : Z) (x : Q) : Z :=
  Z.quot (n * Qnum x) (Zpos (Qden x)).

(** The same count in binary64 arithmetic, as Python computes it:
    [int(x)] of a float, and [int(n * x)] for a float literal [x]. *)
Definition int_of_float (x : PrimFloat.float) : Z :=
  match FloatOps.Prim2SF x with
  | SpecFloat.S754_finite s m e =>
      let v := if (0 <=? e)%Z then (Z.pos m * 2 ^ e)%Z
               else (Z.pos m / 2 ^ (- e))%Z in
      if s then (- v)%Z else v
  | _ => 0%Z
  end.

Definition int_of_product_binary64 (n : Z) (x : PrimFloat.float) : Z :=
  int_of_float (PrimFloat.mul (PrimFloat.of_uint63 (Uint63.of_Z n)) x).

(** [np.linspace(start, stop, num, endpoint)] *)
Definition linspace (start stop : R) (num : nat) (endpoint : bool) : ndarray :=
  let div := if endpoint then (num - 1)%nat else num in
  map (fun i => start + INR i * ((stop - start) / INR div)) (seq 0 num).

(** [np.zeros(n)] *)
Definition zeros (n : nat) : ndarray := repeat 0 n.

(** Elementwise sum and product of two arrays of the same shape. *)
Definition vadd (a b : ndarray) : ndarray :=
  map (fun p => fst p + snd p) (combine a b).

Definition vmul (a b : ndarray) : ndarray :=
  map (fun p => fst p * snd p) (combine a b).

(** The operand [b] of an in-place operation on a slice of [n] items: an
    array of that length, or of length one, which is repeated. *)
Definition broadcast (n : nat) (b : ndarray) : result ndarray :=
  if (length b =? n)%nat then Ok b
  else match b with
       | [x] => Ok (repeat x n)
       | _ => Exn "ValueError"
       end.

(** [a[lo:hi] *= b] and [a[lo:hi] = b], for [lo <= hi <= len(a)]. *)
Definition imul (a : ndarray) (lo hi : nat) (b : ndarray) : result ndarray :=
  b <- broadcast (hi - lo) b ;;
  Ok (firstn lo a ++ vmul (firstn (hi - lo) (skipn lo a)) b ++ skipn hi a).

Definition assign (a : ndarray) (lo hi : nat) (b : ndarray) : result ndarray :=
  b <- broadcast (hi - lo) b ;;
  Ok (firstn lo a ++ b ++ skipn hi a).

(** Where the slices [a[:k]] and [a[-k:]] stop and start ([a[-0:]] is
    the whole array). *)
Definition head_stop (a : ndarray) (k : nat) : nat := Nat.min k (length a).

Definition tail_start (a : ndarray) (k : nat) : nat :=
  if (k =? 0)%nat then 0%nat else (length a - k)%nat.

(** A number of samples: [np.linspace] and [np.zeros] raise [ValueError]
    when asked for a negative number of them. *)
Definition count (num : Z) : result nat :=
  if (num <? 0)%Z then Exn "ValueError" else Ok (Z.to_nat num).

(** The inner function [make_note] of [generate_chime]. *)
Definition make_note (sample_rate : Z) (freq : R) (duration : Q)
    (amplitude : R) : result ndarray :=
  n <- count (int_of_product sample_rate duration) ;;
  let t := linspace 0 (Q2R duration) n false in
  let note := map (fun x => amplitude * sin (2 * PI * freq * x)) t in
  let note :=
    vadd note
      (map (fun x => amplitude * 0.3 * sin (2 * PI * freq * 2 * x)) t) in
  let note :=
    vadd note
      (map (fun x => amplitude * 0.1 * sin (2 * PI * freq * 3 * x)) t) in
  let envelope := map (fun x => exp (- x * 8)) t in
  attack <- count (int_of_product (Z.of_nat (length t)) (5 # 100)) ;;
  envelope <- imul envelope 0 (head_stop envelope attack)
                (linspace 0 1 attack true) ;;
  Ok (vmul note envelope).

(** [generate_chime(sample_rate)] *)
Definition generate_chime (sample_rate : Z) : result float32_array :=
  note1 <- make_note sample_rate 784 (8 # 100) 0.25 ;;
  note2 <- make_note sample_rate 1047 (8 # 100) 0.25 ;;
  gap <- count (int_of_product sample_rate (3 # 100)) ;;
  let gap := zeros gap in
  let chime := note1 ++ gap ++ note2 in
  let fade := int_of_product sample_rate (2 # 100) in
  chime <- (if (0 <? fade)%Z
            then imul chime (tail_start chime (Z.to_nat fade)) (length chime)
                   (linspace 1 0 (Z.to_nat fade) true)
            else Ok chime) ;;
  Ok (astype_float32 chime).

(** [generate_drop_tone(sample_rate)] *)
Definition generate_drop_tone (sample_rate : Z) : result float32_array :=
  let duration := (15 # 100)%Q in
  n <- count (int_of_product sample_rate duration) ;;
  let t := linspace 0 (Q2R duration) n false in
  let freq := 659 in
  let tone := map (fun x => sin (2 * PI * freq * x)) t in
  let tone :=
    vadd tone
      (map (fun x => 0.5 * sin (2 * PI * freq * 2 * x) * exp (- x * 20)) t) in
  let tone :=
    vadd tone
      (map (fun x => 0.25 * sin (2 * PI * freq * 3 * x) * exp (- x * 30)) t) in
  let tone :=
    vadd tone
      (map (fun x => 0.1 * sin (2 * PI * freq * 4 * x) * exp (- x * 40)) t) in
  let envelope := map (fun x => exp (- x * 10)) t in
  attack_samples <- count (int_of_product sample_rate (5 # 1000)) ;;
  envelope <- assign envelope 0 (head_stop envelope attack_samples)
                (linspace 0 1 attack_samples true) ;;
  let pluck := map (fun x => x * 0.18) (vmul tone envelope) in
  fade <- count (int_of_product sample_rate (3 # 100)) ;;
  pluck <- imul pluck (tail_start pluck fade) (length pluck)
             (linspace 1 0 fade true) ;;
  Ok (astype_float32 pluck).

(** ** The sounds as the specification describes them

    Sample [i] of each sound at 24 kHz, [t = i / 24000] seconds into the
    sound or into the note. *)

(** A note of 80 ms (1920 samples): the fundamental, the second harmonic
    at 30 % and the third at 10 %, under the envelope [exp(-8 t)] with a
    linear attack over the first 5 % of the note (96 samples). *)
Definition note_sample (freq : R) (i : nat) : R :=
  let t := INR i / 24000 in
  0.25 * (sin (2 * PI * freq * t)
          + 0.3 * sin (2 * PI * (2 * freq) * t)
          + 0.1 * sin (2 * PI * (3 * freq) * t))
  * exp (- 8 * t)
  * (if (i <? 96)%nat then INR i / 95 else 1).

(** The chime: G5 for 80 ms, 30 ms of silence (720 samples), C6 for
    80 ms; the last 20 ms (480 samples) fade linearly to zero. *)
Definition chime_sample (i : nat) : R :=
  (if (i <? 1920)%nat then note_sample 784 i
   else if (i <? 2640)%nat then 0
   else note_sample 1047 (i - 2640))
  * (if (i <? 4080)%nat then 1 else 1 - INR (i - 4080) / 479).

(** The drop tone: E5 for 150 ms (3600 samples) with three harmonics of
    coefficients 0.5, 0.25, 0.1 that decay at rates 20, 30, 40 per second;
    a linear attack of 5 ms (120 samples), then the envelope [exp(-10 t)];
    gain 0.18; the last 30 ms (720 samples) fade linearly to zero. *)
Definition drop_sample (i : nat) : R :=
  let t := INR i / 24000 in
  (sin (2 * PI * 659 * t)
   + 0.5 * sin (2 * PI * (2 * 659) * t) * exp (- 20 * t)
   + 0.25 * sin (2 * PI * (3 * 659) * t) * exp (- 30 * t)
   + 0.1 * sin (2 * PI * (4 * 659) * t) * exp (- 40 * t))
  * (if (i <? 120)%nat then INR i / 119 else exp (- 10 * t))
  * 0.18
  * (if (i <? 2880)%nat then 1 else 1 - INR (i - 2880) / 719).

(** The array of the values of [f] at the indices below [n]. *)
Definition tabulate (f : nat -> R) (n : nat) : ndarray := map f (seq 0 n).

(** The duration of [n] samples at [sample_rate], in seconds. *)
Definition duration (n : nat) (sample_rate : Z) : R :=
  INR n / IZR sample_rate.

(** Arrays of factors between 0 and 1. *)
Definition unit_interval (a : ndarray) : Prop :=
  Forall (fun x => 0 <= x <= 1) a.

(** The largest absolute value of an array is at most [c]. *)
Definition peak_le (c : R) (a : ndarray) : Prop :=
  Forall (fun x => Rabs x <= c) a.

End Sounds.

(* ===================================================================== *)
(** * kokoro-server.py                                                    *)
(* ===================================================================== *)

Module Server.
Import Py.

Definition ndarray := Kokoro.ndarray.

(** A line printed by the server, on stdout or on stderr. *)
Inductive line :=
| Read_error (e : string)
| Generating_requests (n : nat)
| Generation_worker_error (e : string)
| No_audio_player_found.

(** The module-level state: the two queues, the handle of the playing
    child, and what has been printed. *)
Record state := {
  request_queue : list (str * Z);               (* (text, time.time()) *)
  ready_queue : list (list (str * ndarray));    (* batches of (text, audio) *)
  current_process : option nat;
  stdout : list line;
  stderr : list line
}.

Definition put_request (st : state) (r : str * Z) : state :=
  {| request_queue := request_queue st ++ [r];
     ready_queue := ready_queue st;
     current_process := current_process st;
     stdout := stdout st;
     stderr := stderr st |}.

Definition print_stderr (st : state) (l : line) : state :=
  {| request_queue := request_queue st;
     ready_queue := ready_queue st;
     current_process := current_process st;
     stdout := stdout st;
     stderr := stderr st ++ [l] |}.

Definition print_stdout (st : state) (l : line) : state :=
  {| request_queue := request_queue st;
     ready_queue := ready_queue st;
     current_process := current_process st;
     stdout := stdout st ++ [l];
     stderr := stderr st |}.

(** ** [handle_client]

    A connection is the list of results of the successive
    [reader.read(4096)] calls, each awaited for at most 0.3 s; past the
    end of the list the stream is at end of file and [read] returns
    [b'']. *)
Inductive read_result :=
| ReadBytes (chunk : bytes)
| ReadTimeout
| ReadError (e : string).

(** The calls made on the [writer]. *)
Inductive writer_call :=
| W_write (b : bytes)
| W_drain
| W_close
| W_wait_closed.

(** How the [while True] loop ends: in the [ping] branch, or past the
    loop with the bytes read (and the exception caught, if any). *)
Inductive loop_end :=
| Ping
| Past_loop (data : bytes) (error : option string).

Fixpoint read_loop (reads : list read_result) (data : bytes) : loop_end :=
  match reads with
  | [] => Past_loop data None
  | ReadBytes [] :: _ => Past_loop data None
  | ReadBytes chunk :: rest =>
      let data := data ++ chunk in
      if bytes_eqb (bytes_strip data) (blit "ping") then Ping
      else read_loop rest data
  | ReadTimeout :: _ => Past_loop data None
  | ReadError e :: _ => Past_loop data (Some e)
  end.

Definition handle_client (st : state) (reads : list read_result) (now : Z)
  : list writer_call * state :=
  match read_loop reads [] with
  | Ping => ([W_write (blit "pong"); W_drain; W_close; W_wait_closed], st)
  | Past_loop data error =>
      let st := match error with
                | Some e => print_stderr st (Read_error e)
                | None => st
                end in
      let text := str_strip (decode_utf8_ignore data) in
      ([W_close; W_wait_closed],
       if negb (str_eqb text []) && negb (str_eqb text (lit "ping"))
       then put_request st (text, now)
       else st)
  end.

(** Connections served one after the other: each is a list of reads and
    the time at which its text, if any, is queued. *)
Fixpoint serve (st : state) (conns : list (list read_result * Z))
  : list (list writer_call) * state :=
  match conns with
  | [] => ([], st)
  | (reads, now) :: rest =>
      let (calls, st) := handle_client st reads now in
      let (replies, st) := serve st rest in
      (calls :: replies, st)
  end.

(** The bytes a connection delivers: the chunks read before the first
    end of file, timeout or error. *)
Fixpoint delivered (reads : list read_result) : bytes :=
  match reads with
  | ReadBytes (b :: chunk) :: rest => (b :: chunk) ++ delivered rest
  | _ => []
  end.

(** What the writer was asked to send. *)
Fixpoint written (calls : list writer_call) : bytes :=
  match calls with
  | [] => []
  | W_write b :: rest => b ++ written rest
  | _ :: rest => written rest
  end.

Definition closed (calls : list writer_call) : bool :=
  existsb (fun c => match c with W_close => true | _ => false end) calls.

(** ** [generate_audio] and [generation_worker] *)

Definition put_ready (st : state) (batch : list (str * ndarray)) : state :=
  {| request_queue := request_queue st;
     ready_queue := ready_queue st ++ [batch];
     current_process := current_process st;
     stdout := stdout st;
     stderr := stderr st |}.

Definition set_request_queue (st : state) (q : list (str * Z)) : state :=
  {| request_queue := q;
     ready_queue := ready_queue st;
     current_process := current_process st;
     stdout := stdout st;
     stderr := stderr st |}.

Definition set_current_process (st : state) (p : option nat) : state :=
  {| request_queue := request_queue st;
     ready_queue := ready_queue st;
     current_process := p;
     stdout := stdout st;
     stderr := stderr st |}.

(** [generate_audio(text)], as the [call]-th use of the global pipeline. *)
Definition generate_audio (pl : Kokoro.pipeline) (call : nat) (text : str)
  : result (option ndarray) :=
  match pl call text with
  | Kokoro.Raises e => Exn e
  | Kokoro.Yields [] => Ok None
  | Kokoro.Yields chunks => Ok (Some (concat chunks))
  end.

(** [audio is not None and len(audio) > 0] *)
Definition usable (audio : option ndarray) : bool :=
  match audio with
  | Some a => (0 <? length a)%nat
  | None => false
  end.

(** The [for req_text, req_ts in requests] loop: its result, [generated]
    or the exception that ended it, and the texts [generate_audio] was
    called with, in order. *)
Fixpoint generate_requests (pl : Kokoro.pipeline) (call : nat)
    (requests : list (str * Z)) (generated : list (str * ndarray))
  : result (list (str * ndarray)) * list str :=
  match requests with
  | [] => (Ok generated, [])
  | (req_text, _) :: rest =>
      match generate_audio pl call req_text with
      | Exn e => (Exn e, [req_text])
      | Ok audio =>
          let generated :=
            match audio with
            | Some a => if usable audio then generated ++ [(req_text, a)]
                        else generated
            | None => generated
            end in
          let (r, calls) := generate_requests pl (S call) rest generated in
          (r, req_text :: calls)
      end
  end.

(** One turn of the [while not shutdown_event.is_set()] loop.  [late]
    are the requests that arrive during the [RAPID_REQUEST_WINDOW]
    sleep.  The result is the new state and the texts synthesized. *)
Definition generation_round (pl : Kokoro.pipeline) (call : nat) (st : state)
    (late : list (str * Z)) : state * list str :=
  match request_queue st with
  | [] => (st, [])
  | first :: queued =>
      let requests := first :: queued ++ late in
      let st := set_request_queue st [] in
      let st := print_stdout st (Generating_requests (length requests)) in
      match generate_requests pl call requests [] with
      | (Ok [], calls) => (st, calls)
      | (Ok generated, calls) => (put_ready st generated, calls)
      | (Exn e, calls) => (print_stderr st (Generation_worker_error e), calls)
      end
  end.

(** The worker over several turns; before each turn the requests in
    [fst round] have arrived, during its sleep those in [snd round]. *)
Fixpoint generation_worker (pl : Kokoro.pipeline) (call : nat) (st : state)
    (rounds : list (list (str * Z) * list (str * Z))) : state * list str :=
  match rounds with
  | [] => (st, [])
  | (early, late) :: rest =>
      let st := set_request_queue st (request_queue st ++ early) in
      let (st, calls) := generation_round pl call st late in
      let (st, later) := generation_worker pl (call + length calls) st rest in
      (st, calls ++ later)
  end.

(** ** [get_audio_player] and [play_audio_file] *)

Definition get_audio_player (h : Playback.host) : option (list string) :=
  if String.eqb (Playback.platform h) "darwin" then Some ["afplay"%string]
  else Playback.first_on_path h
         [["mpv"; "--no-terminal"]; ["paplay"]; ["aplay"]]%string.

(** Times are in milliseconds. *)
Definition PLAYER_STARTUP_DELAY : Z := 150.
Definition SNIPPET_DURATION : Z := 800.
Definition POLL_INTERVAL : Z := 50.

(** What happens while the coroutine sleeps: how long the sleep lasts,
    whether the child exits during it (and with which code), and which
    batches the generation worker puts on the ready queue meanwhile. *)
Record tick := {
  slept : Z;
  exits : option Z;
  arrivals : list (list (str * ndarray))
}.

Definition during (pid : nat) (t : tick) (s : Playback.world * state)
  : Playback.world * state :=
  let (w, st) := s in
  let w := Playback.advance w (slept t) in
  let w := match exits t with
           | Some rc => Playback.child_exits w pid rc
           | None => w
           end in
  (w, {| request_queue := request_queue st;
         ready_queue := ready_queue st ++ arrivals t;
         current_process := current_process st;
         stdout := stdout st;
         stderr := stderr st |}).

(** How the supervision of a child ends. *)
Inductive supervision :=
| Natural_exit (s : Playback.world * state)
| Interrupt (s : Playback.world * state)
| Still_playing (s : Playback.world * state).

(** The loop [while current_process and current_process.poll() is None].
    Each turn polls the child, looks at the ready queue, and sleeps; the
    list [ticks] tells what happens during the successive sleeps, and the
    supervision is [Still_playing] when the list ends first. *)
Fixpoint supervise (h : Playback.host) (check_ready_queue : bool) (pid : nat)
    (ticks : list tick) (s : Playback.world * state) : supervision :=
  match Playback.poll (fst s) pid with
  | Some _ => Natural_exit s
  | None =>
      if check_ready_queue
         && negb (match ready_queue (snd s) with [] => true | _ => false end)
      then Interrupt (Playback.terminate_or_kill h (fst s) pid, snd s)
      else
        match ticks with
        | [] => Still_playing s
        | t :: rest => supervise h check_ready_queue pid rest (during pid t s)
        end
  end.

(** [play_audio_file(audio_file, max_duration, check_ready_queue)]: the
    value returned ([None] while the call has not returned) and the state
    left behind. *)
Definition play_audio_file (h : Playback.host) (s : Playback.world * state)
    (audio_file : string) (max_duration : option Z) (check_ready_queue : bool)
    (ticks : list tick) : result (option bool) * (Playback.world * state) :=
  let (w, st) := s in
  match get_audio_player h with
  | None => (Ok (Some false), (w, print_stderr st No_audio_player_found))
  | Some player =>
      match Playback.Popen h w (player ++ [audio_file]) with
      | None => (Exn "OSError", (w, st))
      | Some (pid, w) =>
          let st := set_current_process st (Some pid) in
          let truthy := match max_duration with
                        | Some d => negb (d =? 0)%Z
                        | None => false
                        end in
          if truthy then
            match ticks with
            | [] => (Ok None, (w, st))
            | t :: _ =>
                let (w, st) := during pid t (w, st) in
                let w := match Playback.poll w pid with
                         | None => Playback.terminate_or_kill h w pid
                         | Some _ => w
                         end in
                (Ok (Some false), (w, set_current_process st None))
            end
          else
            match supervise h check_ready_queue pid ticks (w, st) with
            | Natural_exit (w, st) =>
                (Ok (Some false), (w, set_current_process st None))
            | Interrupt (w, st) =>
                (Ok (Some true), (w, set_current_process st None))
            | Still_playing s => (Ok None, s)
            end
      end
  end.

(** The state of the supervision after the first [n] sleeps. *)
Definition after (pid : nat) (ticks : list tick) (n : nat)
    (s : Playback.world * state) : Playback.world * state :=
  fold_left (fun s t => during pid t s) (firstn n ticks) s.


(** ** The generation worker and the executor

    The coroutine [generation_worker] as the executor sees it.  For each
    request of its batch, in order, it submits [generate_audio] with
    [loop.run_in_executor] and awaits the result; it is suspended until
    the task ends and submits the next one only then.  [run_server]
    creates one such coroutine. *)
Record worker := {
  awaiting : option nat;
  todo : list nat
}.

(** The worker about to synthesize the messages [msgs]. *)
Definition start (msgs : list nat) : worker :=
  {| awaiting := None; todo := msgs |}.

(** A step of the worker and its executor together, [None] when the
    event cannot occur. *)
Definition sys_step (s : worker * Kokoro.executor) (ev : Kokoro.event)
  : option (worker * Kokoro.executor) :=
  let (wk, ex) := s in
  match Kokoro.exec_step ex ev with
  | None => None
  | Some ex' =>
      match ev with
      | Kokoro.Submit t =>
          match awaiting wk, todo wk with
          | None, t' :: rest =>
              if (t =? t')%nat
              then Some ({| awaiting := Some t; todo := rest |}, ex')
              else None
          | _, _ => None
          end
      | Kokoro.Begin _ => Some (wk, ex')
      | Kokoro.End t =>
          match awaiting wk with
          | Some t' =>
              if (t =? t')%nat
              then Some ({| awaiting := None; todo := todo wk |}, ex')
              else Some (wk, ex')
          | None => Some (wk, ex')
          end
      end
  end.

Fixpoint sys_run (s : worker * Kokoro.executor) (evs : list Kokoro.event)
  : option (worker * Kokoro.executor) :=
  match evs with
  | [] => Some s
  | ev :: rest =>
      match sys_step s ev with
      | Some s' => sys_run s' rest
      | None => None
      end
  end.

(** ** Notions used to state the properties of the server *)

(** The worker has at most one task in the executor: none while it is
    not awaiting, and the awaited one, queued or running, otherwise. *)
Definition in_step (s : worker * Kokoro.executor) (active : option nat)
  : Prop :=
  let (wk, ex) := s in
  match awaiting wk with
  | None => Kokoro.work_queue ex = [] /\ Kokoro.running ex = [] /\ active = None
  | Some t =>
      (Kokoro.work_queue ex = [t] /\ Kokoro.running ex = [] /\ active = None)
      \/ (Kokoro.work_queue ex = [] /\ Kokoro.running ex = [t]
          /\ active = Some t)
  end.

(** The messages that have not begun yet. *)
Definition not_begun (s : worker * Kokoro.executor) : list nat :=
  Kokoro.work_queue (snd s) ++ todo (fst s).

Definition ping : bytes := blit "ping".

Definition pong : bytes := blit "pong".

(** The calls made on the writer of a connection that sent [ping]. *)
Definition pong_reply : list writer_call :=
  [W_write pong; W_drain; W_close; W_wait_closed].

(** The exception caught by the read loop, if the reads end in one. *)
Fixpoint caught (reads : list read_result) : option string :=
  match reads with
  | ReadBytes (_ :: _) :: rest => caught rest
  | ReadError e :: _ => Some e
  | _ => None
  end.

(** No call made for the requests raises. *)
Fixpoint quiet (pl : Kokoro.pipeline) (call : nat) (requests : list (str * Z))
  : bool :=
  match requests with
  | [] => true
  | (text, _) :: rest =>
      match generate_audio pl call text with
      | Exn _ => false
      | Ok _ => quiet pl (S call) rest
      end
  end.

(** The requests whose synthesis returns audio that is not empty, each
    with its audio, in order: what the spec calls the messages that are
    not dropped. *)
Fixpoint survivors (pl : Kokoro.pipeline) (call : nat)
    (requests : list (str * Z)) : list (str * ndarray) :=
  match requests with
  | [] => []
  | (text, _) :: rest =>
      match generate_audio pl call text with
      | Ok (Some (x :: a)) => (text, x :: a) :: survivors pl (S call) rest
      | _ => survivors pl (S call) rest
      end
  end.


End Server.

(* ===================================================================== *)
(** * Sample hosts, states and pipelines                                  *)
(* ===================================================================== *)

Module Samples.
Import Py Server.

(** A Linux host on which [which] fails for every name. *)
Definition bare_linux : Playback.host :=
  {| Playback.platform := "linux";
     Playback.which := fun _ => Some 1%Z;
     Playback.can_spawn := fun _ => true;
     Playback.obeys_sigterm := fun _ => true |}.

(** A Linux host with [paplay] installed, and a short session on it. *)
Definition pulse_linux : Playback.host :=
  {| Playback.platform := "linux";
     Playback.which :=
       fun name => if String.eqb name "paplay" then Some 0%Z else Some 1%Z;
     Playback.can_spawn := fun _ => true;
     Playback.obeys_sigterm := fun _ => false |}.

Definition fresh_world : Playback.world :=
  {| Playback.procs := ∅; Playback.next_pid := 100; Playback.clock := 0;
     Playback.debug_log := [] |}.

(** A server with a backlog and a playing child. *)
Definition busy : state :=
  {| request_queue := [(lit "first", 1%Z); (lit "second", 2%Z)];
     ready_queue := [[(lit "zero", [R1; R0])]];
     current_process := Some 4242%nat;
     stdout := [];
     stderr := [] |}.

(** A ping that arrives in two chunks with surrounding whitespace, and
    three pings in a row. *)
Definition split_ping : list read_result :=
  [ReadBytes (blit " pi"); ReadBytes (blit "ng"); ReadBytes []].

Definition three_pings : list (list read_result * Z) :=
  [([ReadBytes (blit "ping")], 10%Z); (split_ping, 11%Z);
   ([ReadBytes (blit "ping"); ReadTimeout], 12%Z)].

(** The server with nothing queued and nothing playing. *)
Definition idle : state :=
  {| request_queue := []; ready_queue := []; current_process := None;
     stdout := []; stderr := [] |}.

(** A text in two chunks, with a stray byte and a trailing newline. *)
Definition hello_reads : list read_result :=
  [ReadBytes (blit " hel"); ReadBytes (blit "lo" ++ [xfe; x0a]); ReadTimeout].

(** A pipeline that yields nothing, and one that yields empty audio. *)
Definition mute : Kokoro.pipeline := fun _ _ => Kokoro.Yields [].

Definition hollow : Kokoro.pipeline := fun _ _ => Kokoro.Yields [[]; []].

Definition one_request : state :=
  {| request_queue := [(lit "x", 1%Z)]; ready_queue := [];
     current_process := None; stdout := []; stderr := [] |}.

(** A pipeline that fails on every second call only. *)
Definition flaky : Kokoro.pipeline :=
  fun call _ => if Nat.even call then Kokoro.Yields [[R1]; [R0]]
                else Kokoro.Yields [].

Definition three_requests : state :=
  {| request_queue := [(lit "a", 1%Z); (lit "b", 2%Z)]; ready_queue := [];
     current_process := None; stdout := []; stderr := [] |}.

(** An exception ends the turn: one line on stderr, nothing pushed. *)
Definition broken : Kokoro.pipeline :=
  fun call _ => if (call =? 1)%nat then Kokoro.Raises "out of memory"
                else Kokoro.Yields [[R1]].

(** A batch that becomes ready during the first sleep of a supervision,
    50 ms after the launch of the player. *)
Definition early_batch : list tick :=
  [{| slept := 50; exits := None; arrivals := [[(lit "next", [R1])]] |};
   {| slept := 50; exits := None; arrivals := [] |}].

(** Three messages synthesized one after the other, and two callers
    that submit to the executor of a [KokoroTTS] at the same time. *)
Definition three_syntheses : list Kokoro.event :=
  [Kokoro.Submit 0; Kokoro.Begin 0; Kokoro.End 0;
   Kokoro.Submit 1; Kokoro.Begin 1; Kokoro.End 1;
   Kokoro.Submit 2; Kokoro.Begin 2].

Definition two_callers : list Kokoro.event :=
  [Kokoro.Submit 7; Kokoro.Submit 8; Kokoro.Begin 7; Kokoro.End 7;
   Kokoro.Begin 8; Kokoro.Submit 9; Kokoro.End 8; Kokoro.Begin 9].

End Samples.

(* ===================================================================== *)
(** * Temporary files                                                     *)
(* ===================================================================== *)

(** The part of the file system that [tempfile], [soundfile] and
    [os.unlink] act on.  A disk maps the paths that exist to what the
    files hold: the audio and sample rate written by [sf.write], or
    [None] for a file without complete WAV data (the empty file that
    [NamedTemporaryFile] creates, or what a failed write leaves). *)

Module Files.
Import Py.

Definition wav := (list R * Z)%type.

#[warnings="-notation-for-abbreviation"]
Notation disk := (gmap string (option wav)).

(** [Path.exists()] *)
Definition path_exists (d : disk) (path : string) : bool :=
  bool_decide (is_Some (d !! path)).

(** What the environment decides for one call of [save_audio]: the
    names that the random name generator of [tempfile] proposes, in
    order, and whether [sf.write] raises. *)
Record tempfile := {
  candidates : list string;
  write_error : option string
}.

(** [with tempfile.NamedTemporaryFile(suffix=".wav", delete=False) as f]:
    the first proposed name that does not exist is created, empty, and
    kept when the block ends; [FileExistsError] when all of them exist. *)
Definition NamedTemporaryFile (d : disk) (names : list string)
  : result string * disk :=
  match List.find (fun name => negb (path_exists d name)) names with
  | Some name => (Ok name, <[name := None]> d)
  | None => (Exn "FileExistsError", d)
  end.

(** [sf.write(path, audio, sample_rate)] *)
Definition sf_write (d : disk) (path : string) (audio : list R)
    (sample_rate : Z) (error : option string) : result unit * disk :=
  match error with
  | None => (Ok tt, <[path := Some (audio, sample_rate)]> d)
  | Some e => (Exn e, <[path := None]> d)
  end.

(** [os.unlink(path)]; [deletable] tells which files the process may
    remove.  Both exceptions are subclasses of [OSError]. *)
Definition unlink (deletable : string -> bool) (d : disk) (path : string)
  : result unit * disk :=
  match d !! path with
  | None => (Exn "FileNotFoundError", d)
  | Some _ =>
      if deletable path then (Ok tt, delete path d)
      else (Exn "PermissionError", d)
  end.

End Files.

(* ===================================================================== *)
(** * core/sounds.py: sound files                                         *)
(* ===================================================================== *)

Module SoundFiles.
Import Py Files.

(** [save_audio(audio, sample_rate)] *)
Definition save_audio (d : disk) (t : tempfile) (audio : list R)
    (sample_rate : Z) : result string * disk :=
  match NamedTemporaryFile d (candidates t) with
  | (Exn e, d) => (Exn e, d)
  | (Ok path, d) =>
      match sf_write d path audio sample_rate (write_error t) with
      | (Exn e, d) => (Exn e, d)
      | (Ok _, d) => (Ok path, d)
      end
  end.

(** ** [class SoundManager] *)

Record SoundManager := {
  sample_rate : Z;
  chime_file : option string;
  drop_file : option string
}.

(** [__init__] *)
Definition init (sample_rate : Z) : SoundManager :=
  {| sample_rate := sample_rate; chime_file := None; drop_file := None |}.

(** [init_sounds]: the two assignments, one after the other; the first
    has taken effect when the second raises. *)
Definition init_sounds (self : SoundManager) (d : disk) (t1 t2 : tempfile)
  : result unit * disk * SoundManager :=
  match Sounds.generate_chime (sample_rate self) with
  | Exn e => (Exn e, d, self)
  | Ok chime =>
      match save_audio d t1 (Sounds.samples chime) (sample_rate self) with
      | (Exn e, d) => (Exn e, d, self)
      | (Ok path, d) =>
          let self := {| sample_rate := sample_rate self;
                         chime_file := Some path;
                         drop_file := drop_file self |} in
          match Sounds.generate_drop_tone (sample_rate self) with
          | Exn e => (Exn e, d, self)
          | Ok drop =>
              match save_audio d t2 (Sounds.samples drop) (sample_rate self)
              with
              | (Exn e, d) => (Exn e, d, self)
              | (Ok path, d) =>
                  (Ok tt, d,
                   {| sample_rate := sample_rate self;
                      chime_file := chime_file self;
                      drop_file := Some path |})
              end
          end
      end
  end.

(** One turn of the loop of [cleanup]: [if f and f.exists()], then
    [os.unlink(f)] with [OSError] ignored. *)
Definition remove_if_exists (deletable : string -> bool) (d : disk)
    (f : option string) : disk :=
  match f with
  | Some path =>
      if path_exists d path then snd (unlink deletable d path) else d
  | None => d
  end.

(** [cleanup] *)
Definition cleanup (deletable : string -> bool) (self : SoundManager)
    (d : disk) : disk * SoundManager :=
  (fold_left (remove_if_exists deletable) [chime_file self; drop_file self] d,
   {| sample_rate := sample_rate self;
      chime_file := None;
      drop_file := None |}).

End SoundFiles.

(* ===================================================================== *)
(** * core/playback.py: notions used to state its properties              *)
(* ===================================================================== *)

Module PlaybackNotions.
Import Playback.

Local Open Scope string_scope.

(** The commands [get_player] can return. *)
Definition players : list (list string) :=
  [["afplay"]; ["mpv"; "--no-terminal"]; ["paplay"]; ["aplay"]].

(** What happens without a call on the player: a child exits, time
    passes. *)
Definition passive (a : action) : bool :=
  match a with
  | ChildExits _ _ | Sleep _ => true
  | _ => false
  end.

(** The time that passes in a run. *)
Definition time_slept (acts : list action) : Z :=
  fold_right (fun a acc => match a with
                           | Sleep dt => (Z.max 0 dt + acc)%Z
                           | _ => acc
                           end) 0%Z acts.

End PlaybackNotions.

(* ===================================================================== *)
(** * kokoro-server.py: the transition sound                              *)
(* ===================================================================== *)

Module TransitionSound.
Import Py Sounds.

Local Open Scope R_scope.

(** The inner function [make_note(t, freq, amplitude)]. *)
Definition make_note (t : ndarray) (freq : R) (amplitude : R)
  : result ndarray :=
  let note := map (fun x => amplitude * sin (2 * PI * freq * x)) t in
  let note :=
    vadd note
      (map (fun x => amplitude * 0.3 * sin (2 * PI * freq * 2 * x)) t) in
  let note :=
    vadd note
      (map (fun x => amplitude * 0.1 * sin (2 * PI * freq * 3 * x)) t) in
  let envelope := map (fun x => exp (- x * 8)) t in
  attack_samples <- count (int_of_product (Z.of_nat (length t)) (5 # 100)) ;;
  envelope <- imul envelope 0 (head_stop envelope attack_samples)
                (linspace 0 1 attack_samples true) ;;
  Ok (vmul note envelope).

(** [generate_transition_sound(sample_rate)] *)
Definition generate_transition_sound (sample_rate : Z)
  : result float32_array :=
  let note1_freq := 784 in
  let note2_freq := 1047 in
  let note_duration := (8 # 100)%Q in
  let gap := (3 # 100)%Q in
  n1 <- count (int_of_product sample_rate note_duration) ;;
  let t1 := linspace 0 (Q2R note_duration) n1 false in
  n2 <- count (int_of_product sample_rate note_duration) ;;
  let t2 := linspace 0 (Q2R note_duration) n2 false in
  note1 <- make_note t1 note1_freq 0.25 ;;
  note2 <- make_note t2 note2_freq 0.25 ;;
  gap_samples <- count (int_of_product sample_rate gap) ;;
  let chime := note1 ++ zeros gap_samples ++ note2 in
  let fade_samples := int_of_product sample_rate (2 # 100) in
  chime <- (if (0 <? fade_samples)%Z
            then imul chime (tail_start chime (Z.to_nat fade_samples))
                   (length chime) (linspace 1 0 (Z.to_nat fade_samples) true)
            else Ok chime) ;;
  Ok (astype_float32 chime).

End TransitionSound.

(* ===================================================================== *)
(** * kokoro-server.py: playback                                          *)
(* ===================================================================== *)

Module ServerPlayback.
Import Py Files Server.

(** [save_audio(audio, sample_rate)] *)
Definition save_audio (d : disk) (t : tempfile) (audio : list R)
    (sample_rate : Z) : result string * disk :=
  match NamedTemporaryFile d (candidates t) with
  | (Exn e, d) => (Exn e, d)
  | (Ok audio_file, d) =>
      match sf_write d audio_file audio sample_rate (write_error t) with
      | (Exn e, d) => (Exn e, d)
      | (Ok _, d) => (Ok audio_file, d)
      end
  end.


(** ** The playback worker

    What the playback worker prints: the first three lines on stdout,
    the last one on stderr. *)
Inductive playback_line :=
| Snippet (i n : nat) (text : str)
| Playing (text : str)
| Interrupted_new_audio_ready
| Playback_worker_error (e : string).

(** The state the playback side acts on: the processes and the clock,
    the module-level state, the temporary files, and the lines printed
    by the playback worker. *)
Record sys := {
  world : Playback.world;
  server : state;
  files : disk;
  printed : list playback_line
}.

Definition print (s : sys) (l : playback_line) : sys :=
  {| world := world s; server := server s; files := files s;
     printed := printed s ++ [l] |}.

Definition with_files (s : sys) (d : disk) : sys :=
  {| world := world s; server := server s; files := d;
     printed := printed s |}.

Definition with_playback (s : sys) (ws : Playback.world * state) : sys :=
  {| world := fst ws; server := snd ws; files := files s;
     printed := printed s |}.

(** [try: os.unlink(audio_file)], [except: pass] *)
Definition unlink_quietly (deletable : string -> bool) (s : sys)
    (audio_file : string) : sys :=
  with_files s (snd (unlink deletable (files s) audio_file)).

(** How an awaited call ends, if it does. *)
Inductive reply (A : Type) :=
| Returned (a : A)
| Raised (e : string)
| Pending.
Arguments Returned {A} a.
Arguments Raised {A} e.
Arguments Pending {A}.

(** What the environment decides for one [asyncio.sleep]: whether the
    child exits during it, and the batches that the generation worker
    puts on the ready queue meanwhile. *)
Record nap := {
  ends : option Z;
  brings : list (list (str * ndarray))
}.

Definition sleeping (dt : Z) (n : nap) : tick :=
  {| slept := dt; exits := ends n; arrivals := brings n |}.

(** [await asyncio.sleep(0.05)] with no child: time passes and batches
    arrive. *)
Definition arrive (s : sys) (batches : list (list (str * ndarray))) : sys :=
  {| world := Playback.advance (world s) 50;
     server := {| request_queue := request_queue (server s);
                  ready_queue := ready_queue (server s) ++ batches;
                  current_process := current_process (server s);
                  stdout := stdout (server s);
                  stderr := stderr (server s) |};
     files := files s;
     printed := printed s |}.

(** [play_transition_sound()]: the chime at the default sample rate,
    saved, played for at most 0.2 s after the start-up delay, and
    removed. *)
Definition play_transition_sound (h : Playback.host)
    (deletable : string -> bool) (s : sys) (t : tempfile) (n : nap)
  : reply unit * sys :=
  match TransitionSound.generate_transition_sound 24000 with
  | Exn e => (Raised e, s)
  | Ok chime =>
      match save_audio (files s) t (Sounds.samples chime) 24000 with
      | (Exn e, d) => (Raised e, with_files s d)
      | (Ok audio_file, d) =>
          let s := with_files s d in
          match play_audio_file h (world s, server s) audio_file (Some 200%Z)
                  false [sleeping (PLAYER_STARTUP_DELAY + 200) n]
          with
          | (Ok (Some _), ws) =>
              (Returned tt, unlink_quietly deletable (with_playback s ws)
                              audio_file)
          | (Ok None, ws) => (Pending, with_playback s ws)
          | (Exn e, ws) =>
              (Raised e, unlink_quietly deletable (with_playback s ws)
                           audio_file)
          end
      end
  end.

(** What the environment decides for one snippet: the temporary file
    and the sleep of the snippet, those of the chime after it, and the
    batches that arrive during the pause that follows. *)
Record snippet_env := {
  snippet_tmp : tempfile;
  snippet_nap : nap;
  chime_tmp : tempfile;
  chime_nap : nap;
  pause_brings : list (list (str * ndarray))
}.

(** The loop [for i, (text, audio) in enumerate(generated_batch[:-1])],
    from index [i] on; [total] is [len(generated_batch) - 1]. *)
Fixpoint play_snippets (h : Playback.host) (deletable : string -> bool)
    (s : sys) (i total : nat) (items : list (str * ndarray))
    (env : nat -> snippet_env) : reply unit * sys :=
  match items with
  | [] => (Returned tt, s)
  | (text, audio) :: rest =>
      let s := print s (Snippet (i + 1) total (slice_to text 50)) in
      match save_audio (files s) (snippet_tmp (env i)) audio 24000 with
      | (Exn e, d) => (Raised e, with_files s d)
      | (Ok audio_file, d) =>
          let s := with_files s d in
          match play_audio_file h (world s, server s) audio_file
                  (Some SNIPPET_DURATION) false
                  [sleeping (PLAYER_STARTUP_DELAY + SNIPPET_DURATION)
                     (snippet_nap (env i))]
          with
          | (Ok (Some _), ws) =>
              let s := unlink_quietly deletable (with_playback s ws)
                         audio_file in
              match play_transition_sound h deletable s (chime_tmp (env i))
                      (chime_nap (env i))
              with
              | (Returned _, s) =>
                  play_snippets h deletable (arrive s (pause_brings (env i)))
                    (S i) total rest env
              | (Raised e, s) => (Raised e, s)
              | (Pending, s) => (Pending, s)
              end
          | (Ok None, ws) => (Pending, with_playback s ws)
          | (Exn e, ws) =>
              (Raised e, unlink_quietly deletable (with_playback s ws)
                           audio_file)
          end
      end
  end.

(** What the environment decides for the message played in full: its
    temporary file, what happens during the successive sleeps of the
    supervision loop, and the temporary file and the sleep of the chime
    that follows an interrupt. *)
Record final_env := {
  final_tmp : tempfile;
  final_naps : list nap;
  interrupt_tmp : tempfile;
  interrupt_nap : nap
}.

(** The last message of the batch, played in full. *)
Definition play_last (h : Playback.host) (deletable : string -> bool)
    (s : sys) (generated_batch : list (str * ndarray)) (env : final_env)
  : reply unit * sys :=
  match last generated_batch with
  | None => (Raised "IndexError", s)
  | Some (text, audio) =>
      let s := print s (Playing (slice_to text 80
                                 ++ (if (len text >? 80)%Z then lit "..."
                                     else []))) in
      match save_audio (files s) (final_tmp env) audio 24000 with
      | (Exn e, d) => (Raised e, with_files s d)
      | (Ok audio_file, d) =>
          let s := with_files s d in
          match play_audio_file h (world s, server s) audio_file None true
                  (map (sleeping POLL_INTERVAL) (final_naps env))
          with
          | (Ok (Some true), ws) =>
              let s := print (with_playback s ws)
                         Interrupted_new_audio_ready in
              match play_transition_sound h deletable s (interrupt_tmp env)
                      (interrupt_nap env)
              with
              | (Returned _, s) =>
                  (Returned tt, unlink_quietly deletable s audio_file)
              | (Raised e, s) =>
                  (Raised e, unlink_quietly deletable s audio_file)
              | (Pending, s) => (Pending, s)
              end
          | (Ok (Some false), ws) =>
              (Returned tt, unlink_quietly deletable (with_playback s ws)
                              audio_file)
          | (Ok None, ws) => (Pending, with_playback s ws)
          | (Exn e, ws) =>
              (Raised e, unlink_quietly deletable (with_playback s ws)
                           audio_file)
          end
      end
  end.

(** [ready_queue.get()] has taken the first batch. *)
Definition take_ready (s : sys) (waiting : list (list (str * ndarray)))
  : sys :=
  {| world := world s;
     server := {| request_queue := request_queue (server s);
                  ready_queue := waiting;
                  current_process := current_process (server s);
                  stdout := stdout (server s);
                  stderr := stderr (server s) |};
     files := files s;
     printed := printed s |}.

(** One turn of the loop of [playback_worker].  With an empty ready
    queue the wait times out and the turn ends.  An exception raised
    while the batch is played is caught at the end of the turn and
    printed. *)
Definition playback_turn (h : Playback.host) (deletable : string -> bool)
    (s : sys) (env : nat -> snippet_env) (fin : final_env)
  : reply unit * sys :=
  match ready_queue (server s) with
  | [] => (Returned tt, s)
  | generated_batch :: waiting =>
      let s := take_ready s waiting in
      let played :=
        match (if (1 <? length generated_batch)%nat
               then play_snippets h deletable s 0
                      (length generated_batch - 1)
                      (removelast generated_batch) env
               else (Returned tt, s))
        with
        | (Returned _, s) => play_last h deletable s generated_batch fin
        | (Raised e, s) => (Raised e, s)
        | (Pending, s) => (Pending, s)
        end in
      match played with
      | (Raised e, s) => (Returned tt, print s (Playback_worker_error e))
      | (r, s) => (r, s)
      end
  end.

(** What the environment decides for one turn: the batches that the
    generation worker puts on the ready queue while the playback worker
    waits, and what happens while the batch is played. *)
Record turn_env := {
  put_before : list (list (str * ndarray));
  snippets : nat -> snippet_env;
  final : final_env
}.

Definition deliver (s : sys) (batches : list (list (str * ndarray))) : sys :=
  {| world := world s;
     server := {| request_queue := request_queue (server s);
                  ready_queue := ready_queue (server s) ++ batches;
                  current_process := current_process (server s);
                  stdout := stdout (server s);
                  stderr := stderr (server s) |};
     files := files s;
     printed := printed s |}.

(** [playback_worker()] over the turns of its loop, until the shutdown
    event is set; the worker is [Pending] while a child it started is
    still playing at the end of what the environment tells. *)
Fixpoint playback_worker (h : Playback.host) (deletable : string -> bool)
    (s : sys) (turns : list turn_env) : reply unit * sys :=
  match turns with
  | [] => (Returned tt, s)
  | t :: rest =>
      match playback_turn h deletable (deliver s (put_before t))
              (snippets t) (final t)
      with
      | (Returned _, s) => playback_worker h deletable s rest
      | (Raised e, s) => (Raised e, s)
      | (Pending, s) => (Pending, s)
      end
  end.

End ServerPlayback.

(** ** Notions used to state the properties of the playback side *)

Module ServerPlaybackNotions.
Import Py Files Server ServerPlayback.

(** From one world to a later one: the children started in between have
    all exited, and the processes that existed are as they were. *)
Definition reaped (w w' : Playback.world) : Prop :=
  (Playback.next_pid w <= Playback.next_pid w')%nat
  /\ (forall pid, (pid < Playback.next_pid w)%nat ->
        Playback.procs w' !! pid = Playback.procs w !! pid)
  /\ (forall pid, (Playback.next_pid w <= pid < Playback.next_pid w')%nat ->
        Playback.poll w' pid <> None).

(** From one module state to a later one: the playback side has left
    the request queue and stdout alone, batches may have arrived on the
    ready queue, [No audio player found] may have been printed, and no
    child is recorded as playing if none was. *)
Definition settled (st st' : state) : Prop :=
  request_queue st' = request_queue st
  /\ stdout st' = stdout st
  /\ (exists more, ready_queue st' = ready_queue st ++ more)
  /\ (exists k, stderr st' = stderr st ++ repeat No_audio_player_found k)
  /\ (current_process st = None -> current_process st' = None).

(** Every temporary file of the environment of a turn can be written. *)
Definition writable (env : nat -> snippet_env) (fin : final_env) : Prop :=
  (forall i, write_error (snippet_tmp (env i)) = None
             /\ write_error (chime_tmp (env i)) = None)
  /\ write_error (final_tmp fin) = None
  /\ write_error (interrupt_tmp fin) = None.

(** One of the names proposed for a temporary file is free. *)
Definition has_free_name (d : disk) (t : tempfile) : Prop :=
  exists name, In name (candidates t) /\ d !! name = None.

(** From one state of the playback side to a later one: the children
    started in between have exited, the module state is settled, and
    the files that existed are as they were. *)
Definition orderly (s s' : sys) : Prop :=
  reaped (world s) (world s')
  /\ settled (server s) (server s')
  /\ forall q, is_Some (files s !! q) -> files s' !! q = files s !! q.

(** The lines announcing the snippets of a batch, from index [i] on. *)
Fixpoint snippet_lines (i total : nat) (items : list (str * ndarray))
  : list playback_line :=
  match items with
  | [] => []
  | (text, _) :: rest =>
      Snippet (i + 1) total (slice_to text 50)
        :: snippet_lines (S i) total rest
  end.

(** The line announcing the message played in full. *)
Definition playing_line (text : str) : playback_line :=
  Playing (slice_to text 80 ++ (if (len text >? 80)%Z then lit "..." else [])).

End ServerPlaybackNotions.

(* ===================================================================== *)
(** * Sample environments of the playback worker                          *)
(* ===================================================================== *)

Module Fixtures.
Import Py Files Server ServerPlayback.

(** A temporary file with one proposed name, which can be written. *)
Definition tmp (name : string) : tempfile :=
  {| candidates := [name]; write_error := None |}.

(** A sleep during which nothing happens. *)
Definition quiet_nap : nap := {| ends := None; brings := [] |}.

(** Snippets without events, and a last message whose child exits during
    the first sleep of the supervision. *)
Definition calm (i : nat) : snippet_env :=
  {| snippet_tmp := tmp "/tmp/snippet.wav"; snippet_nap := quiet_nap;
     chime_tmp := tmp "/tmp/chime.wav"; chime_nap := quiet_nap;
     pause_brings := [] |}.

Definition finale : final_env :=
  {| final_tmp := tmp "/tmp/last.wav";
     final_naps := [{| ends := Some 0%Z; brings := [] |}];
     interrupt_tmp := tmp "/tmp/chime.wav";
     interrupt_nap := quiet_nap |}.

(** A batch of two messages ready to be played, on an empty disk. *)
Definition two_ready : sys :=
  {| world := Samples.fresh_world;
     server := {| request_queue := [];
                  ready_queue := [[(lit "one", [R1]); (lit "two", [R1; R0])]];
                  current_process := None;
                  stdout := [];
                  stderr := [] |};
     files := ∅;
     printed := [] |}.


(** Two turns: the batch of [two_ready], then a batch of one message. *)
Definition two_turns : list turn_env :=
  [{| put_before := []; snippets := calm; final := finale |};
   {| put_before := [[(lit "three", [R1])]]; snippets := calm;
      final := finale |}].

End Fixtures.

(* ===================================================================== *)
(** * core/logging.py                                                     *)
(* ===================================================================== *)

Module Logging.

(** [TRACE = 5], below the levels of the [logging] module. *)
Definition TRACE : Z := 5.

Definition DEBUG : Z := 10.
Definition INFO : Z := 20.
Definition WARNING : Z := 30.
Definition ERROR : Z := 40.
Definition CRITICAL : Z := 50.

(** A [logging.Logger]: its effective level, whether it is disabled, the
    level set with [logging.disable], and the records it has handled. *)
Record Logger := {
  effective_level : Z;
  disabled : bool;
  manager_disable : Z;
  handled : list (Z * Kokoro.message)
}.

(** [Logger.isEnabledFor(level)] *)
Definition isEnabledFor (self : Logger) (level : Z) : bool :=
  if disabled self then false
  else if (level <=? manager_disable self)%Z then false
  else (effective_level self <=? level)%Z.

(** [Logger._log(level, message, args)] *)
Definition _log (self : Logger) (level : Z) (message : Kokoro.message)
  : Logger :=
  {| effective_level := effective_level self;
     disabled := disabled self;
     manager_disable := manager_disable self;
     handled := handled self ++ [(level, message)] |}.

(** [_trace(self, message)], installed as [Logger.trace] *)
Definition _trace (self : Logger) (message : Kokoro.message) : Logger :=
  if isEnabledFor self TRACE then _log self TRACE message else self.

(** [Logger.debug], [Logger.warning] and [Logger.error] *)
Definition debug (self : Logger) (message : Kokoro.message) : Logger :=
  if isEnabledFor self DEBUG then _log self DEBUG message else self.

Definition warning (self : Logger) (message : Kokoro.message) : Logger :=
  if isEnabledFor self WARNING then _log self WARNING message else self.

Definition error (self : Logger) (message : Kokoro.message) : Logger :=
  if isEnabledFor self ERROR then _log self ERROR message else self.

(** The logger after the calls that [KokoroTTS] has made on it. *)
Definition call (self : Logger) (entry : Kokoro.level * Kokoro.message)
  : Logger :=
  match fst entry with
  | Kokoro.TRACE => _trace self (snd entry)
  | Kokoro.DEBUG => debug self (snd entry)
  | Kokoro.WARNING => warning self (snd entry)
  | Kokoro.ERROR => error self (snd entry)
  end.

Definition calls (self : Logger) (entries : list (Kokoro.level * Kokoro.message))
  : Logger :=
  fold_left call entries self.

(** [get_logger()] on a process that has not configured logging: the
    level of the root logger is [WARNING]. *)
Definition unconfigured : Logger :=
  {| effective_level := WARNING; disabled := false; manager_disable := 0;
     handled := [] |}.

End Logging.

(* ===================================================================== *)
(** * kokoro-server.py: notions on the ready queue                        *)
(* ===================================================================== *)

Module ServerNotions.
Import Py Server.

(** Batches that can be played: none is empty, and every message in
    them has audio that is not empty. *)
Definition playable (batches : list (list (str * ndarray))) : Prop :=
  Forall (fun batch => batch <> []
                       /\ Forall (fun item => snd item <> []) batch) batches.

End ServerNotions.

(* ===================================================================== *)
(** * Properties                                                          *)
(* ===================================================================== *)

(** ** core/context.py *)

Module ContextProps.
Import Py Context.

Section Replace.
Variables (old : N) (new : str).
Hypothesis new_free : ~ In old new.



End Replace.








Example sanitize_for_log_truncates :
  sanitize_for_log (lit "ab" ++ [LF] ++ lit "cd" ++ [CR] ++ lit "efgh") 6
  = lit "ab" ++ escaped_newline ++ lit "cd" ++ lit "...".
Proof. reflexivity. Qed.

Example sanitize_for_log_short :
  sanitize_for_log (lit "ok" ++ [CR; LF]) 80 = lit "ok" ++ escaped_newline.
Proof. reflexivity. Qed.

End ContextProps.

(** ** core/playback.py *)

Module PlaybackProps.
Import Playback Samples.

Local Open Scope string_scope.

Lemma coherent_init : coherent init.
Proof. right. repeat split. Qed.

Lemma all_cleared_init : all_cleared init.
Proof. repeat split. Qed.

(** A play that returns [True] sets the three fields. *)
Lemma play_true_all_set h w p f w' p' :
  play h w p f = (Return true, w', p') -> all_set p'.
Proof.
  unfold play. destruct (get_player h) as [player|]; [|discriminate].
  destruct (Popen h w (player ++ [f])) as [[pid w1]|]; [|discriminate].
  intros [= <- <-]. repeat split; simpl; eauto.
Qed.

(** A play that does not start a child leaves the player as it was. *)
Lemma play_not_started h w p f r w' p' :
  play h w p f = (r, w', p') -> r <> Return true -> w' = w /\ p' = p.
Proof.
  unfold play. destruct (get_player h) as [player|].
  - destruct (Popen h w (player ++ [f])) as [[pid w1]|].
    + intros [= <- <- <-] Hr. congruence.
    + intros [= <- <- <-] _. auto.
  - intros [= <- <- <-] _. auto.
Qed.

Lemma play_coherent h w p f :
  coherent p -> coherent (snd (play h w p f)).
Proof.
  intros Hp. destruct (play h w p f) as [[r w'] p'] eqn:E. simpl.
  destruct r as [[|]|].
  - left. eapply play_true_all_set, E.
  - apply play_not_started in E as [_ ->]; [assumption|discriminate].
  - apply play_not_started in E as [_ ->]; [assumption|discriminate].
Qed.

Lemma stop_all_cleared h w p : all_cleared (snd (stop h w p)).
Proof. apply all_cleared_init. Qed.

Lemma check_finished_coherent w p :
  coherent p -> coherent (snd (check_finished w p)).
Proof.
  intros Hp. unfold check_finished.
  destruct (current_process p) as [pid|]; [|assumption].
  destruct (poll w pid); [apply coherent_init | assumption].
Qed.

Lemma step_coherent h s a : coherent (snd s) -> coherent (snd (step h s a)).
Proof.
  destruct s as [w p]. simpl. intros Hp. destruct a; simpl.
  - pose proof (play_coherent h w p audio_file Hp) as H.
    destruct (play h w p audio_file) as [[r w'] p']. exact H.
  - apply coherent_init.
  - apply check_finished_coherent, Hp.
  - exact Hp.
  - exact Hp.
Qed.

Lemma run_coherent h acts : forall s,
  coherent (snd s) -> coherent (snd (run h s acts)).
Proof.
  unfold run. induction acts as [|a acts IH]; intros s Hs; simpl.
  - exact Hs.
  - apply IH, step_coherent, Hs.
Qed.

(** C2. Whatever calls are made on an [AudioPlayer] after its
    construction (play, stop, check_finished, in any order and on any
    host, while children exit and time passes), the process handle, the
    start time and the audio file are either all set or all cleared.  A
    play that returns [True] leaves them all set, stop leaves them all
    cleared, and check_finished either clears all three or changes
    nothing. *)
Theorem player_state_fields_agree (h : host) (w0 : world) (acts : list action) :
  let s := run h (w0, init) acts in
  coherent (snd s)
  /\ (forall f w' p',
        play h (fst s) (snd s) f = (Return true, w', p') -> all_set p')
  /\ all_cleared (snd (stop h (fst s) (snd s)))
  /\ (snd (check_finished (fst s) (snd s)) = init
      \/ snd (check_finished (fst s) (snd s)) = snd s).
Proof.
  intros s.
  split; [apply run_coherent, coherent_init|].
  split; [intros f w' p'; apply play_true_all_set|].
  split; [apply stop_all_cleared|].
  unfold check_finished.
  destruct (current_process (snd s)) as [pid|]; [|now right].
  destruct (poll (fst s) pid); [now left | now right].
Qed.

(** ** No player on the host *)







Example get_player_pulse : get_player pulse_linux = Some ["paplay"].
Proof. reflexivity. Qed.

Example session_play_then_finish :
  let s := run pulse_linux (fresh_world, init)
             [Play "/tmp/a.wav"; Sleep 700; ChildExits 100 0] in
  snd s = {| current_process := Some 100%nat;
             play_start_time := Some 0%Z;
             _current_audio_file := Some "/tmp/a.wav" |}
  /\ get_elapsed_time (fst s) (snd s) = Some 700%Z
  /\ check_finished (fst s) (snd s) = (Some "/tmp/a.wav", init).
Proof. vm_compute. auto. Qed.

Example session_stop_kills :
  let s := run pulse_linux (fresh_world, init) [Play "/tmp/a.wav"; Stop] in
  snd s = init /\ poll (fst s) 100 = Some (- SIGKILL)%Z.
Proof. vm_compute. auto. Qed.

End PlaybackProps.

(** ** kokoro-server.py: the client handler *)

Module IngressProps.
Import Py Server Samples.

Lemma bytes_eqb_true a b : bytes_eqb a b = true <-> a = b.
Proof. unfold bytes_eqb. apply bool_decide_eq_true. Qed.

Lemma bytes_eqb_false a b : bytes_eqb a b = false <-> a <> b.
Proof. unfold bytes_eqb. apply bool_decide_eq_false. Qed.

(** The loop invariant: the bytes read so far are not a ping. *)
Lemma read_loop_reaches_ping reads : forall data,
  bytes_strip data <> ping ->
  bytes_strip (data ++ delivered reads) = ping ->
  read_loop reads data = Ping.
Proof.
  induction reads as [|r rest IH]; intros data Hnot Hping; simpl in *.
  - rewrite app_nil_r in Hping. contradiction.
  - destruct r as [[|b chunk]| |e]; simpl in *;
      try (rewrite app_nil_r in Hping; contradiction).
    fold ping.
    destruct (bytes_eqb (bytes_strip (data ++ b :: chunk)) ping) eqn:E;
      [reflexivity|].
    apply IH.
    + now apply bytes_eqb_false.
    + now rewrite <- app_assoc.
Qed.

Lemma handle_client_ping st reads now :
  bytes_strip (delivered reads) = ping ->
  handle_client st reads now = (pong_reply, st).
Proof.
  intros Hping. unfold handle_client.
  rewrite (read_loop_reaches_ping reads []); [reflexivity| |exact Hping].
  vm_compute. discriminate.
Qed.

Lemma serve_pings conns : forall st,
  Forall (fun c => bytes_strip (delivered (fst c)) = ping) conns ->
  serve st conns = (repeat pong_reply (length conns), st).
Proof.
  induction conns as [|[reads now] rest IH]; intros st Hall; simpl.
  - reflexivity.
  - inversion Hall as [|? ? Hc Hrest]; subst. simpl in Hc.
    rewrite (handle_client_ping st reads now Hc), (IH st Hrest).
    reflexivity.
Qed.

(** C3. A connection whose delivered bytes, trimmed of surrounding
    whitespace, are exactly [ping] is answered with exactly [pong] and
    closed, and the server state (both queues, the playing child) is left
    as it was, whatever that state is; served one after the other, N such
    connections receive N pongs and leave the state unchanged. *)
Theorem ping_is_answered_pong (st : state) (reads : list read_result) (now : Z)
    (conns : list (list read_result * Z)) :
  bytes_strip (delivered reads) = ping ->
  Forall (fun c => bytes_strip (delivered (fst c)) = ping) conns ->
  (let (calls, st') := handle_client st reads now in
   written calls = pong /\ closed calls = true /\ st' = st)
  /\ serve st conns = (repeat pong_reply (length conns), st)
  /\ map written (fst (serve st conns)) = repeat pong (length conns).
Proof.
  intros Hping Hall. split.
  - rewrite (handle_client_ping st reads now Hping). repeat split.
  - rewrite (serve_pings conns st Hall). split; [reflexivity|].
    simpl. rewrite map_repeat. reflexivity.
Qed.

Lemma ping_is_answered_pong_witness :
  (let (calls, st') := handle_client busy split_ping 7 in
   written calls = pong /\ closed calls = true /\ st' = busy)
  /\ serve busy three_pings = (repeat pong_reply (length three_pings), busy)
  /\ map written (fst (serve busy three_pings)) = repeat pong (length three_pings).
Proof.
  apply (ping_is_answered_pong busy split_ping 7 three_pings).
  - vm_compute. reflexivity.
  - repeat constructor.
Defined.

(** *** Text payloads *)

Lemma str_eqb_true a b : str_eqb a b = true <-> a = b.
Proof. unfold str_eqb. apply bool_decide_eq_true. Qed.

Lemma str_eqb_false a b : str_eqb a b = false <-> a <> b.
Proof. unfold str_eqb. apply bool_decide_eq_false. Qed.

(** When the bytes accumulated after each read never are a ping, the
    loop ends with all the delivered bytes. *)
Lemma read_loop_past_loop reads : forall data,
  (forall k, bytes_strip (data ++ delivered (firstn k reads)) <> ping) ->
  read_loop reads data = Past_loop (data ++ delivered reads) (caught reads).
Proof.
  induction reads as [|r rest IH]; intros data Hnever; simpl.
  - now rewrite app_nil_r.
  - destruct r as [[|b chunk]| |e]; simpl; try now rewrite app_nil_r.
    fold ping.
    destruct (bytes_eqb (bytes_strip (data ++ b :: chunk)) ping) eqn:E.
    + apply bytes_eqb_true in E. specialize (Hnever 1%nat). simpl in Hnever.
      rewrite app_nil_r in Hnever. contradiction.
    + rewrite IH.
      * now rewrite <- app_assoc.
      * intros k. specialize (Hnever (S k)). simpl in Hnever.
        now rewrite <- app_assoc.
Qed.

(** C5, counterexample. The payload [b"\xffping"] is not a ping: its
    trimmed bytes differ from [b"ping"].  Its lossy decoding drops the
    invalid byte, so the trimmed text is the non-empty string ["ping"];
    yet the handler queues no message for it. *)
Lemma undecodable_ping_is_not_queued :
  let reads := [ReadBytes ([xff] ++ blit "ping")] in
  bytes_strip (delivered reads) <> ping
  /\ str_strip (decode_utf8_ignore (delivered reads)) = lit "ping"
  /\ lit "ping" <> []
  /\ handle_client idle reads 5 = ([W_close; W_wait_closed], idle).
Proof.
  cbv zeta. split; [|split; [|split]].
  - vm_compute. discriminate.
  - vm_compute. reflexivity.
  - discriminate.
  - vm_compute. reflexivity.
Qed.

(** The same happens with a separator that [str.strip] removes and
    [bytes.strip] keeps. *)
Example separator_ping_is_not_queued :
  let reads := [ReadBytes ([x1f] ++ blit "ping")] in
  bytes_strip (delivered reads) <> ping
  /\ handle_client idle reads 5 = ([W_close; W_wait_closed], idle).
Proof. cbv zeta. split; [vm_compute; discriminate | vm_compute; reflexivity]. Qed.

(** C5, as amended. On a connection whose accumulated bytes are never a
    ping, nothing is written to the client and the connection is closed;
    the delivered bytes are decoded as UTF-8 with undecodable bytes
    dropped, and trimmed; a text that is empty or equal to ["ping"] is
    dropped, any other text is appended to the request queue as one entry
    stamped with the current time.  The ready queue and the playing child
    are not touched. *)
Theorem text_is_queued_unless_empty_or_ping (st : state)
    (reads : list read_result) (now : Z) :
  (forall k, bytes_strip (delivered (firstn k reads)) <> ping) ->
  let text := str_strip (decode_utf8_ignore (delivered reads)) in
  let (calls, st') := handle_client st reads now in
  calls = [W_close; W_wait_closed]
  /\ written calls = []
  /\ ready_queue st' = ready_queue st
  /\ current_process st' = current_process st
  /\ (text = [] \/ text = lit "ping" -> request_queue st' = request_queue st)
  /\ (text <> [] -> text <> lit "ping" ->
      request_queue st' = request_queue st ++ [(text, now)]).
Proof.
  intros Hnever text. unfold handle_client.
  rewrite (read_loop_past_loop reads []) by exact Hnever.
  simpl app. fold text.
  destruct (str_eqb text []) eqn:E1; simpl.
  - apply str_eqb_true in E1.
    destruct (caught reads); simpl; repeat split; auto; congruence.
  - apply str_eqb_false in E1.
    destruct (str_eqb text (lit "ping")) eqn:E2; simpl.
    + apply str_eqb_true in E2.
      destruct (caught reads); simpl; repeat split; auto; congruence.
    + apply str_eqb_false in E2.
      destruct (caught reads); simpl; repeat split; auto;
        intros [?|?]; congruence.
Qed.

Lemma text_is_queued_unless_empty_or_ping_witness :
  let text := str_strip (decode_utf8_ignore (delivered hello_reads)) in
  let (calls, st') := handle_client idle hello_reads 9 in
  calls = [W_close; W_wait_closed]
  /\ written calls = []
  /\ ready_queue st' = ready_queue idle
  /\ current_process st' = current_process idle
  /\ (text = [] \/ text = lit "ping" -> request_queue st' = request_queue idle)
  /\ (text <> [] -> text <> lit "ping" ->
      request_queue st' = request_queue idle ++ [(text, 9%Z)]).
Proof.
  apply (text_is_queued_unless_empty_or_ping idle hello_reads 9).
  intros [|[|[|[|k]]]]; vm_compute; discriminate.
Defined.

Example hello_is_queued :
  request_queue (snd (handle_client idle hello_reads 9)) = [(lit "hello", 9%Z)].
Proof. vm_compute. reflexivity. Qed.

Example blank_is_dropped :
  handle_client idle [ReadBytes (blit "   "); ReadBytes []] 9
  = ([W_close; W_wait_closed], idle).
Proof. vm_compute. reflexivity. Qed.

(** *** One message per connection *)

(** Whatever a connection sends, the handler closes it, adds at most one
    entry to the request queue, after the entries already there, and
    touches neither the ready queue nor the playing child. *)
Theorem one_message_per_connection (st : state) (reads : list read_result)
    (now : Z) :
  let (calls, st') := handle_client st reads now in
  closed calls = true
  /\ (request_queue st' = request_queue st
      \/ exists text, text <> []
                      /\ request_queue st' = request_queue st ++ [(text, now)])
  /\ ready_queue st' = ready_queue st
  /\ current_process st' = current_process st.
Proof.
  unfold handle_client. destruct (read_loop reads []) as [|data error].
  - repeat split. now left.
  - set (text := str_strip (decode_utf8_ignore data)).
    destruct (str_eqb text []) eqn:E1; simpl.
    + destruct error; repeat split; now left.
    + apply str_eqb_false in E1.
      destruct (str_eqb text (lit "ping")); simpl.
      * destruct error; repeat split; now left.
      * destruct error; (split; [reflexivity|]);
          (split; [right; exists text; split; [assumption|reflexivity]|]);
          split; reflexivity.
Qed.

End IngressProps.

(** ** kokoro-server.py and tts/kokoro.py: failed synthesis *)

Module SynthesisProps.
Import Py Server Samples.

Lemma generate_requests_quiet pl requests : forall call generated,
  quiet pl call requests = true ->
  generate_requests pl call requests generated
  = (Ok (generated ++ survivors pl call requests), map fst requests).
Proof.
  induction requests as [|[text ts] rest IH]; intros call generated Hq; simpl.
  - now rewrite app_nil_r.
  - simpl in Hq. destruct (generate_audio pl call text) as [audio|e];
      [|discriminate].
    destruct audio as [[|x a]|]; simpl; rewrite IH by assumption;
      try reflexivity.
    now rewrite <- app_assoc.
Qed.

(** A message is among the survivors only through a call that returned
    non-empty audio for it. *)
Lemma survivors_succeeded pl requests : forall call text a,
  In (text, a) (survivors pl call requests) ->
  a <> [] /\ exists i ts, nth_error requests i = Some (text, ts)
                          /\ generate_audio pl (call + i) text = Ok (Some a).
Proof.
  induction requests as [|[t ts] rest IH]; intros call text a Hin; simpl in Hin.
  - contradiction.
  - assert (In (text, a) (survivors pl (S call) rest) ->
            a <> [] /\ exists i ts', nth_error ((t, ts) :: rest) i = Some (text, ts')
                        /\ generate_audio pl (call + i) text = Ok (Some a)) as Hrest.
    { intros H. destruct (IH _ _ _ H) as [Ha (i & ts' & Hn & Hg)].
      split; [assumption|]. exists (S i), ts'. split; [exact Hn|].
      now replace (call + S i)%nat with (S call + i)%nat by lia. }
    destruct (generate_audio pl call t) as [[[|x a']|]|e] eqn:E; auto.
    destruct Hin as [[= <- <-]|Hin]; auto.
    split; [discriminate|]. exists 0%nat, ts. split; [reflexivity|].
    now rewrite Nat.add_0_r.
Qed.

(** C8, counterexample. A message for which the pipeline yields no audio
    (the call returns [None]), or only empty audio, is dropped by the
    worker without a word: the only line printed in the turn is the
    announcement made before synthesis starts, and stderr stays empty.
    [KokoroTTS.synthesize] returns [None] for it with a trace-level
    timing entry, and no warning. *)
Lemma dropped_message_is_not_logged :
  generate_audio mute 0 (lit "x") = Ok None
  /\ generation_round mute 0 one_request []
     = ({| request_queue := []; ready_queue := []; current_process := None;
           stdout := [Generating_requests 1]; stderr := [] |}, [lit "x"])
  /\ generation_round hollow 0 one_request []
     = ({| request_queue := []; ready_queue := []; current_process := None;
           stdout := [Generating_requests 1]; stderr := [] |}, [lit "x"])
  /\ Kokoro.synthesize (Kokoro.initialize Kokoro.init mute) 0 (lit "x")
     = (None,
        {| Kokoro.pipeline_ := Some mute;
           Kokoro._executor := Kokoro.ThreadPoolExecutor 1;
           Kokoro.log := [(Kokoro.DEBUG, Kokoro.Loading_model);
                          (Kokoro.DEBUG, Kokoro.Model_loaded);
                          (Kokoro.TRACE, Kokoro.Synthesis_time)] |}).
Proof. repeat split. Qed.

(** C8, as amended. In a turn of the generation worker in which no call
    raises, the pipeline is called once for each message of the batch,
    in order; a message whose call returns [None] or empty audio gets no
    entry on the ready queue and no line in the output, and the worker
    goes on with the messages after it: the batch put on the ready queue
    holds exactly the messages with non-empty audio, and nothing is put
    when there are none.  [KokoroTTS.synthesize] turns an exception into
    a [None] result with one entry at error level, and returns [None]
    with the trace-level timing entry when the pipeline yields nothing. *)
Theorem failed_synthesis_is_dropped (pl : Kokoro.pipeline) (call : nat)
    (st : state) (first : str * Z) (queued late : list (str * Z))
    (self : Kokoro.KokoroTTS) (n : nat) (text : str) :
  request_queue st = first :: queued ->
  quiet pl call (first :: queued ++ late) = true ->
  Kokoro.pipeline_ self = Some pl ->
  let requests := first :: queued ++ late in
  let (st', calls) := generation_round pl call st late in
  calls = map fst requests
  /\ stdout st' = stdout st ++ [Generating_requests (length requests)]
  /\ stderr st' = stderr st
  /\ request_queue st' = []
  /\ ready_queue st'
     = ready_queue st ++ match survivors pl call requests with
                         | [] => []
                         | batch => [batch]
                         end
  /\ (forall t a, In (t, a) (survivors pl call requests) ->
        a <> [] /\ exists i ts, nth_error requests i = Some (t, ts)
                     /\ generate_audio pl (call + i) t = Ok (Some a))
  /\ (forall e, pl n text = Kokoro.Raises e ->
        Kokoro.synthesize self n text
        = (None, Kokoro.logged self Kokoro.ERROR (Kokoro.TTS_generation_failed e)))
  /\ (pl n text = Kokoro.Yields [] ->
        Kokoro.synthesize self n text
        = (None, Kokoro.logged self Kokoro.TRACE Kokoro.Synthesis_time)).
Proof.
  intros Hq Hquiet Hpl requests. unfold generation_round. rewrite Hq.
  fold requests.
  rewrite (generate_requests_quiet pl requests call [] Hquiet).
  rewrite app_nil_l.
  assert (forall t a, In (t, a) (survivors pl call requests) ->
            a <> [] /\ exists i ts, nth_error requests i = Some (t, ts)
                         /\ generate_audio pl (call + i) t = Ok (Some a)) as Hs
    by (intros t a; apply survivors_succeeded).
  assert (forall e, pl n text = Kokoro.Raises e ->
            Kokoro.synthesize self n text
            = (None, Kokoro.logged self Kokoro.ERROR (Kokoro.TTS_generation_failed e)))
    as Hraise.
  { intros e He. unfold Kokoro.synthesize, Kokoro.generate.
    now rewrite Hpl, He. }
  assert (pl n text = Kokoro.Yields [] ->
            Kokoro.synthesize self n text
            = (None, Kokoro.logged self Kokoro.TRACE Kokoro.Synthesis_time))
    as Hnone.
  { intros He. unfold Kokoro.synthesize, Kokoro.generate.
    now rewrite Hpl, He. }
  destruct (survivors pl call requests) as [|b bs] eqn:E; cbv beta iota.
  - do 4 (split; [reflexivity|]).
    split; [simpl; now rewrite app_nil_r|].
    split; [exact Hs|]. split; assumption.
  - do 5 (split; [reflexivity|]).
    split; [exact Hs|]. split; assumption.
Qed.

Lemma failed_synthesis_is_dropped_witness :
  let requests := (lit "a", 1%Z) :: [(lit "b", 2%Z)] ++ [(lit "c", 3%Z)] in
  let (st', calls) := generation_round flaky 0 three_requests [(lit "c", 3%Z)] in
  calls = map fst requests
  /\ stdout st' = stdout three_requests ++ [Generating_requests (length requests)]
  /\ stderr st' = stderr three_requests
  /\ request_queue st' = []
  /\ ready_queue st'
     = ready_queue three_requests ++ match survivors flaky 0 requests with
                                     | [] => []
                                     | batch => [batch]
                                     end
  /\ (forall t a, In (t, a) (survivors flaky 0 requests) ->
        a <> [] /\ exists i ts, nth_error requests i = Some (t, ts)
                     /\ generate_audio flaky (0 + i) t = Ok (Some a))
  /\ (forall e, flaky 1 (lit "b") = Kokoro.Raises e ->
        Kokoro.synthesize (Kokoro.initialize Kokoro.init flaky) 1 (lit "b")
        = (None, Kokoro.logged (Kokoro.initialize Kokoro.init flaky)
                   Kokoro.ERROR (Kokoro.TTS_generation_failed e)))
  /\ (flaky 1 (lit "b") = Kokoro.Yields [] ->
        Kokoro.synthesize (Kokoro.initialize Kokoro.init flaky) 1 (lit "b")
        = (None, Kokoro.logged (Kokoro.initialize Kokoro.init flaky)
                   Kokoro.TRACE Kokoro.Synthesis_time)).
Proof.
  apply (failed_synthesis_is_dropped flaky 0 three_requests (lit "a", 1%Z)
           [(lit "b", 2%Z)] [(lit "c", 3%Z)]
           (Kokoro.initialize Kokoro.init flaky) 1 (lit "b"));
    reflexivity.
Defined.

Example flaky_batch :
  generation_round flaky 0 three_requests [(lit "c", 3%Z)]
  = ({| request_queue := [];
        ready_queue := [[(lit "a", [R1; R0]); (lit "c", [R1; R0])]];
        current_process := None;
        stdout := [Generating_requests 3]; stderr := [] |},
     [lit "a"; lit "b"; lit "c"]).
Proof. reflexivity. Qed.

(** *** A call that raises *)




Example exception_ends_the_turn :
  generation_round broken 0 three_requests [(lit "c", 3%Z)]
  = ({| request_queue := []; ready_queue := []; current_process := None;
        stdout := [Generating_requests 3];
        stderr := [Generation_worker_error "out of memory"] |},
     [lit "a"; lit "b"]).
Proof. reflexivity. Qed.

End SynthesisProps.

(** ** kokoro-server.py: the playback supervision loop *)

Module SupervisionProps.
Import Py Server Samples.

Lemma clock_set_status w pid s :
  Playback.clock (Playback.set_status w pid s) = Playback.clock w.
Proof. reflexivity. Qed.






(** A child stays in the process table. *)
Lemma procs_during pid t s q :
  is_Some (Playback.procs (fst s) !! q) ->
  is_Some (Playback.procs (fst (during pid t s)) !! q).
Proof.
  destruct s as [w st]. unfold during. simpl. intros Hq.
  destruct (exits t) as [rc|]; [|exact Hq].
  unfold Playback.child_exits.
  destruct (Playback.poll (Playback.advance w (slept t)) pid); [exact Hq|].
  simpl. now apply lookup_alter_is_Some.
Qed.


Lemma poll_terminate_or_kill h w pid :
  is_Some (Playback.procs w !! pid) ->
  Playback.poll (Playback.terminate_or_kill h w pid) pid <> None.
Proof.
  intros [p Hp]. unfold Playback.terminate_or_kill, Playback.poll.
  destruct (Playback.obeys_sigterm h pid); simpl;
    rewrite lookup_alter_eq, Hp; simpl; discriminate.
Qed.

(** An interrupt happens at a poll that finds the child running and the
    ready queue non-empty, in a call that asked for the check. *)
Lemma supervise_interrupt h check pid ticks : forall s s',
  supervise h check pid ticks s = Interrupt s' ->
  check = true
  /\ exists n, (n <= length ticks)%nat
       /\ Playback.poll (fst (after pid ticks n s)) pid = None
       /\ ready_queue (snd (after pid ticks n s)) <> []
       /\ s' = (Playback.terminate_or_kill h (fst (after pid ticks n s)) pid,
                snd (after pid ticks n s)).
Proof.
  assert (forall s s', Playback.poll (fst s) pid = None ->
            check && negb match ready_queue (snd s) with
                          | [] => true
                          | _ :: _ => false
                          end = true ->
            Interrupt (Playback.terminate_or_kill h (fst s) pid, snd s)
            = Interrupt s' ->
            forall ticks, check = true
            /\ exists n, (n <= length ticks)%nat
                 /\ Playback.poll (fst (after pid ticks n s)) pid = None
                 /\ ready_queue (snd (after pid ticks n s)) <> []
                 /\ s' = (Playback.terminate_or_kill h (fst (after pid ticks n s)) pid,
                          snd (after pid ticks n s))) as Hnow.
  { intros s s' Hpoll Hc [= <-] ticks0.
    apply andb_true_iff in Hc as [-> Hq].
    split; [reflexivity|]. exists 0%nat.
    split; [lia|]. unfold after. rewrite firstn_0. simpl.
    split; [assumption|]. split; [|reflexivity].
    destruct (ready_queue (snd s)); [discriminate Hq|discriminate]. }
  induction ticks as [|t rest IH]; intros s s'; simpl.
  - destruct (Playback.poll (fst s) pid) eqn:Hpoll; [discriminate|].
    destruct (check && negb match ready_queue (snd s) with
                            | [] => true
                            | _ :: _ => false
                            end) eqn:Hc; [|discriminate].
    intros H. exact (Hnow s s' Hpoll Hc H []).
  - destruct (Playback.poll (fst s) pid) eqn:Hpoll; [discriminate|].
    destruct (check && negb match ready_queue (snd s) with
                            | [] => true
                            | _ :: _ => false
                            end) eqn:Hc.
    + intros H. exact (Hnow s s' Hpoll Hc H (t :: rest)).
    + intros H. destruct (IH _ _ H) as [Hcheck (n & Hn & Hp & Hq & Hs)].
      split; [assumption|]. exists (S n).
      split; [simpl; lia|]. unfold after in *. simpl.
      split; [assumption|]. split; assumption.
Qed.




(** Without the check the same child plays on; with it, an empty ready
    queue lets the child run to its natural end. *)
Example no_check_no_interrupt :
  fst (play_audio_file pulse_linux (fresh_world, idle) "/tmp/a.wav"
         None false early_batch) = Ok None.
Proof. reflexivity. Qed.

Example natural_exit_is_not_an_interrupt :
  fst (play_audio_file pulse_linux (fresh_world, idle) "/tmp/a.wav" None true
         [{| slept := 50; exits := None; arrivals := [] |};
          {| slept := 50; exits := Some 0%Z; arrivals := [] |}])
  = Ok (Some false).
Proof. reflexivity. Qed.

(** A snippet is cut after its sleep, whatever the ready queue holds. *)
Example snippet_is_cut :
  let r := play_audio_file pulse_linux (fresh_world, idle) "/tmp/a.wav"
             (Some SNIPPET_DURATION) false
             [{| slept := PLAYER_STARTUP_DELAY + SNIPPET_DURATION;
                 exits := None; arrivals := [] |}] in
  fst r = Ok (Some false)
  /\ Playback.poll (fst (snd r)) 100 = Some (- Playback.SIGKILL)%Z.
Proof. cbv zeta. split; reflexivity. Qed.

End SupervisionProps.

(** ** kokoro-server.py and tts/kokoro.py: one synthesis at a time *)

Module SerializationProps.
Import Py Kokoro Server Samples.

Lemma one_at_a_time_serialized evs : forall active,
  one_at_a_time active evs = true ->
  forall pre u post t,
    evs = pre ++ Begin u :: post ->
    In (Begin t) pre \/ active = Some t -> In (End t) pre.
Proof.
  induction evs as [|ev rest IH]; intros active Hone pre u post t Heq Hin.
  - destruct pre; discriminate.
  - destruct pre as [|ev' pre'].
    + simpl in Heq. injection Heq as -> ->. simpl in Hone.
      destruct active; [discriminate|].
      destruct Hin as [[]|Hin]; discriminate.
    + simpl in Heq. injection Heq as <- ->.
      destruct ev as [v|v|v]; simpl in Hone.
      * right. apply (IH active Hone pre' u post t eq_refl).
        destruct Hin as [[Hin|Hin]|Hin]; [discriminate|now left|now right].
      * destruct active; [discriminate|]. right.
        apply (IH (Some v) Hone pre' u post t eq_refl).
        destruct Hin as [[[= ->]|Hin]|Hin]; [now right|now left|discriminate].
      * destruct active as [w|]; [|discriminate].
        apply andb_true_iff in Hone as [Hv Hone].
        apply Nat.eqb_eq in Hv. subst w.
        destruct Hin as [[Hin|Hin]|[= ->]]; [discriminate| |now left].
        right. apply (IH None Hone pre' u post t eq_refl). now left.
Qed.

(** *** An executor with one worker thread *)

Lemma exec_step_max_workers e ev e' :
  exec_step e ev = Some e' -> max_workers e' = max_workers e.
Proof.
  destruct ev as [t|t|t]; simpl.
  - now intros [= <-].
  - destruct (work_queue e) as [|t' q]; [discriminate|].
    destruct ((t =? t')%nat && (length (running e) <? max_workers e)%nat);
      [|discriminate].
    now intros [= <-].
  - destruct (existsb (Nat.eqb t) (running e)); [|discriminate].
    now intros [= <-].
Qed.

Lemma single_thread_run evs : forall e active e',
  single_thread e active ->
  exec_run e evs = Some e' ->
  one_at_a_time active evs = true /\ (length (running e') <= 1)%nat.
Proof.
  induction evs as [|ev rest IH]; intros e active e' [Hmax Hrun] Hexec.
  - simpl in *. injection Hexec as <-. split; [reflexivity|].
    rewrite Hrun. destruct active; simpl; lia.
  - simpl in Hexec. destruct (exec_step e ev) as [e1|] eqn:Hstep; [|discriminate].
    destruct ev as [t|t|t]; simpl in Hstep |- *.
    + injection Hstep as <-. eapply IH; [|eassumption].
      split; assumption.
    + destruct (work_queue e) as [|t' q]; [discriminate|].
      destruct ((t =? t')%nat && (length (running e) <? max_workers e)%nat) eqn:Hc;
        [|discriminate].
      injection Hstep as <-. apply andb_true_iff in Hc as [_ Hlt].
      apply Nat.ltb_lt in Hlt. rewrite Hmax, Hrun in Hlt.
      destruct active as [a|]; simpl in Hlt; [lia|].
      eapply IH; [|eassumption].
      split; simpl; [assumption|now rewrite Hrun].
    + destruct (existsb (Nat.eqb t) (running e)) eqn:Hin; [|discriminate].
      injection Hstep as <-. rewrite Hrun in Hin.
      destruct active as [a|]; simpl in Hin; [|discriminate].
      rewrite orb_false_r in Hin. apply Nat.eqb_eq in Hin. subst a.
      simpl. rewrite Nat.eqb_refl. simpl.
      eapply IH; [|eassumption].
      split; simpl; [assumption|]. rewrite Hrun. simpl.
      now rewrite Nat.eqb_refl.
Qed.

(** *** One worker coroutine, any executor *)

Lemma single_worker_run evs : forall s active s',
  in_step s active ->
  sys_run s evs = Some s' ->
  one_at_a_time active evs = true /\ begun evs `prefix_of` not_begun s.
Proof.
  induction evs as [|ev rest IH]; intros [wk ex] active s' Hinv Hrun.
  - split; [reflexivity|]. apply prefix_nil.
  - simpl in Hrun.
    destruct (exec_step ex ev) as [ex'|] eqn:Hstep; [|discriminate].
    unfold in_step in Hinv. unfold not_begun. simpl fst. simpl snd.
    destruct (awaiting wk) as [a|] eqn:Ha.
    + destruct ev as [t|t|t]; simpl in Hstep.
      * discriminate.
      * destruct (work_queue ex) as [|t' q] eqn:Hq; [discriminate|].
        destruct ((t =? t')%nat && (length (running ex) <? max_workers ex)%nat)
          eqn:Hc; [|discriminate].
        injection Hstep as <-. apply andb_true_iff in Hc as [Ht _].
        apply Nat.eqb_eq in Ht. subst t'.
        destruct Hinv as [(Hq' & Hr & ->)|(Hq' & _)]; [|discriminate].
        injection Hq' as -> ->.
        edestruct IH as [Hone Hpre]; [|exact Hrun|].
        { simpl. rewrite Ha. right. rewrite Hr. simpl. auto. }
        split; [exact Hone|]. simpl. apply prefix_cons. exact Hpre.
      * destruct (existsb (Nat.eqb t) (running ex)) eqn:Hin; [|discriminate].
        injection Hstep as <-.
        destruct Hinv as [(_ & Hr & _)|(Hq & Hr & ->)];
          [rewrite Hr in Hin; discriminate|].
        rewrite Hr in Hin. simpl in Hin. rewrite orb_false_r in Hin.
        apply Nat.eqb_eq in Hin. subst a.
        rewrite Nat.eqb_refl in Hrun. simpl. rewrite Nat.eqb_refl. simpl.
        edestruct IH as [Hone Hpre]; [|exact Hrun|].
        { simpl. rewrite Hq, Hr. simpl. rewrite Nat.eqb_refl. simpl. auto. }
        split; [exact Hone|]. unfold not_begun in Hpre. simpl in Hpre.
        rewrite Hq in Hpre |- *. exact Hpre.
    + destruct Hinv as (Hq & Hr & ->).
      destruct ev as [t|t|t]; simpl in Hstep.
      * injection Hstep as <-.
        destruct (todo wk) as [|t' more] eqn:Htodo; [discriminate|].
        destruct (Nat.eqb_spec t t') as [<-|]; [|discriminate].
        edestruct IH as [Hone Hpre]; [|exact Hrun|].
        { simpl. left. rewrite Hq, Hr. simpl. auto. }
        split; [exact Hone|]. unfold not_begun in Hpre. simpl in Hpre.
        rewrite Hq in Hpre |- *. exact Hpre.
      * rewrite Hq in Hstep. discriminate.
      * rewrite Hr in Hstep. discriminate.
Qed.

(** C4. Syntheses never overlap.  In every run of the generation worker
    with an executor of any size, a task begins only when no other is
    running, the messages begin in the order of the batch, and whenever
    a synthesis begins every synthesis begun before it has ended.  The
    executor of a [KokoroTTS], which has one worker thread, runs at most
    one task at a time whoever submits to it. *)
Theorem synthesis_is_serialized (size : nat) (msgs : list nat)
    (evs : list event) (s : worker * executor)
    (evs' : list event) (e : executor) :
  sys_run (start msgs, ThreadPoolExecutor size) evs = Some s ->
  exec_run (_executor Kokoro.init) evs' = Some e ->
  (one_at_a_time None evs = true
   /\ serialized evs
   /\ begun evs `prefix_of` msgs)
  /\ (one_at_a_time None evs' = true
      /\ serialized evs'
      /\ (length (running e) <= 1)%nat).
Proof.
  intros Hsys Hexec. split.
  - destruct (single_worker_run evs (start msgs, ThreadPoolExecutor size) None s)
      as [Hone Hpre]; [simpl; auto|assumption|].
    split; [assumption|]. split; [|exact Hpre].
    intros pre u post t Heq Hin.
    apply (one_at_a_time_serialized evs None Hone pre u post t Heq). now left.
  - destruct (single_thread_run evs' (_executor Kokoro.init) None e)
      as [Hone Hlen]; [split; reflexivity|assumption|].
    split; [assumption|]. split; [|exact Hlen].
    intros pre u post t Heq Hin.
    apply (one_at_a_time_serialized evs' None Hone pre u post t Heq). now left.
Qed.

Lemma synthesis_is_serialized_witness :
  (one_at_a_time None three_syntheses = true
   /\ serialized three_syntheses
   /\ begun three_syntheses `prefix_of` [0; 1; 2; 3]%nat)
  /\ (one_at_a_time None two_callers = true
      /\ serialized two_callers
      /\ (length (running {| max_workers := 1; work_queue := [];
                             running := [9%nat] |}) <= 1)%nat).
Proof.
  apply (synthesis_is_serialized 4 [0; 1; 2; 3]%nat three_syntheses
           ({| awaiting := Some 2%nat; todo := [3%nat] |},
            {| max_workers := 4; work_queue := []; running := [2%nat] |})
           two_callers
           {| max_workers := 1; work_queue := []; running := [9%nat] |});
    reflexivity.
Defined.

(** A second task cannot begin while the first runs on the executor of a
    [KokoroTTS]; a second submission is not made by a worker that awaits. *)
Example second_task_waits :
  exec_run (_executor Kokoro.init) [Submit 0; Submit 1; Begin 0; Begin 1] = None.
Proof. reflexivity. Qed.

Example worker_awaits :
  sys_run (start [0; 1]%nat, ThreadPoolExecutor 4) [Submit 0; Submit 1] = None.
Proof. reflexivity. Qed.

End SerializationProps.

(** ** core/sounds.py *)

(** Binary64 arithmetic, in which Python computes [int(sample_rate * x)],
    gives the sample counts of the exact products at 24 kHz. *)
Module Binary64Props.
Import Sounds PrimFloat.

#[local] Set Warnings "-inexact-float".

Example counts_24k_binary64 :
  int_of_product_binary64 24000 0.08%float = int_of_product 24000 (8 # 100)
  /\ int_of_product_binary64 24000 0.03%float = int_of_product 24000 (3 # 100)
  /\ int_of_product_binary64 24000 0.02%float = int_of_product 24000 (2 # 100)
  /\ int_of_product_binary64 1920 0.05%float = int_of_product 1920 (5 # 100)
  /\ int_of_product_binary64 24000 0.15%float = int_of_product 24000 (15 # 100)
  /\ int_of_product_binary64 24000 0.005%float = int_of_product 24000 (5 # 1000).
Proof. repeat split. Qed.

(** The two differ elsewhere: [int(100 * 0.29)] is 28. *)
Example count_binary64_differs :
  int_of_product_binary64 100 0.29%float = 28%Z
  /\ int_of_product 100 (29 # 100) = 29%Z.
Proof. split; reflexivity. Qed.

End Binary64Props.

Module SoundsProps.
Import Py Sounds.

Local Open Scope R_scope.

(** *** Arrays as tables of a function of the index *)

Lemma length_tabulate f n : length (tabulate f n) = n.
Proof. unfold tabulate. now rewrite length_map, length_seq. Qed.

Lemma nth_tabulate f n i : (i < n)%nat -> nth i (tabulate f n) 0 = f i.
Proof.
  intros Hi. unfold tabulate.
  rewrite (nth_indep _ 0 (f 0%nat)) by now rewrite length_map, length_seq.
  rewrite map_nth, seq_nth by assumption. reflexivity.
Qed.

Lemma tabulate_ext f g n :
  (forall i, (i < n)%nat -> f i = g i) -> tabulate f n = tabulate g n.
Proof.
  intros Hfg. unfold tabulate. apply map_ext_in.
  intros i Hi. apply in_seq in Hi. apply Hfg. lia.
Qed.

Lemma map_tabulate (h : R -> R) f n :
  map h (tabulate f n) = tabulate (fun i => h (f i)) n.
Proof. unfold tabulate. now rewrite map_map. Qed.

Lemma combine_map_same {A B C} (f : A -> B) (g : A -> C) (l : list A) :
  combine (map f l) (map g l) = map (fun x => (f x, g x)) l.
Proof. induction l as [|x l IH]; simpl; [reflexivity | now rewrite IH]. Qed.

Lemma vadd_tabulate f g n :
  vadd (tabulate f n) (tabulate g n) = tabulate (fun i => f i + g i) n.
Proof. unfold vadd, tabulate. now rewrite combine_map_same, map_map. Qed.

Lemma vmul_tabulate f g n :
  vmul (tabulate f n) (tabulate g n) = tabulate (fun i => f i * g i) n.
Proof. unfold vmul, tabulate. now rewrite combine_map_same, map_map. Qed.

Lemma linspace_tabulate start stop num endpoint :
  linspace start stop num endpoint
  = tabulate (fun i => start + INR i * ((stop - start)
                         / INR (if endpoint then num - 1 else num))) num.
Proof. reflexivity. Qed.

Lemma map_seq_shift (f : nat -> R) k n :
  map f (seq k n) = map (fun i => f (k + i)%nat) (seq 0 n).
Proof.
  revert k. induction n as [|n IH]; intros k; simpl; [reflexivity|].
  rewrite Nat.add_0_r. f_equal. rewrite (IH (S k)), <- seq_shift, map_map.
  apply map_ext. intros i. f_equal. lia.
Qed.

Lemma zeros_tabulate n : zeros n = tabulate (fun _ => 0) n.
Proof.
  unfold zeros, tabulate. generalize 0%nat.
  induction n as [|n IH]; intros k; simpl; [reflexivity | now rewrite <- IH].
Qed.

Lemma firstn_seq_le s n k : (k <= n)%nat -> firstn k (seq s n) = seq s k.
Proof.
  intros Hk. replace n with (k + (n - k))%nat by lia.
  rewrite seq_app, firstn_app, length_seq, Nat.sub_diag. simpl.
  rewrite app_nil_r. apply firstn_all2. rewrite length_seq. lia.
Qed.

Lemma firstn_tabulate f n k :
  (k <= n)%nat -> firstn k (tabulate f n) = tabulate f k.
Proof.
  intros Hk. unfold tabulate. now rewrite firstn_map, firstn_seq_le.
Qed.

Lemma skipn_tabulate f n k :
  skipn k (tabulate f n) = tabulate (fun i => f (k + i)%nat) (n - k).
Proof.
  unfold tabulate. rewrite skipn_map, skipn_seq. simpl.
  apply map_seq_shift.
Qed.

Lemma app_tabulate f g a b :
  tabulate f a ++ tabulate g b
  = tabulate (fun i => if (i <? a)%nat then f i else g (i - a)%nat) (a + b).
Proof.
  unfold tabulate. rewrite seq_app, map_app. simpl. f_equal.
  - apply map_ext_in. intros i Hi. apply in_seq in Hi.
    destruct (Nat.ltb_spec i a); [reflexivity | lia].
  - rewrite (map_seq_shift _ a b). apply map_ext. intros i.
    destruct (Nat.ltb_spec (a + i) a); [lia|]. f_equal. lia.
Qed.

(** An in-place product on the slice [lo:hi] of a table. *)
Lemma imul_tabulate f g n lo hi :
  (lo <= hi <= n)%nat ->
  imul (tabulate f n) lo hi (tabulate g (hi - lo))
  = Ok (tabulate (fun i => if ((lo <=? i) && (i <? hi))%nat
                           then f i * g (i - lo)%nat else f i) n).
Proof.
  intros [Hlo Hhi]. unfold imul, broadcast.
  rewrite length_tabulate, Nat.eqb_refl. simpl.
  rewrite (firstn_tabulate f n lo) by lia. rewrite !skipn_tabulate.
  rewrite firstn_tabulate by lia. rewrite vmul_tabulate, !app_tabulate.
  f_equal. replace (lo + (hi - lo + (n - hi)))%nat with n by lia.
  apply tabulate_ext. intros i Hi.
  destruct (Nat.ltb_spec i lo), (Nat.leb_spec lo i), (Nat.ltb_spec i hi),
    (Nat.ltb_spec (i - lo) (hi - lo)); simpl; try lia; try reflexivity.
  - repeat f_equal; lia.
  - f_equal. lia.
Qed.

(** An assignment to the slice [lo:hi] of a table. *)
Lemma assign_tabulate f g n lo hi :
  (lo <= hi <= n)%nat ->
  assign (tabulate f n) lo hi (tabulate g (hi - lo))
  = Ok (tabulate (fun i => if ((lo <=? i) && (i <? hi))%nat
                           then g (i - lo)%nat else f i) n).
Proof.
  intros [Hlo Hhi]. unfold assign, broadcast.
  rewrite length_tabulate, Nat.eqb_refl. simpl.
  rewrite firstn_tabulate by lia. rewrite skipn_tabulate.
  rewrite !app_tabulate.
  f_equal. replace (lo + (hi - lo + (n - hi)))%nat with n by lia.
  apply tabulate_ext. intros i Hi.
  destruct (Nat.ltb_spec i lo), (Nat.leb_spec lo i), (Nat.ltb_spec i hi),
    (Nat.ltb_spec (i - lo) (hi - lo)); simpl; try lia; try reflexivity.
  f_equal. lia.
Qed.


Lemma imul_head_tabulate f g n k :
  (k <= n)%nat ->
  imul (tabulate f n) 0 k (tabulate g k)
  = Ok (tabulate (fun i => if (i <? k)%nat then f i * g i else f i) n).
Proof.
  intros Hk. pose proof (imul_tabulate f g n 0 k (conj (Nat.le_0_l k) Hk)) as H.
  rewrite Nat.sub_0_r in H. rewrite H. f_equal.
  apply tabulate_ext. intros i _. simpl. now rewrite Nat.sub_0_r.
Qed.

Lemma assign_head_tabulate f g n k :
  (k <= n)%nat ->
  assign (tabulate f n) 0 k (tabulate g k)
  = Ok (tabulate (fun i => if (i <? k)%nat then g i else f i) n).
Proof.
  intros Hk. pose proof (assign_tabulate f g n 0 k (conj (Nat.le_0_l k) Hk)) as H.
  rewrite Nat.sub_0_r in H. rewrite H. f_equal.
  apply tabulate_ext. intros i _. simpl. now rewrite Nat.sub_0_r.
Qed.

Lemma imul_tail_tabulate f g n k :
  (k <= n)%nat ->
  imul (tabulate f n) (n - k) n (tabulate g k)
  = Ok (tabulate (fun i => if (i <? n - k)%nat then f i
                           else f i * g (i - (n - k))%nat) n).
Proof.
  intros Hk.
  pose proof (imul_tabulate f g n (n - k) n (conj (Nat.le_sub_l n k) (le_n n))) as H.
  replace (n - (n - k))%nat with k in H by lia. rewrite H. f_equal.
  apply tabulate_ext. intros i Hi.
  destruct (Nat.leb_spec (n - k) i), (Nat.ltb_spec i n), (Nat.ltb_spec i (n - k));
    simpl; try lia; reflexivity.
Qed.

(** *** Sample counts at 24 kHz *)

Lemma counts_24k :
  int_of_product 24000 (8 # 100) = 1920%Z
  /\ int_of_product 24000 (3 # 100) = 720%Z
  /\ int_of_product 24000 (2 # 100) = 480%Z
  /\ int_of_product 1920 (5 # 100) = 96%Z
  /\ int_of_product 24000 (15 # 100) = 3600%Z
  /\ int_of_product 24000 (5 # 1000) = 120%Z.
Proof. repeat split. Qed.

Lemma INR_of_nat_Z (z : Z) : (0 <= z)%Z -> INR (Z.to_nat z) = IZR z.
Proof. intros Hz. now rewrite INR_IZR_INZ, Z2Nat.id. Qed.

(** The time of sample [i] of an array of [n] samples that spans
    [n / 24000] seconds. *)
Lemma sample_time (d : Q) (n : Z) (i : nat) :
  (0 < n)%Z -> Q2R d = IZR n / 24000 ->
  0 + INR i * ((Q2R d - 0) / INR (Z.to_nat n)) = INR i / 24000.
Proof.
  intros Hn Hd. rewrite INR_of_nat_Z, Hd by lia.
  assert (IZR n <> 0) by (apply not_0_IZR; lia). field. assumption.
Qed.

Lemma ramp_up (k : Z) (i : nat) :
  (1 < k)%Z ->
  0 + INR i * ((1 - 0) / INR (Z.to_nat k - 1)) = INR i / IZR (k - 1).
Proof.
  intros Hk. replace (Z.to_nat k - 1)%nat with (Z.to_nat (k - 1)) by lia.
  rewrite INR_of_nat_Z by lia.
  assert (IZR (k - 1) <> 0) by (apply not_0_IZR; lia). field. assumption.
Qed.

Lemma ramp_down (k : Z) (i : nat) :
  (1 < k)%Z ->
  1 + INR i * ((0 - 1) / INR (Z.to_nat k - 1)) = 1 - INR i / IZR (k - 1).
Proof.
  intros Hk. replace (Z.to_nat k - 1)%nat with (Z.to_nat (k - 1)) by lia.
  rewrite INR_of_nat_Z by lia.
  assert (IZR (k - 1) <> 0) by (apply not_0_IZR; lia). field. assumption.
Qed.

Lemma make_note_24k freq :
  make_note 24000 freq (8 # 100) 0.25
  = Ok (tabulate (note_sample freq) (Z.to_nat 1920)).
Proof.
  unfold make_note.
  change (count (int_of_product 24000 (8 # 100))) with (Ok (Z.to_nat 1920)).
  cbn [bind]. cbv zeta.
  rewrite !linspace_tabulate, !map_tabulate, !vadd_tabulate, !length_tabulate.
  change (count (int_of_product (Z.of_nat (Z.to_nat 1920)) (5 # 100)))
    with (Ok (Z.to_nat 96)).
  cbn [bind]. unfold head_stop. rewrite length_tabulate.
  change (Nat.min (Z.to_nat 96) (Z.to_nat 1920)) with (Z.to_nat 96).
  rewrite linspace_tabulate, imul_head_tabulate by lia.
  cbn [bind]. rewrite vmul_tabulate. f_equal.
  apply tabulate_ext. intros i Hi. unfold note_sample. cbv zeta.
  rewrite (sample_time (8 # 100) 1920 i) by (try lia; unfold Q2R; simpl; lra).
  rewrite (ramp_up 96 i) by lia.
  change (96 - 1)%Z with 95%Z. change (Z.to_nat 96) with 96%nat.
  replace (2 * PI * freq * 2 * (INR i / 24000))
    with (2 * PI * (2 * freq) * (INR i / 24000)) by ring.
  replace (2 * PI * freq * 3 * (INR i / 24000))
    with (2 * PI * (3 * freq) * (INR i / 24000)) by ring.
  replace (- (INR i / 24000) * 8) with (- 8 * (INR i / 24000)) by ring.
  destruct (i <? 96)%nat; ring.
Qed.

Lemma generate_chime_24k :
  generate_chime 24000
  = Ok (astype_float32 (tabulate chime_sample (Z.to_nat 4560))).
Proof.
  unfold generate_chime. rewrite !make_note_24k. cbn [bind].
  change (count (int_of_product 24000 (3 # 100))) with (Ok (Z.to_nat 720)).
  cbn [bind]. cbv zeta.
  change (int_of_product 24000 (2 # 100)) with 480%Z.
  change (0 <? 480)%Z with true. cbv iota.
  rewrite zeros_tabulate, !app_tabulate, linspace_tabulate.
  unfold tail_start. rewrite length_tabulate.
  change (Z.to_nat 480 =? 0)%nat with false. cbv iota.
  rewrite imul_tail_tabulate by lia. cbn [bind]. do 2 f_equal.
  replace (Z.to_nat 1920 + (Z.to_nat 720 + Z.to_nat 1920))%nat
    with (Z.to_nat 4560) by lia.
  apply tabulate_ext. intros i Hi. unfold chime_sample.
  replace (Z.to_nat 4560 - Z.to_nat 480)%nat with 4080%nat by lia.
  rewrite (ramp_down 480 (i - 4080)) by lia.
  change (480 - 1)%Z with 479%Z.
  replace (Z.to_nat 1920) with 1920%nat by lia.
  replace (Z.to_nat 720) with 720%nat by lia.
  destruct (Nat.ltb_spec i 1920), (Nat.ltb_spec i 2640),
    (Nat.ltb_spec (i - 1920) 720), (Nat.ltb_spec i 4080);
    try lia; try ring.
  all: replace (i - 1920 - 720)%nat with (i - 2640)%nat by lia; ring.
Qed.

(** *** Bounds *)

Lemma peak_le_tabulate c f n :
  (forall i, (i < n)%nat -> Rabs (f i) <= c) -> peak_le c (tabulate f n).
Proof.
  intros Hf. unfold peak_le, tabulate. apply List.Forall_forall.
  intros x Hx. apply in_map_iff in Hx as (i & <- & Hi).
  apply in_seq in Hi. apply Hf. lia.
Qed.

Lemma Rabs_mul_unit x c y : Rabs x <= c -> 0 <= y <= 1 -> Rabs (x * y) <= c.
Proof.
  intros Hx [Hy0 Hy1]. rewrite Rabs_mult, (Rabs_pos_eq y) by assumption.
  pose proof (Rabs_pos x). nra.
Qed.

Lemma exp_decay_unit x : x <= 0 -> 0 <= exp x <= 1.
Proof.
  intros Hle. split; [left; apply exp_pos|].
  destruct Hle as [Hlt|Heq].
  - left. rewrite <- exp_0. now apply exp_increasing.
  - rewrite Heq, exp_0. lra.
Qed.

Lemma INR_below (i : nat) (k : Z) : (Z.of_nat i <= k)%Z -> 0 <= INR i <= IZR k.
Proof.
  intros Hi. split; [apply pos_INR|].
  rewrite INR_IZR_INZ. now apply IZR_le.
Qed.

Lemma sample_time_nonneg i : 0 <= INR i / 24000.
Proof. pose proof (pos_INR i). lra. Qed.

Lemma Rabs_sin x : Rabs (sin x) <= 1.
Proof. apply Rabs_le. pose proof (SIN_bound x). lra. Qed.

Lemma note_sample_bound freq i : Rabs (note_sample freq i) <= 0.35.
Proof.
  unfold note_sample. cbv zeta.
  apply Rabs_mul_unit; [apply Rabs_mul_unit|].
  - pose proof (SIN_bound (2 * PI * freq * (INR i / 24000))).
    pose proof (SIN_bound (2 * PI * (2 * freq) * (INR i / 24000))).
    pose proof (SIN_bound (2 * PI * (3 * freq) * (INR i / 24000))).
    apply Rabs_le. lra.
  - apply exp_decay_unit. pose proof (sample_time_nonneg i). lra.
  - destruct (Nat.ltb_spec i 96); [|lra].
    pose proof (INR_below i 95 ltac:(lia)). lra.
Qed.

Lemma chime_sample_bound i : (i < 4560)%nat -> Rabs (chime_sample i) <= 0.35.
Proof.
  intros Hi. unfold chime_sample. apply Rabs_mul_unit.
  - destruct (i <? 1920)%nat; [apply note_sample_bound|].
    destruct (i <? 2640)%nat; [|apply note_sample_bound].
    rewrite Rabs_R0. lra.
  - destruct (Nat.ltb_spec i 4080); [lra|].
    pose proof (INR_below (i - 4080) 479 ltac:(lia)). lra.
Qed.

(** C6. At 24 kHz [generate_chime] returns a float32 array of 4560
    samples, 0.19 s, hence not empty and of a duration strictly between
    0.15 s and 0.25 s.  Its samples are those of the chime the
    specification describes: a G5 note (784 Hz) of 80 ms, 30 ms of
    silence, a C6 note (1047 Hz) of 80 ms, each note the fundamental plus
    the second harmonic at 30 % and the third at 10 % under [exp(-8 t)]
    with a linear attack over the first 5 % of the note, and the last
    20 ms faded linearly to zero.  No sample exceeds 0.35 in absolute
    value, so the peak is at most 1. *)
Theorem chime_is_two_decaying_notes :
  exists chime : float32_array,
    generate_chime 24000 = Ok chime
    /\ length (samples chime) = 4560%nat
    /\ samples chime <> []
    /\ 0.15 < duration (length (samples chime)) 24000 < 0.25
    /\ (forall i, (i < 4560)%nat -> nth i (samples chime) 0 = chime_sample i)
    /\ nth 4559 (samples chime) 0 = 0
    /\ peak_le 0.35 (samples chime)
    /\ peak_le 1 (samples chime).
Proof.
  exists (astype_float32 (tabulate chime_sample (Z.to_nat 4560))).
  split; [apply generate_chime_24k|]. simpl samples.
  assert (length (tabulate chime_sample (Z.to_nat 4560)) = 4560%nat) as Hlen
    by (rewrite length_tabulate; lia).
  assert (forall i, (i < 4560)%nat ->
            nth i (tabulate chime_sample (Z.to_nat 4560)) 0 = chime_sample i)
    as Hnth by (intros i Hi; apply nth_tabulate; lia).
  assert (peak_le 0.35 (tabulate chime_sample (Z.to_nat 4560))) as Hpeak
    by (apply peak_le_tabulate; intros i Hi; apply chime_sample_bound; lia).
  split; [exact Hlen|]. split.
  { intros Hnil. rewrite Hnil in Hlen. discriminate Hlen. }
  split.
  { rewrite Hlen. unfold duration. rewrite INR_IZR_INZ.
    change (Z.of_nat 4560) with 4560%Z. lra. }
  split; [exact Hnth|]. split.
  { rewrite Hnth by lia. unfold chime_sample.
    destruct (Nat.ltb_spec 4559 4080); [lia|].
    replace (INR (4559 - 4080)) with 479; [field|].
    rewrite INR_IZR_INZ. f_equal. }
  split; [exact Hpeak|].
  eapply List.Forall_impl; [|exact Hpeak]. simpl. intros x Hx. lra.
Qed.


(** *** The drop tone *)

Lemma generate_drop_tone_24k :
  generate_drop_tone 24000
  = Ok (astype_float32 (tabulate drop_sample (Z.to_nat 3600))).
Proof.
  unfold generate_drop_tone. cbv zeta.
  change (count (int_of_product 24000 (15 # 100))) with (Ok (Z.to_nat 3600)).
  change (count (int_of_product 24000 (5 # 1000))) with (Ok (Z.to_nat 120)).
  change (count (int_of_product 24000 (3 # 100))) with (Ok (Z.to_nat 720)).
  cbn [bind].
  rewrite !linspace_tabulate, !map_tabulate, !vadd_tabulate.
  unfold head_stop. rewrite length_tabulate.
  change (Nat.min (Z.to_nat 120) (Z.to_nat 3600)) with (Z.to_nat 120).
  rewrite assign_head_tabulate by lia.
  cbn [bind]. rewrite vmul_tabulate, map_tabulate.
  unfold tail_start. rewrite length_tabulate.
  change (Z.to_nat 720 =? 0)%nat with false. cbv iota.
  rewrite imul_tail_tabulate by lia. cbn [bind]. do 2 f_equal.
  apply tabulate_ext. intros i Hi. unfold drop_sample. cbv zeta.
  rewrite (sample_time (15 # 100) 3600 i) by (try lia; unfold Q2R; simpl; lra).
  rewrite (ramp_up 120 i) by lia.
  rewrite (ramp_down 720 (i - (Z.to_nat 3600 - Z.to_nat 720))) by lia.
  change (120 - 1)%Z with 119%Z. change (720 - 1)%Z with 719%Z.
  replace (Z.to_nat 3600 - Z.to_nat 720)%nat with 2880%nat by lia.
  change (Z.to_nat 120) with 120%nat.
  replace (2 * PI * 659 * 2 * (INR i / 24000))
    with (2 * PI * (2 * 659) * (INR i / 24000)) by ring.
  replace (2 * PI * 659 * 3 * (INR i / 24000))
    with (2 * PI * (3 * 659) * (INR i / 24000)) by ring.
  replace (2 * PI * 659 * 4 * (INR i / 24000))
    with (2 * PI * (4 * 659) * (INR i / 24000)) by ring.
  replace (- (INR i / 24000) * 20) with (- 20 * (INR i / 24000)) by ring.
  replace (- (INR i / 24000) * 30) with (- 30 * (INR i / 24000)) by ring.
  replace (- (INR i / 24000) * 40) with (- 40 * (INR i / 24000)) by ring.
  replace (- (INR i / 24000) * 10) with (- 10 * (INR i / 24000)) by ring.
  destruct (i <? 120)%nat, (i <? 2880)%nat; ring.
Qed.

Lemma unit_product s e : -1 <= s <= 1 -> 0 <= e <= 1 -> -1 <= s * e <= 1.
Proof. intros Hs He. nra. Qed.

Lemma drop_sample_bound i : (i < 3600)%nat -> Rabs (drop_sample i) <= 0.333.
Proof.
  intros Hi. unfold drop_sample. cbv zeta.
  pose proof (sample_time_nonneg i) as Ht.
  apply Rabs_mul_unit.
  - rewrite Rabs_mult, (Rabs_pos_eq 0.18) by lra.
    assert (Rabs ((sin (2 * PI * 659 * (INR i / 24000))
                   + 0.5 * sin (2 * PI * (2 * 659) * (INR i / 24000))
                     * exp (-20 * (INR i / 24000))
                   + 0.25 * sin (2 * PI * (3 * 659) * (INR i / 24000))
                     * exp (-30 * (INR i / 24000))
                   + 0.1 * sin (2 * PI * (4 * 659) * (INR i / 24000))
                     * exp (-40 * (INR i / 24000)))
                  * (if (i <? 120)%nat then INR i / 119
                     else exp (-10 * (INR i / 24000)))) <= 1.85) as Htone.
    { apply Rabs_mul_unit.
      - pose proof (SIN_bound (2 * PI * 659 * (INR i / 24000))) as H1.
        pose proof (unit_product _ _
                      (SIN_bound (2 * PI * (2 * 659) * (INR i / 24000)))
                      (exp_decay_unit (-20 * (INR i / 24000)) ltac:(lra))) as H2.
        pose proof (unit_product _ _
                      (SIN_bound (2 * PI * (3 * 659) * (INR i / 24000)))
                      (exp_decay_unit (-30 * (INR i / 24000)) ltac:(lra))) as H3.
        pose proof (unit_product _ _
                      (SIN_bound (2 * PI * (4 * 659) * (INR i / 24000)))
                      (exp_decay_unit (-40 * (INR i / 24000)) ltac:(lra))) as H4.
        apply Rabs_le. lra.
      - destruct (Nat.ltb_spec i 120).
        + pose proof (INR_below i 119 ltac:(lia)). lra.
        + apply exp_decay_unit. lra. }
    lra.
  - destruct (Nat.ltb_spec i 2880); [lra|].
    pose proof (INR_below (i - 2880) 719 ltac:(lia)). lra.
Qed.

(** C7. At 24 kHz [generate_drop_tone] returns a float32 array of 3600
    samples, 0.15 s, a duration strictly between 0.10 s and 0.20 s.  Its
    samples are those of the drop tone the specification describes: an E5
    fundamental (659 Hz) plus three harmonics of coefficients 0.5, 0.25,
    0.1 that decay at 20, 30, 40 per second, shaped by a linear attack of
    5 ms followed by the envelope [exp(-10 t)], scaled by 0.18, with the
    last 30 ms faded linearly to zero.  No sample exceeds 0.333 in
    absolute value, so the peak is at most 1. *)
Theorem drop_tone_is_a_decaying_pluck :
  exists drop : float32_array,
    generate_drop_tone 24000 = Ok drop
    /\ length (samples drop) = 3600%nat
    /\ 0.10 < duration (length (samples drop)) 24000 < 0.20
    /\ (forall i, (i < 3600)%nat -> nth i (samples drop) 0 = drop_sample i)
    /\ nth 3599 (samples drop) 0 = 0
    /\ peak_le 0.333 (samples drop)
    /\ peak_le 1 (samples drop).
Proof.
  exists (astype_float32 (tabulate drop_sample (Z.to_nat 3600))).
  split; [apply generate_drop_tone_24k|]. simpl samples.
  assert (length (tabulate drop_sample (Z.to_nat 3600)) = 3600%nat) as Hlen
    by (rewrite length_tabulate; lia).
  assert (forall i, (i < 3600)%nat ->
            nth i (tabulate drop_sample (Z.to_nat 3600)) 0 = drop_sample i)
    as Hnth by (intros i Hi; apply nth_tabulate; lia).
  assert (peak_le 0.333 (tabulate drop_sample (Z.to_nat 3600))) as Hpeak
    by (apply peak_le_tabulate; intros i Hi; apply drop_sample_bound; lia).
  split; [exact Hlen|]. split.
  { rewrite Hlen. unfold duration. rewrite INR_IZR_INZ.
    change (Z.of_nat 3600) with 3600%Z. lra. }
  split; [exact Hnth|]. split.
  { rewrite Hnth by lia. unfold drop_sample. cbv zeta.
    destruct (Nat.ltb_spec 3599 2880); [lia|].
    replace (INR (3599 - 2880)) with 719; [field|].
    rewrite INR_IZR_INZ. f_equal. }
  split; [exact Hpeak|].
  eapply List.Forall_impl; [|exact Hpeak]. simpl. intros x Hx. lra.
Qed.


(** At a sample rate of 20 Hz the drop tone has three samples and a fade
    of none: the in-place product on [pluck[-0:]], the whole array, with
    an empty ramp raises [ValueError].  The chime, whose fade is guarded
    by [if fade > 0], is produced. *)
Example drop_tone_20Hz : generate_drop_tone 20 = Exn "ValueError".
Proof. reflexivity. Qed.

Example chime_20Hz_length :
  exists chime, generate_chime 20 = Ok chime
                /\ length (samples chime) = 2%nat.
Proof. eexists. split; reflexivity. Qed.

End SoundsProps.

(** ** core/sounds.py at every sample rate *)

Module SoundsAnyRateProps.
Import Py Sounds.

Local Open Scope R_scope.

(** *** Peaks of arrays built from others *)

Lemma peak_le_app c a b : peak_le c a -> peak_le c b -> peak_le c (a ++ b).
Proof. intros Ha Hb. apply Forall_app. now split. Qed.

Lemma peak_le_firstn c k a : peak_le c a -> peak_le c (firstn k a).
Proof. apply Forall_take. Qed.

Lemma peak_le_skipn c k a : peak_le c a -> peak_le c (skipn k a).
Proof. apply Forall_drop. Qed.

Lemma peak_le_zeros c n : 0 <= c -> peak_le c (zeros n).
Proof.
  intros Hc. unfold peak_le, zeros. apply List.Forall_forall.
  intros x Hx. apply repeat_spec in Hx. subst x. now rewrite Rabs_R0.
Qed.

Lemma peak_le_weaken c c' a : c <= c' -> peak_le c a -> peak_le c' a.
Proof.
  intros Hc Ha. eapply List.Forall_impl; [|exact Ha]. simpl. intros x Hx. lra.
Qed.

Lemma peak_le_map c (f : R -> R) a :
  (forall x, Rabs (f x) <= c) -> peak_le c (map f a).
Proof.
  intros Hf. unfold peak_le. apply List.Forall_forall.
  intros y Hy. apply in_map_iff in Hy as (x & <- & _). apply Hf.
Qed.

Lemma peak_le_vadd c1 c2 a : forall b,
  peak_le c1 a -> peak_le c2 b -> peak_le (c1 + c2) (vadd a b).
Proof.
  unfold peak_le, vadd.
  induction a as [|x a IH]; intros [|y b] Ha Hb; simpl; try constructor.
  - inversion Ha; inversion Hb; subst. simpl.
    pose proof (Rabs_triang x y). lra.
  - inversion Ha; inversion Hb; subst. now apply IH.
Qed.

Lemma peak_le_vmul_unit c a : forall b,
  peak_le c a -> unit_interval b -> peak_le c (vmul a b).
Proof.
  unfold peak_le, unit_interval, vmul.
  induction a as [|x a IH]; intros [|y b] Ha Hb; simpl; try constructor.
  - inversion Ha; inversion Hb; subst. simpl.
    rewrite Rabs_mult, (Rabs_pos_eq y) by lra.
    pose proof (Rabs_pos x). nra.
  - inversion Ha; inversion Hb; subst. now apply IH.
Qed.


Lemma peak_le_map_on (P : R -> Prop) c (f : R -> R) a :
  Forall P a -> (forall x, P x -> Rabs (f x) <= c) -> peak_le c (map f a).
Proof.
  intros Ha Hf. unfold peak_le. apply List.Forall_forall.
  intros y Hy. apply in_map_iff in Hy as (x & <- & Hx).
  apply Hf. rewrite List.Forall_forall in Ha. now apply Ha.
Qed.

Lemma unit_interval_vmul a : forall b,
  unit_interval a -> unit_interval b -> unit_interval (vmul a b).
Proof.
  unfold unit_interval, vmul.
  induction a as [|x a IH]; intros [|y b] Ha Hb; simpl; try constructor.
  - inversion Ha; inversion Hb; subst. simpl. nra.
  - inversion Ha; inversion Hb; subst. now apply IH.
Qed.

Lemma unit_interval_app a b :
  unit_interval a -> unit_interval b -> unit_interval (a ++ b).
Proof. intros Ha Hb. apply Forall_app. now split. Qed.

Lemma unit_interval_exp (c : R) (t : ndarray) :
  0 <= c -> Forall (fun x => 0 <= x) t ->
  unit_interval (map (fun x => exp (- x * c)) t).
Proof.
  intros Hc Ht. unfold unit_interval. apply List.Forall_forall.
  intros y Hy. apply in_map_iff in Hy as (x & <- & Hx).
  rewrite List.Forall_forall in Ht. specialize (Ht x Hx).
  apply SoundsProps.exp_decay_unit. nra.
Qed.

(** The sample times are not negative. *)
Lemma linspace_nonneg stop n :
  0 <= stop -> Forall (fun x => 0 <= x) (linspace 0 stop n false).
Proof.
  intros Hstop. unfold linspace. apply List.Forall_forall.
  intros y Hy. apply in_map_iff in Hy as (i & <- & Hi). apply in_seq in Hi.
  assert (0 < INR n) by (apply lt_0_INR; lia).
  pose proof (pos_INR i).
  assert (0 <= (stop - 0) / INR n).
  { unfold Rdiv. apply Rmult_le_pos; [lra|]. left. now apply Rinv_0_lt_compat. }
  nra.
Qed.

(** The two ramps stay between 0 and 1. *)
Lemma ramp_fraction i k :
  (i < k)%nat -> 0 <= INR i * (1 / INR (k - 1)) <= 1.
Proof.
  intros Hi. destruct (Nat.eq_dec k 1%nat) as [->|Hk].
  - replace i with 0%nat by lia. simpl. lra.
  - assert (0 < INR (k - 1)) as Hpos by (apply lt_0_INR; lia).
    assert (INR i <= INR (k - 1)) as Hle by (apply le_INR; lia).
    pose proof (pos_INR i) as Hi0.
    unfold Rdiv. rewrite Rmult_1_l. split.
    + apply Rmult_le_pos; [assumption|]. left. now apply Rinv_0_lt_compat.
    + apply (Rmult_le_reg_r (INR (k - 1))); [assumption|].
      rewrite Rmult_assoc, Rinv_l by lra. lra.
Qed.

Lemma unit_interval_ramp_up k : unit_interval (linspace 0 1 k true).
Proof.
  unfold unit_interval, linspace. apply List.Forall_forall.
  intros y Hy. apply in_map_iff in Hy as (i & <- & Hi). apply in_seq in Hi.
  pose proof (ramp_fraction i k ltac:(lia)) as H.
  replace (0 + INR i * ((1 - 0) / INR (k - 1)))
    with (INR i * (1 / INR (k - 1))) by (unfold Rdiv; ring).
  exact H.
Qed.

Lemma unit_interval_ramp_down k : unit_interval (linspace 1 0 k true).
Proof.
  unfold unit_interval, linspace. apply List.Forall_forall.
  intros y Hy. apply in_map_iff in Hy as (i & <- & Hi). apply in_seq in Hi.
  pose proof (ramp_fraction i k ltac:(lia)) as H.
  replace (1 + INR i * ((0 - 1) / INR (k - 1)))
    with (1 - INR i * (1 / INR (k - 1))) by (unfold Rdiv; ring).
  lra.
Qed.

(** *** Shapes *)

Lemma length_vadd a b : length (vadd a b) = Nat.min (length a) (length b).
Proof. unfold vadd. now rewrite length_map, length_combine. Qed.

Lemma length_vmul a b : length (vmul a b) = Nat.min (length a) (length b).
Proof. unfold vmul. now rewrite length_map, length_combine. Qed.

Lemma length_linspace start stop n endpoint :
  length (linspace start stop n endpoint) = n.
Proof. unfold linspace. now rewrite length_map, length_seq. Qed.

(** An in-place product whose operand has the shape of the slice. *)
Lemma imul_same_shape a lo hi b :
  length b = (hi - lo)%nat ->
  imul a lo hi b
  = Ok (firstn lo a ++ vmul (firstn (hi - lo) (skipn lo a)) b ++ skipn hi a).
Proof.
  intros Hb. unfold imul, broadcast. rewrite Hb, Nat.eqb_refl. reflexivity.
Qed.

Lemma assign_same_shape a lo hi b :
  length b = (hi - lo)%nat ->
  assign a lo hi b = Ok (firstn lo a ++ b ++ skipn hi a).
Proof.
  intros Hb. unfold assign, broadcast. rewrite Hb, Nat.eqb_refl. reflexivity.
Qed.

Lemma length_slice_product a lo hi b :
  (lo <= hi <= length a)%nat -> length b = (hi - lo)%nat ->
  length (firstn lo a ++ vmul (firstn (hi - lo) (skipn lo a)) b ++ skipn hi a)
  = length a.
Proof.
  intros Hlh Hb.
  rewrite !length_app, length_vmul, !length_firstn, !length_skipn. lia.
Qed.

Lemma length_slice_assign (a : ndarray) lo hi (b : ndarray) :
  (lo <= hi <= length a)%nat -> length b = (hi - lo)%nat ->
  length (firstn lo a ++ b ++ skipn hi a) = length a.
Proof.
  intros Hlh Hb. rewrite !length_app, !length_firstn, !length_skipn. lia.
Qed.

Lemma peak_le_slice_product c a lo hi b :
  peak_le c a -> unit_interval b ->
  peak_le c (firstn lo a ++ vmul (firstn (hi - lo) (skipn lo a)) b ++ skipn hi a).
Proof.
  intros Ha Hb. apply peak_le_app; [now apply peak_le_firstn|].
  apply peak_le_app; [|now apply peak_le_skipn].
  apply peak_le_vmul_unit; [|assumption].
  now apply peak_le_firstn, peak_le_skipn.
Qed.

Lemma unit_interval_slice_product a lo hi b :
  unit_interval a -> unit_interval b ->
  unit_interval
    (firstn lo a ++ vmul (firstn (hi - lo) (skipn lo a)) b ++ skipn hi a).
Proof.
  intros Ha Hb. apply unit_interval_app; [now apply Forall_take|].
  apply unit_interval_app; [|now apply Forall_drop].
  apply unit_interval_vmul; [|assumption].
  now apply Forall_take, Forall_drop.
Qed.

Lemma unit_interval_slice_assign a lo hi b :
  unit_interval a -> unit_interval b ->
  unit_interval (firstn lo a ++ b ++ skipn hi a).
Proof.
  intros Ha Hb. apply unit_interval_app; [now apply Forall_take|].
  apply unit_interval_app; [assumption | now apply Forall_drop].
Qed.

(** *** Counts *)

Lemma int_of_product_fraction (n : Z) (p q : positive) :
  (0 <= n)%Z -> (p <= q)%positive ->
  (0 <= int_of_product n (Z.pos p # q) <= n)%Z.
Proof.
  intros Hn Hpq. unfold int_of_product. simpl Qnum. simpl Qden. split.
  - apply Z.quot_pos; lia.
  - apply Z.quot_le_upper_bound; [lia|]. nia.
Qed.

Lemma int_of_product_mono (n : Z) (p p' q q' : positive) :
  (0 <= n)%Z -> (p * q' <= p' * q)%positive ->
  (int_of_product n (Z.pos p # q) <= int_of_product n (Z.pos p' # q'))%Z.
Proof.
  intros Hn Hp. unfold int_of_product. simpl Qnum. simpl Qden.
  apply Z.quot_le_lower_bound; [lia|].
  pose proof (Z.mul_quot_le (n * Z.pos p) (Z.pos q) ltac:(lia) ltac:(lia)) as Hx.
  assert (0 <= (n * Z.pos p) ÷ Z.pos q)%Z as Hx0 by (apply Z.quot_pos; lia).
  assert (Z.pos p * Z.pos q' <= Z.pos p' * Z.pos q)%Z as Hpq by lia.
  nia.
Qed.

(** *** The notes and the chime *)

Lemma Rabs_scaled_sin a x : Rabs (a * sin x) <= Rabs a.
Proof.
  rewrite Rabs_mult. pose proof (SoundsProps.Rabs_sin x). pose proof (Rabs_pos a).
  nra.
Qed.

Lemma count_nonneg (z : Z) : (0 <= z)%Z -> count z = Ok (Z.to_nat z).
Proof. intros Hz. unfold count. destruct (Z.ltb_spec z 0); [lia|reflexivity]. Qed.

Lemma int_of_product_nonneg (n : Z) (x : Q) :
  (0 <= n)%Z -> (0 <= Qnum x)%Z -> (0 <= int_of_product n x)%Z.
Proof. intros Hn Hx. unfold int_of_product. apply Z.quot_pos; nia. Qed.

Lemma Q2R_nonneg (x : Q) : (0 <= Qnum x)%Z -> 0 <= Q2R x.
Proof.
  intros Hx. unfold Q2R. apply Rmult_le_pos; [now apply IZR_le|].
  left. apply Rinv_0_lt_compat. now apply IZR_lt.
Qed.

Lemma make_note_any (sample_rate : Z) (freq : R) (d : Q) (a : R) :
  (0 <= sample_rate)%Z -> (0 <= Qnum d)%Z ->
  exists note,
    make_note sample_rate freq d a = Ok note
    /\ length note = Z.to_nat (int_of_product sample_rate d)
    /\ peak_le (Rabs a * 1.4) note.
Proof.
  intros Hsr Hd. unfold make_note.
  rewrite count_nonneg by now apply int_of_product_nonneg.
  cbn [bind]. cbv zeta.
  set (n := Z.to_nat (int_of_product sample_rate d)).
  set (t := linspace 0 (Q2R d) n false).
  assert (length t = n) as Ht by apply length_linspace.
  rewrite Ht.
  pose proof (int_of_product_fraction (Z.of_nat n) 5 100 ltac:(lia) ltac:(lia))
    as Hfrac.
  rewrite count_nonneg by lia. cbn [bind].
  set (attack := Z.to_nat (int_of_product (Z.of_nat n) (5 # 100))).
  assert (attack <= n)%nat as Hattack by (unfold attack; lia).
  set (envelope := map (fun x => exp (- x * 8)) t).
  assert (length envelope = n) as Henv by (unfold envelope; now rewrite length_map).
  unfold head_stop. rewrite Henv, (Nat.min_l attack n) by assumption.
  rewrite imul_same_shape by (rewrite length_linspace; lia).
  cbn [bind]. eexists. split; [reflexivity|]. split.
  - rewrite length_vmul, !length_vadd, !length_map, Ht.
    rewrite length_slice_product by (rewrite ?length_linspace; lia). lia.
  - apply peak_le_vmul_unit.
    + apply (peak_le_weaken (Rabs a + Rabs a * 0.3 + Rabs a * 0.1)); [lra|].
      apply peak_le_vadd; [apply peak_le_vadd|]; apply peak_le_map; intros x.
      * apply Rabs_scaled_sin.
      * rewrite Rmult_assoc, Rabs_mult.
        pose proof (Rabs_scaled_sin 0.3 (2 * PI * freq * 2 * x)) as H.
        rewrite (Rabs_pos_eq 0.3) in H by lra. pose proof (Rabs_pos a). nra.
      * rewrite Rmult_assoc, Rabs_mult.
        pose proof (Rabs_scaled_sin 0.1 (2 * PI * freq * 3 * x)) as H.
        rewrite (Rabs_pos_eq 0.1) in H by lra. pose proof (Rabs_pos a). nra.
    + apply unit_interval_slice_product; [|apply unit_interval_ramp_up].
      apply unit_interval_exp; [lra|].
      apply linspace_nonneg. now apply Q2R_nonneg.
Qed.

Lemma generate_chime_returns (sample_rate : Z) :
  (0 <= sample_rate)%Z ->
  exists chime : float32_array,
    generate_chime sample_rate = Ok chime
    /\ length (samples chime)
       = (2 * Z.to_nat (int_of_product sample_rate (8 # 100))
          + Z.to_nat (int_of_product sample_rate (3 # 100)))%nat
    /\ peak_le 0.35 (samples chime)
    /\ peak_le 1 (samples chime).
Proof.
  intros Hsr.
  destruct (make_note_any sample_rate 784 (8 # 100) 0.25 Hsr ltac:(simpl; lia))
    as (note1 & Hn1 & Hl1 & Hp1).
  destruct (make_note_any sample_rate 1047 (8 # 100) 0.25 Hsr ltac:(simpl; lia))
    as (note2 & Hn2 & Hl2 & Hp2).
  assert (Rabs 0.25 * 1.4 = 0.35) as Hamp by (rewrite Rabs_pos_eq; lra).
  rewrite Hamp in Hp1, Hp2.
  unfold generate_chime. rewrite Hn1, Hn2. cbn [bind].
  rewrite count_nonneg by (apply int_of_product_nonneg; simpl; lia).
  cbn [bind]. cbv zeta.
  set (n := Z.to_nat (int_of_product sample_rate (8 # 100))) in *.
  set (g := Z.to_nat (int_of_product sample_rate (3 # 100))).
  set (fade := Z.to_nat (int_of_product sample_rate (2 # 100))).
  set (chime := note1 ++ zeros g ++ note2).
  assert (length chime = (2 * n + g)%nat) as Hlen.
  { unfold chime, zeros. rewrite !length_app, repeat_length. lia. }
  assert (peak_le 0.35 chime) as Hpeak.
  { unfold chime. apply peak_le_app; [assumption|].
    apply peak_le_app; [apply peak_le_zeros; lra | assumption]. }
  assert (fade <= n)%nat as Hfade.
  { unfold fade, n.
    pose proof (int_of_product_mono sample_rate 2 8 100 100 Hsr ltac:(lia)).
    lia. }
  destruct (Z.ltb_spec 0 (int_of_product sample_rate (2 # 100))) as [Hpos|Hzero].
  - unfold tail_start. destruct (Nat.eqb_spec fade 0); [unfold fade in *; lia|].
    rewrite imul_same_shape by (rewrite length_linspace; lia).
    cbn [bind]. eexists. split; [reflexivity|]. simpl samples.
    assert (peak_le 0.35
              (firstn (length chime - fade) chime
               ++ vmul (firstn (length chime - (length chime - fade))
                          (skipn (length chime - fade) chime))
                    (linspace 1 0 fade true)
               ++ skipn (length chime) chime)) as Hfaded
      by (apply peak_le_slice_product;
          [assumption | apply unit_interval_ramp_down]).
    split; [|split; [exact Hfaded|]].
    + rewrite length_slice_product by (rewrite ?length_linspace; lia).
      exact Hlen.
    + apply (peak_le_weaken 0.35); [lra | exact Hfaded].
  - cbn [bind]. eexists. split; [reflexivity|]. simpl samples.
    split; [exact Hlen|]. split; [exact Hpeak|].
    apply (peak_le_weaken 0.35); [lra | exact Hpeak].
Qed.



(** *** The drop tone *)

Lemma peak_le_scale c k a :
  0 <= k -> peak_le c a -> peak_le (c * k) (map (fun x => x * k) a).
Proof.
  intros Hk Ha. unfold peak_le in *. apply List.Forall_forall.
  intros y Hy. apply in_map_iff in Hy as (x & <- & Hx).
  rewrite List.Forall_forall in Ha. specialize (Ha x Hx).
  rewrite Rabs_mult, (Rabs_pos_eq k) by assumption. nra.
Qed.

Lemma Rabs_decaying_sin (c x y r : R) :
  0 <= c -> 0 <= r -> 0 <= y -> Rabs (c * sin x * exp (- y * r)) <= c.
Proof.
  intros Hc Hr Hy.
  pose proof (SoundsProps.exp_decay_unit (- y * r) ltac:(nra)) as He.
  pose proof (SoundsProps.unit_product _ _ (SIN_bound x) He) as Hp.
  rewrite Rmult_assoc. apply Rabs_le. nra.
Qed.

(** The array before the fade. *)
Lemma drop_tone_pluck (sample_rate : Z) :
  (0 <= sample_rate)%Z ->
  exists pluck : ndarray,
    length pluck = Z.to_nat (int_of_product sample_rate (15 # 100))
    /\ peak_le 0.333 pluck
    /\ generate_drop_tone sample_rate
       = (faded <- imul pluck
                     (tail_start pluck
                        (Z.to_nat (int_of_product sample_rate (3 # 100))))
                     (length pluck)
                     (linspace 1 0
                        (Z.to_nat (int_of_product sample_rate (3 # 100))) true) ;;
          Ok (astype_float32 faded)).
Proof.
  intros Hsr. unfold generate_drop_tone. cbv zeta.
  rewrite !count_nonneg by (apply int_of_product_nonneg; simpl; lia).
  cbn [bind].
  set (n := Z.to_nat (int_of_product sample_rate (15 # 100))).
  set (t := linspace 0 (Q2R (15 # 100)) n false).
  assert (length t = n) as Ht by apply length_linspace.
  assert (Forall (fun x => 0 <= x) t) as Htpos
    by (apply linspace_nonneg, Q2R_nonneg; simpl; lia).
  set (attack := Z.to_nat (int_of_product sample_rate (5 # 1000))).
  assert (attack <= n)%nat as Hattack.
  { unfold attack, n.
    pose proof (int_of_product_mono sample_rate 5 15 1000 100 Hsr ltac:(lia)).
    lia. }
  set (tone := vadd _ _).
  assert (length tone = n) as Htone
    by (unfold tone; rewrite !length_vadd, !length_map, Ht; lia).
  assert (peak_le 1.85 tone) as Hpeak_tone.
  { unfold tone. apply (peak_le_weaken (1 + 0.5 + 0.25 + 0.1)); [lra|].
    repeat apply peak_le_vadd.
    - apply peak_le_map. intros x. apply SoundsProps.Rabs_sin.
    - apply (peak_le_map_on (fun x => 0 <= x)); [assumption|].
      intros x Hx. apply Rabs_decaying_sin; lra.
    - apply (peak_le_map_on (fun x => 0 <= x)); [assumption|].
      intros x Hx. apply Rabs_decaying_sin; lra.
    - apply (peak_le_map_on (fun x => 0 <= x)); [assumption|].
      intros x Hx. apply Rabs_decaying_sin; lra. }
  set (envelope := map (fun x => exp (- x * 10)) t).
  assert (length envelope = n) as Henv
    by (unfold envelope; now rewrite length_map).
  assert (unit_interval envelope) as Hunit
    by (apply unit_interval_exp; [lra | assumption]).
  unfold head_stop. rewrite Henv, (Nat.min_l attack n) by assumption.
  rewrite assign_same_shape by (rewrite length_linspace; lia).
  cbn [bind].
  set (shaped := firstn 0 envelope ++ linspace 0 1 attack true
                 ++ skipn attack envelope).
  assert (length shaped = n) as Hshaped.
  { unfold shaped.
    rewrite length_slice_assign by (rewrite ?length_linspace; lia).
    exact Henv. }
  assert (unit_interval shaped) as Hshaped_unit
    by (apply unit_interval_slice_assign;
        [assumption | apply unit_interval_ramp_up]).
  exists (map (fun x => x * 0.18) (vmul tone shaped)).
  split; [rewrite length_map, length_vmul; lia|].
  split; [|reflexivity].
  replace 0.333 with (1.85 * 0.18) by lra.
  apply peak_le_scale; [lra|]. now apply peak_le_vmul_unit.
Qed.

Lemma generate_drop_tone_cases (sample_rate : Z) :
  (0 <= sample_rate)%Z ->
  let n := Z.to_nat (int_of_product sample_rate (15 # 100)) in
  let fade := Z.to_nat (int_of_product sample_rate (3 # 100)) in
  if ((fade =? 0) && (0 <? n))%nat
  then generate_drop_tone sample_rate = Exn "ValueError"
  else exists drop : float32_array,
         generate_drop_tone sample_rate = Ok drop
         /\ length (samples drop) = n
         /\ peak_le 0.333 (samples drop)
         /\ peak_le 1 (samples drop).
Proof.
  intros Hsr n fade.
  destruct (drop_tone_pluck sample_rate Hsr) as (pluck & Hpluck & Hpeak & ->).
  fold n in Hpluck. fold fade.
  assert (fade <= n)%nat as Hfade.
  { unfold fade, n.
    pose proof (int_of_product_mono sample_rate 3 15 100 100 Hsr ltac:(lia)).
    lia. }
  assert (forall lo,
            (lo <= n)%nat -> length (linspace 1 0 fade true) = (n - lo)%nat ->
            exists drop : float32_array,
              (faded <- imul pluck lo n (linspace 1 0 fade true) ;;
               Ok (astype_float32 faded)) = Ok drop
              /\ length (samples drop) = n
              /\ peak_le 0.333 (samples drop)
              /\ peak_le 1 (samples drop)) as Hok.
  { intros lo Hlo Hshape. rewrite imul_same_shape by assumption.
    cbn [bind]. eexists. split; [reflexivity|]. simpl samples.
    assert (peak_le 0.333
              (firstn lo pluck
               ++ vmul (firstn (n - lo) (skipn lo pluck)) (linspace 1 0 fade true)
               ++ skipn n pluck)) as Hfaded
      by (apply peak_le_slice_product;
          [assumption | apply unit_interval_ramp_down]).
    split; [|split; [exact Hfaded|]].
    - rewrite length_slice_product by lia. exact Hpluck.
    - apply (peak_le_weaken 0.333); [lra | exact Hfaded]. }
  unfold tail_start. rewrite Hpluck.
  destruct (Nat.eqb_spec fade 0) as [Hzero|Hpos]; simpl andb.
  - destruct (Nat.ltb_spec 0 n) as [Hn|Hn].
    + rewrite Hzero. unfold imul, broadcast. simpl length.
      destruct (Nat.eqb_spec 0 (n - 0)); [lia|]. reflexivity.
    + apply Hok; [lia|]. rewrite length_linspace. lia.
  - apply Hok; [lia|]. rewrite length_linspace. lia.
Qed.



Lemma generate_drop_tone_low_rate (sample_rate : Z) :
  (7 <= sample_rate <= 33)%Z ->
  generate_drop_tone sample_rate = Exn "ValueError".
Proof.
  intros Hsr.
  pose proof (generate_drop_tone_cases sample_rate ltac:(lia)) as H.
  cbv zeta in H.
  assert (int_of_product sample_rate (3 # 100) = 0%Z) as Hfade.
  { unfold int_of_product. simpl. apply Z.quot_small. lia. }
  assert (1 <= int_of_product sample_rate (15 # 100))%Z as Hn.
  { unfold int_of_product. simpl. apply Z.quot_le_lower_bound; lia. }
  rewrite Hfade in H. simpl (Z.to_nat 0 =? 0)%nat in H.
  destruct (Nat.ltb_spec 0 (Z.to_nat (int_of_product sample_rate (15 # 100))));
    [exact H | lia].
Qed.

(** The sample rates at which the drop tone cannot be generated. *)
Lemma drop_tone_rates_without_fade (sample_rate : Z) :
  (7 <= sample_rate <= 33)%Z ->
  generate_drop_tone sample_rate = Exn "ValueError".
Proof. exact (generate_drop_tone_low_rate sample_rate). Qed.

Lemma drop_tone_rates_without_fade_witness :
  generate_drop_tone 20 = Exn "ValueError".
Proof. apply (drop_tone_rates_without_fade 20). lia. Defined.

(** A negative number of samples is refused by numpy. *)
Example chime_negative_rate : generate_chime (-24000) = Exn "ValueError".
Proof. reflexivity. Qed.

End SoundsAnyRateProps.

(** ** core/sounds.py: the sound files *)

Module SoundFilesProps.
Import Py Files SoundFiles.

Lemma path_exists_false (d : disk) (p : string) :
  path_exists d p = false <-> d !! p = None.
Proof.
  unfold path_exists. rewrite bool_decide_eq_false, <- eq_None_not_Some.
  reflexivity.
Qed.

Lemma path_exists_true (d : disk) (p : string) :
  path_exists d p = true <-> is_Some (d !! p).
Proof. unfold path_exists. apply bool_decide_eq_true. Qed.

Lemma NamedTemporaryFile_Ok d names p d' :
  NamedTemporaryFile d names = (Ok p, d') ->
  d !! p = None /\ In p names /\ d' = <[p := None]> d.
Proof.
  unfold NamedTemporaryFile.
  destruct (List.find _ names) as [q|] eqn:E; [|discriminate].
  intros [= <- <-]. apply find_some in E as [Hin Hq].
  apply negb_true_iff, path_exists_false in Hq. auto.
Qed.

Lemma NamedTemporaryFile_Exn d names e d' :
  NamedTemporaryFile d names = (Exn e, d') ->
  d' = d /\ forall p, In p names -> is_Some (d !! p).
Proof.
  unfold NamedTemporaryFile.
  destruct (List.find _ names) as [q|] eqn:E; [discriminate|].
  intros [= <- <-]. split; [reflexivity|]. intros p Hp.
  apply (find_none _ _ E) in Hp.
  apply negb_false_iff, path_exists_true in Hp. exact Hp.
Qed.

Lemma NamedTemporaryFile_finds d names p :
  In p names -> d !! p = None ->
  exists q, NamedTemporaryFile d names = (Ok q, <[q := None]> d).
Proof.
  intros Hin Hp. unfold NamedTemporaryFile.
  destruct (List.find _ names) as [q|] eqn:E; [eauto|].
  apply (find_none _ _ E) in Hin.
  apply negb_false_iff, path_exists_true in Hin.
  rewrite Hp in Hin. destruct Hin; discriminate.
Qed.

(** A path returned by [save_audio] is new and holds the audio. *)
Lemma save_audio_Ok d t audio sr p d' :
  save_audio d t audio sr = (Ok p, d') ->
  d !! p = None /\ In p (candidates t) /\ write_error t = None
  /\ d' = <[p := Some (audio, sr)]> d.
Proof.
  unfold save_audio.
  destruct (NamedTemporaryFile d (candidates t)) as [[q|e] d1] eqn:E;
    [|discriminate].
  apply NamedTemporaryFile_Ok in E as (Hq & Hin & ->).
  unfold sf_write. destruct (write_error t) as [e|]; [discriminate|].
  intros [= <- <-]. rewrite insert_insert_eq. auto.
Qed.

(** When [save_audio] raises, either no name was free and nothing was
    created, or the write failed and the new file is still there. *)
Lemma save_audio_Exn d t audio sr e d' :
  save_audio d t audio sr = (Exn e, d') ->
  (e = "FileExistsError"%string /\ d' = d
   /\ forall p, In p (candidates t) -> is_Some (d !! p))
  \/ (exists p, d !! p = None /\ In p (candidates t)
                /\ write_error t = Some e /\ d' = <[p := None]> d).
Proof.
  unfold save_audio.
  destruct (NamedTemporaryFile d (candidates t)) as [[q|e0] d1] eqn:E.
  - apply NamedTemporaryFile_Ok in E as (Hq & Hin & ->).
    unfold sf_write. destruct (write_error t) as [e1|]; [|discriminate].
    intros [= <- <-]. right. exists q. rewrite insert_insert_eq. auto.
  - intros [= <- <-]. left.
    pose proof E as E'. apply NamedTemporaryFile_Exn in E as [-> Hall].
    unfold NamedTemporaryFile in E'.
    destruct (List.find _ (candidates t)); [discriminate|].
    injection E' as <-. auto.
Qed.

Lemma save_audio_writes d t audio sr p :
  write_error t = None -> In p (candidates t) -> d !! p = None ->
  exists q, d !! q = None /\ In q (candidates t)
            /\ save_audio d t audio sr = (Ok q, <[q := Some (audio, sr)]> d).
Proof.
  intros Hw Hin Hp. unfold save_audio.
  destruct (NamedTemporaryFile_finds d (candidates t) p Hin Hp) as [q Hq].
  pose proof Hq as Hq'. apply NamedTemporaryFile_Ok in Hq' as (Hfree & Hq' & _).
  rewrite Hq. unfold sf_write. rewrite Hw. rewrite insert_insert_eq. eauto.
Qed.

(** Removing the file that [save_audio] created gives the disk back. *)
Lemma unlink_saved deletable d p (x : option wav) :
  d !! p = None -> deletable p = true ->
  snd (unlink deletable (<[p := x]> d) p) = d.
Proof.
  intros Hp Hdel. unfold unlink. rewrite lookup_insert_eq, Hdel. simpl.
  now apply delete_insert_id.
Qed.

Lemma remove_if_exists_saved deletable d p (x : option wav) :
  d !! p = None -> deletable p = true ->
  remove_if_exists deletable (<[p := x]> d) (Some p) = d.
Proof.
  intros Hp Hdel. unfold remove_if_exists.
  replace (path_exists (<[p := x]> d) p) with true
    by (symmetry; apply path_exists_true; rewrite lookup_insert_eq; eauto).
  now apply unlink_saved.
Qed.

Lemma remove_if_exists_frame deletable d f q :
  f <> Some q -> remove_if_exists deletable d f !! q = d !! q.
Proof.
  intros Hq. unfold remove_if_exists. destruct f as [p|]; [|reflexivity].
  destruct (path_exists d p); [|reflexivity].
  unfold unlink. destruct (d !! p); [|reflexivity].
  destruct (deletable p); [|reflexivity].
  simpl. apply lookup_delete_ne. congruence.
Qed.

Lemma remove_if_exists_shrinks deletable d f q :
  remove_if_exists deletable d f !! q = d !! q
  \/ remove_if_exists deletable d f !! q = None.
Proof.
  unfold remove_if_exists. destruct f as [p|]; [|now left].
  destruct (path_exists d p); [|now left].
  unfold unlink. destruct (d !! p); [|now left].
  destruct (deletable p); [|now left].
  simpl. destruct (decide (p = q)) as [->|Hne].
  - right. apply lookup_delete_eq.
  - left. now apply lookup_delete_ne.
Qed.


(** When [sf.write] raises, the temporary file that was created for it
    stays on the disk, and its path is lost with the exception. *)
Theorem save_audio_leaves_file_when_write_fails (d : disk) (t : tempfile)
    (audio : list R) (sr : Z) (e : string) (p : string) :
  write_error t = Some e -> In p (candidates t) -> d !! p = None ->
  exists q, d !! q = None
            /\ save_audio d t audio sr = (Exn e, <[q := None]> d)
            /\ path_exists (snd (save_audio d t audio sr)) q = true.
Proof.
  intros Hw Hin Hp.
  destruct (NamedTemporaryFile_finds d (candidates t) p Hin Hp) as [q Hq].
  pose proof Hq as Hq'. apply NamedTemporaryFile_Ok in Hq' as (Hfree & _ & _).
  exists q. split; [assumption|].
  assert (save_audio d t audio sr = (Exn e, <[q := None]> d)) as ->.
  { unfold save_audio. rewrite Hq. unfold sf_write. rewrite Hw.
    now rewrite insert_insert_eq. }
  split; [reflexivity|].
  apply path_exists_true. simpl. rewrite lookup_insert_eq. eauto.
Qed.

Lemma save_audio_leaves_file_when_write_fails_witness :
  exists q, (∅ : disk) !! q = None
            /\ save_audio ∅ {| candidates := ["/tmp/tmpa.wav"];
                               write_error := Some "disk full" |}
                 [R1] 24000
               = (Exn "disk full", <[q := None]> ∅)
            /\ path_exists
                 (snd (save_audio ∅ {| candidates := ["/tmp/tmpa.wav"];
                                       write_error := Some "disk full" |}
                         [R1] 24000)) q = true.
Proof.
  apply (save_audio_leaves_file_when_write_fails ∅
           {| candidates := ["/tmp/tmpa.wav"];
              write_error := Some "disk full" |}
           [R1] 24000 "disk full" "/tmp/tmpa.wav").
  - reflexivity.
  - simpl. auto.
  - reflexivity.
Defined.

(** *** [SoundManager] *)

Lemma cleanup_init deletable sr d : cleanup deletable (init sr) d = (d, init sr).
Proof. reflexivity. Qed.

(** [init_sounds] on a new manager followed by [cleanup] leaves the disk
    as it was, whatever [init_sounds] did (it may have raised after the
    first file was written), as long as the writes succeed and the files
    may be removed. *)
Theorem init_sounds_then_cleanup (deletable : string -> bool) (sr : Z)
    (d : disk) (t1 t2 : tempfile) :
  write_error t1 = None -> write_error t2 = None ->
  (forall p, deletable p = true) ->
  let '(r, d1, m) := init_sounds (init sr) d t1 t2 in
  cleanup deletable m d1 = (d, init sr).
Proof.
  intros Hw1 Hw2 Hdel. unfold init_sounds. simpl sample_rate.
  destruct (Sounds.generate_chime sr) as [chime|e]; [|reflexivity].
  destruct (save_audio d t1 (Sounds.samples chime) sr) as [[p1|e] d1] eqn:E1.
  - apply save_audio_Ok in E1 as (Hp1 & _ & _ & ->).
    simpl sample_rate. simpl drop_file.
    assert (forall m d', sample_rate m = sr -> chime_file m = Some p1 ->
              drop_file m = None -> d' = <[p1 := Some (Sounds.samples chime, sr)]> d ->
              cleanup deletable m d' = (d, init sr)) as Honly.
    { intros m d' Hsr Hc Hd ->. unfold cleanup. rewrite Hc, Hd, Hsr.
      cbn [fold_left]. now rewrite remove_if_exists_saved. }
    destruct (Sounds.generate_drop_tone sr) as [drop|e].
    + destruct (save_audio _ t2 (Sounds.samples drop) sr) as [[p2|e] d2] eqn:E2.
      * apply save_audio_Ok in E2 as (Hp2 & _ & _ & ->).
        unfold cleanup. cbn [fold_left chime_file drop_file sample_rate].
        assert (p1 <> p2) as Hne
          by (intros ->; rewrite lookup_insert_eq in Hp2; discriminate).
        rewrite lookup_insert_ne in Hp2 by assumption.
        rewrite insert_insert_ne by congruence.
        rewrite remove_if_exists_saved
          by (rewrite ?lookup_insert_ne by congruence; auto).
        rewrite remove_if_exists_saved by auto. reflexivity.
      * apply save_audio_Exn in E2
          as [(_ & -> & _)|(p2 & _ & _ & Hw & _)]; [|congruence].
        now apply Honly.
    + now apply Honly.
  - apply save_audio_Exn in E1 as [(_ & -> & _)|(p & _ & _ & Hw & _)];
      [reflexivity | congruence].
Qed.

Lemma init_sounds_then_cleanup_witness :
  let '(r, d1, m) :=
    init_sounds (init 24000) ∅
      {| candidates := ["/tmp/tmpa.wav"]; write_error := None |}
      {| candidates := ["/tmp/tmpa.wav"; "/tmp/tmpb.wav"];
         write_error := None |} in
  cleanup (fun _ => true) m d1 = (∅, init 24000).
Proof.
  apply (init_sounds_then_cleanup (fun _ => true) 24000 ∅
           {| candidates := ["/tmp/tmpa.wav"]; write_error := None |}
           {| candidates := ["/tmp/tmpa.wav"; "/tmp/tmpb.wav"];
              write_error := None |}); reflexivity.
Defined.

(** [cleanup] clears both fields and keeps the sample rate.  It creates
    and changes no file, removes no file other than the two recorded
    ones, and a second [cleanup] does nothing. *)
Theorem cleanup_removes_only_recorded_files (deletable : string -> bool)
    (self : SoundManager) (d : disk) :
  let (d', m) := cleanup deletable self d in
  m = init (sample_rate self)
  /\ (forall q, d' !! q = d !! q \/ d' !! q = None)
  /\ (forall q, chime_file self <> Some q -> drop_file self <> Some q ->
        d' !! q = d !! q)
  /\ cleanup deletable m d' = (d', m).
Proof.
  unfold cleanup. simpl fold_left.
  split; [reflexivity|]. split; [|split; [|reflexivity]].
  - intros q.
    destruct (remove_if_exists_shrinks deletable
                (remove_if_exists deletable d (chime_file self))
                (drop_file self) q) as [->| ->]; [|now right].
    apply remove_if_exists_shrinks.
  - intros q Hc Hd. rewrite !remove_if_exists_frame by assumption.
    reflexivity.
Qed.



(** At a sample rate from 7 to 33 Hz [init_sounds] raises [ValueError]
    halfway: the chime file has been written and recorded, the drop tone
    has not been generated, and [drop_file] is still [None]. *)
Theorem init_sounds_stops_halfway (sr : Z) (d : disk) (t1 t2 : tempfile)
    (n1 : string) :
  (7 <= sr <= 33)%Z ->
  write_error t1 = None -> In n1 (candidates t1) -> d !! n1 = None ->
  exists p1 chime,
    Sounds.generate_chime sr = Ok chime
    /\ d !! p1 = None
    /\ init_sounds (init sr) d t1 t2
       = (Exn "ValueError",
          <[p1 := Some (Sounds.samples chime, sr)]> d,
          {| sample_rate := sr; chime_file := Some p1; drop_file := None |}).
Proof.
  intros Hsr Hw1 Hin1 Hfree1.
  destruct (SoundsAnyRateProps.generate_chime_returns sr ltac:(lia))
    as (chime & Hchime & _).
  pose proof (SoundsAnyRateProps.generate_drop_tone_low_rate sr Hsr) as Hdrop.
  destruct (save_audio_writes d t1 (Sounds.samples chime) sr n1 Hw1 Hin1 Hfree1)
    as (p1 & Hp1 & _ & Hs1).
  exists p1, chime. do 2 (split; [assumption|]).
  unfold init_sounds, init. cbn [sample_rate]. rewrite Hchime, Hs1.
  cbv zeta. cbn [sample_rate chime_file drop_file].
  rewrite Hdrop. reflexivity.
Qed.

Lemma init_sounds_stops_halfway_witness :
  exists p1 chime,
    Sounds.generate_chime 20 = Ok chime
    /\ (∅ : disk) !! p1 = None
    /\ init_sounds (init 20) ∅
         {| candidates := ["/tmp/tmpa.wav"]; write_error := None |}
         {| candidates := ["/tmp/tmpb.wav"]; write_error := None |}
       = (Exn "ValueError",
          <[p1 := Some (Sounds.samples chime, 20%Z)]> ∅,
          {| sample_rate := 20; chime_file := Some p1; drop_file := None |}).
Proof.
  apply (init_sounds_stops_halfway 20 ∅
           {| candidates := ["/tmp/tmpa.wav"]; write_error := None |}
           {| candidates := ["/tmp/tmpb.wav"]; write_error := None |}
           "/tmp/tmpa.wav").
  - lia.
  - reflexivity.
  - simpl. auto.
  - reflexivity.
Defined.

End SoundFilesProps.

(** ** core/playback.py: the life of a playback *)

Module PlayerProps.
Import Playback PlaybackNotions.

Local Open Scope string_scope.

(** [get_player] returns [None] exactly on a host that is not Darwin and
    where [which] finds none of mpv, paplay and aplay.  A command it
    returns is one of four; off Darwin its executable was found by
    [which], and mpv is taken whenever it is found.  On Darwin the
    command is afplay, and [which] is not asked. *)
Theorem get_player_choice (h : host) :
  (get_player h = None
   <-> platform h <> "darwin"
       /\ forall name, In name ["mpv"; "paplay"; "aplay"] ->
                       which h name <> Some 0%Z)
  /\ (forall p, get_player h = Some p ->
        In p players
        /\ (platform h <> "darwin" -> which h (hd "" p) = Some 0%Z))
  /\ (platform h = "darwin" -> get_player h = Some ["afplay"])
  /\ (platform h <> "darwin" -> which h "mpv" = Some 0%Z ->
      get_player h = Some ["mpv"; "--no-terminal"]).
Proof.
  unfold get_player, candidates, players. cbn [first_on_path hd].
  destruct (String.eqb_spec (platform h) "darwin") as [Hd|Hd].
  - split; [split; [discriminate | intros [H _]; contradiction]|].
    split; [intros p [= <-]; split; [simpl; auto | contradiction]|].
    split; [reflexivity | contradiction].
  - split; [|split; [|split; [contradiction|]]].
    + split.
      * intros Hnone. split; [assumption|].
        intros name [<-|[<-|[<-|[]]]] Hw; rewrite Hw in Hnone;
          try discriminate;
          destruct (which h "mpv") as [[| |]|]; try discriminate;
          destruct (which h "paplay") as [[| |]|]; discriminate.
      * intros [_ Hall].
        pose proof (Hall "mpv" ltac:(simpl; auto)) as H1.
        pose proof (Hall "paplay" ltac:(simpl; auto)) as H2.
        pose proof (Hall "aplay" ltac:(simpl; auto)) as H3.
        destruct (which h "mpv") as [[| |]|]; try congruence;
          destruct (which h "paplay") as [[| |]|]; try congruence;
          destruct (which h "aplay") as [[| |]|]; congruence.
    + intros p Hp.
      destruct (which h "mpv") as [[| |]|] eqn:E1;
        try (injection Hp as <-; simpl; auto 10);
        destruct (which h "paplay") as [[| |]|] eqn:E2;
        try (injection Hp as <-; simpl; auto 10);
        destruct (which h "aplay") as [[| |]|] eqn:E3;
        try (injection Hp as <-; simpl; auto 10); discriminate.
    + intros _ ->. reflexivity.
Qed.

Lemma play_started h w p f w' p' :
  play h w p f = (Return true, w', p') ->
  exists player,
    get_player h = Some player
    /\ w' = {| procs := <[next_pid w := {| args := player ++ [f];
                                           status := Running |}]> (procs w);
               next_pid := S (next_pid w);
               clock := clock w;
               debug_log := debug_log w |}
    /\ p' = {| current_process := Some (next_pid w);
               play_start_time := Some (clock w);
               _current_audio_file := Some f |}.
Proof.
  unfold play, Popen. destruct (get_player h) as [player|]; [|discriminate].
  destruct (can_spawn h (player ++ [f])); [|discriminate].
  intros [= <- <-]. eauto.
Qed.





(** [check_finished] returns [None] and changes nothing while the child
    runs.  Once the child has exited it returns the file given to
    [play], once: the player is cleared, and every later call returns
    [None], as on a player that never played. *)
Theorem check_finished_reports_once (h : host) (w : world) (p : AudioPlayer)
    (f : string) (w1 : world) (p1 : AudioPlayer) (rc : Z) :
  play h w p f = (Return true, w1, p1) ->
  check_finished w1 p1 = (None, p1)
  /\ check_finished (child_exits w1 (next_pid w) rc) p1 = (Some f, init)
  /\ is_playing (child_exits w1 (next_pid w) rc) p1 = false
  /\ forall w', check_finished w' init = (None, init).
Proof.
  intros Hplay. apply play_started in Hplay as (player & _ & -> & ->).
  unfold check_finished, is_playing, child_exits, poll, set_status.
  cbn [current_process _current_audio_file procs].
  rewrite lookup_insert_eq. cbn [status procs].
  rewrite lookup_alter_eq, lookup_insert_eq. cbn.
  repeat split.
Qed.

Lemma check_finished_reports_once_witness :
  let r := play Samples.pulse_linux Samples.fresh_world init "/tmp/a.wav" in
  check_finished (snd (fst r)) (snd r) = (None, snd r)
  /\ check_finished (child_exits (snd (fst r)) (next_pid Samples.fresh_world) 0)
       (snd r) = (Some "/tmp/a.wav", init)
  /\ is_playing (child_exits (snd (fst r)) (next_pid Samples.fresh_world) 0)
       (snd r) = false
  /\ forall w', check_finished w' init = (None, init).
Proof.
  intros r.
  apply (check_finished_reports_once Samples.pulse_linux Samples.fresh_world
           init "/tmp/a.wav" (snd (fst r)) (snd r) 0).
  reflexivity.
Defined.

Lemma run_passive h acts : forall w p,
  forallb passive acts = true ->
  snd (run h (w, p) acts) = p
  /\ clock (fst (run h (w, p) acts)) = (clock w + time_slept acts)%Z.
Proof.
  unfold run. induction acts as [|a acts IH]; intros w p Hp; simpl.
  - split; [reflexivity | lia].
  - apply andb_true_iff in Hp as [Ha Hrest].
    destruct a as [f| | |pid rc|dt]; try discriminate.
    + destruct (IH (child_exits w pid rc) p Hrest) as [-> ->].
      split; [reflexivity|].
      unfold child_exits. destruct (poll w pid); reflexivity.
    + destruct (IH (advance w dt) p Hrest) as [-> ->].
      split; [reflexivity|]. simpl. lia.
Qed.

(** The elapsed time of a playback is the time that has passed since
    [play] returned, whether the child is still running or has exited:
    it goes on growing until [stop] or [check_finished] clears the
    player, after which it is [None]. *)
Theorem elapsed_time_is_time_slept (h : host) (w : world) (p : AudioPlayer)
    (f : string) (w1 : world) (p1 : AudioPlayer) (acts : list action) :
  play h w p f = (Return true, w1, p1) ->
  forallb passive acts = true ->
  let s := run h (w1, p1) acts in
  get_elapsed_time (fst s) (snd s) = Some (time_slept acts)
  /\ (0 <= time_slept acts)%Z
  /\ get_elapsed_time (snd (fst (stop h (fst s) (snd s))))
       (snd (stop h (fst s) (snd s))) = None.
Proof.
  intros Hplay Hp s. subst s.
  destruct (run_passive h acts w1 p1 Hp) as [Hsame Hclock].
  apply play_started in Hplay as (player & _ & -> & ->).
  unfold get_elapsed_time. rewrite Hsame, Hclock. cbn [play_start_time clock].
  split; [f_equal; lia|]. split; [|reflexivity].
  clear. induction acts as [|[| | | |dt] acts IH]; simpl; lia.
Qed.

Lemma elapsed_time_is_time_slept_witness :
  let acts := [Sleep 700; ChildExits 100 0; Sleep 300] in
  let r := play Samples.pulse_linux Samples.fresh_world init "/tmp/a.wav" in
  let s := run Samples.pulse_linux (snd (fst r), snd r) acts in
  get_elapsed_time (fst s) (snd s) = Some (time_slept acts)
  /\ (0 <= time_slept acts)%Z
  /\ get_elapsed_time (snd (fst (stop Samples.pulse_linux (fst s) (snd s))))
       (snd (stop Samples.pulse_linux (fst s) (snd s))) = None.
Proof.
  intros acts r.
  apply (elapsed_time_is_time_slept Samples.pulse_linux Samples.fresh_world
           init "/tmp/a.wav" (snd (fst r)) (snd r) acts); reflexivity.
Defined.

(** [play_drop_sound] does not wait: when a player is found the child
    it starts is still running when the call returns.  The debug line
    is logged before the player is looked for, so it is logged also on
    a host without a player, where nothing is played. *)
Theorem drop_sound_is_fire_and_forget (h : host) (w : world) (f : string) :
  let (r, w') := play_drop_sound h w (Some f) in
  debug_log w' = (debug_log w ++ ["Playing drop tone"])%list
  /\ match get_player h with
     | None => r = Return tt /\ procs w' = procs w /\ next_pid w' = next_pid w
     | Some player =>
         if can_spawn h (player ++ [f])
         then r = Return tt
              /\ procs w' !! next_pid w
                 = Some {| args := player ++ [f]; status := Running |}
              /\ poll w' (next_pid w) = None
         else r = Raise_OSError /\ procs w' = procs w
     end.
Proof.
  unfold play_drop_sound, play_sound_async, Popen, log_debug.
  cbn [truthy to_str next_pid procs clock debug_log].
  destruct (get_player h) as [player|]; [|simpl; auto].
  destruct (can_spawn h (player ++ [f])); simpl; [|auto].
  split; [reflexivity|]. split; [reflexivity|].
  unfold poll. cbn [procs]. rewrite lookup_insert_eq. auto.
Qed.

End PlayerProps.

(** ** kokoro-server.py: the transition sound *)

Module TransitionSoundProps.
Import Py Sounds.

Local Open Scope R_scope.

Lemma make_note_agrees (sample_rate : Z) (freq : R) (d : Q) (a : R) (n : nat) :
  count (int_of_product sample_rate d) = Ok n ->
  Sounds.make_note sample_rate freq d a
  = TransitionSound.make_note (linspace 0 (Q2R d) n false) freq a.
Proof.
  intros Hn. unfold Sounds.make_note, TransitionSound.make_note.
  rewrite Hn. reflexivity.
Qed.

Lemma generate_transition_sound_eq (sample_rate : Z) :
  TransitionSound.generate_transition_sound sample_rate
  = generate_chime sample_rate.
Proof.
  unfold TransitionSound.generate_transition_sound, generate_chime.
  cbv zeta.
  destruct (count (int_of_product sample_rate (8 # 100))) as [n|e] eqn:Hn.
  - cbn [bind].
    rewrite (make_note_agrees sample_rate 784 (8 # 100) 0.25 n Hn).
    rewrite (make_note_agrees sample_rate 1047 (8 # 100) 0.25 n Hn).
    reflexivity.
  - cbn [bind]. unfold Sounds.make_note. rewrite Hn. reflexivity.
Qed.

(** The transition sound of [kokoro-server.py] is the chime of
    [core/sounds.py]: at every sample rate the two functions return the
    same array, or raise the same exception. *)
Theorem transition_sound_is_the_chime (sample_rate : Z) :
  TransitionSound.generate_transition_sound sample_rate
  = generate_chime sample_rate.
Proof. exact (generate_transition_sound_eq sample_rate). Qed.

(** At the default sample rate the transition sound is an array of 4560
    samples. *)
Lemma transition_sound_24k :
  exists chime,
    TransitionSound.generate_transition_sound 24000 = Ok chime
    /\ length (samples chime) = 4560%nat.
Proof.
  rewrite generate_transition_sound_eq.
  destruct (SoundsAnyRateProps.generate_chime_returns 24000 ltac:(lia))
    as (chime & Hc & Hlen & _).
  exists chime. split; [assumption|]. rewrite Hlen. reflexivity.
Qed.

End TransitionSoundProps.

(** ** kokoro-server.py: playing audio files *)

Module ServerPlaybackProps.
Import Py Files Server ServerPlayback ServerPlaybackNotions.

(** *** Worlds and states along a call *)

Lemma poll_ext w w' pid :
  Playback.procs w' !! pid = Playback.procs w !! pid ->
  Playback.poll w' pid = Playback.poll w pid.
Proof. unfold Playback.poll. now intros ->. Qed.

Lemma reaped_refl w : reaped w w.
Proof. unfold reaped. split; [lia|]. split; [auto | intros pid; lia]. Qed.

Lemma reaped_trans w1 w2 w3 : reaped w1 w2 -> reaped w2 w3 -> reaped w1 w3.
Proof.
  intros (Hn1 & Hold1 & Hnew1) (Hn2 & Hold2 & Hnew2).
  split; [lia|]. split.
  - intros pid Hpid. rewrite Hold2 by lia. now apply Hold1.
  - intros pid Hpid.
    destruct (Nat.lt_ge_cases pid (Playback.next_pid w2)) as [Hlt|Hge].
    + rewrite (poll_ext w2 w3 pid) by (apply Hold2; lia).
      apply Hnew1. lia.
    + apply Hnew2. lia.
Qed.

Lemma settled_refl st : settled st st.
Proof.
  unfold settled. do 2 (split; [reflexivity|]).
  split; [exists []; now rewrite app_nil_r|].
  split; [exists 0%nat; now rewrite app_nil_r | auto].
Qed.

Lemma settled_trans st1 st2 st3 :
  settled st1 st2 -> settled st2 st3 -> settled st1 st3.
Proof.
  intros (Hq1 & Ho1 & [m1 Hr1] & [k1 He1] & Hc1)
         (Hq2 & Ho2 & [m2 Hr2] & [k2 He2] & Hc2).
  split; [congruence|]. split; [congruence|].
  split; [exists (m1 ++ m2); rewrite Hr2, Hr1; now rewrite app_assoc|].
  split; [|auto].
  exists (k1 + k2)%nat. rewrite He2, He1, repeat_app. now rewrite app_assoc.
Qed.

Lemma settled_print_stderr st :
  settled st (print_stderr st No_audio_player_found).
Proof.
  unfold settled, print_stderr. simpl.
  do 2 (split; [reflexivity|]).
  split; [exists []; now rewrite app_nil_r|].
  split; [now exists 1%nat | auto].
Qed.

(** The child [pid] was started with the arguments [a]. *)
Lemma args_set_status w pid s q :
  Playback.args <$> (Playback.procs (Playback.set_status w pid s) !! q)
  = Playback.args <$> (Playback.procs w !! q).
Proof.
  unfold Playback.set_status. simpl.
  destruct (decide (pid = q)) as [->|Hne].
  - rewrite lookup_alter_eq. now destruct (Playback.procs w !! q).
  - now rewrite lookup_alter_ne.
Qed.

Lemma frame_set_status w pid s q :
  q <> pid ->
  Playback.procs (Playback.set_status w pid s) !! q = Playback.procs w !! q.
Proof. intros Hne. unfold Playback.set_status. simpl. now rewrite lookup_alter_ne. Qed.

Lemma args_terminate_or_kill h w pid q :
  Playback.args <$> (Playback.procs (Playback.terminate_or_kill h w pid) !! q)
  = Playback.args <$> (Playback.procs w !! q).
Proof.
  unfold Playback.terminate_or_kill.
  destruct (Playback.obeys_sigterm h pid); apply args_set_status.
Qed.

Lemma frame_terminate_or_kill h w pid q :
  q <> pid ->
  Playback.procs (Playback.terminate_or_kill h w pid) !! q
  = Playback.procs w !! q.
Proof.
  intros Hne. unfold Playback.terminate_or_kill.
  destruct (Playback.obeys_sigterm h pid); now apply frame_set_status.
Qed.

Lemma next_pid_terminate_or_kill h w pid :
  Playback.next_pid (Playback.terminate_or_kill h w pid) = Playback.next_pid w.
Proof.
  unfold Playback.terminate_or_kill.
  now destruct (Playback.obeys_sigterm h pid).
Qed.

Lemma during_world pid t s :
  Playback.next_pid (fst (during pid t s)) = Playback.next_pid (fst s)
  /\ (forall q, q <> pid ->
        Playback.procs (fst (during pid t s)) !! q
        = Playback.procs (fst s) !! q)
  /\ (forall q,
        Playback.args <$> (Playback.procs (fst (during pid t s)) !! q)
        = Playback.args <$> (Playback.procs (fst s) !! q)).
Proof.
  destruct s as [w st]. unfold during. cbn [fst].
  destruct (exits t) as [rc|]; [|repeat split].
  unfold Playback.child_exits.
  destruct (Playback.poll (Playback.advance w (slept t)) pid);
    [repeat split|].
  split; [reflexivity|]. split.
  - intros q Hq. now rewrite frame_set_status.
  - intros q. now rewrite args_set_status.
Qed.

Lemma during_state pid t s :
  request_queue (snd (during pid t s)) = request_queue (snd s)
  /\ stdout (snd (during pid t s)) = stdout (snd s)
  /\ stderr (snd (during pid t s)) = stderr (snd s)
  /\ current_process (snd (during pid t s)) = current_process (snd s)
  /\ ready_queue (snd (during pid t s)) = ready_queue (snd s) ++ arrivals t.
Proof. destruct s as [w st]. repeat split. Qed.

(** How a supervision that ends leaves the world and the state. *)
Lemma supervise_ends h check pid ticks : forall s,
  is_Some (Playback.procs (fst s) !! pid) ->
  match supervise h check pid ticks s with
  | Natural_exit s' | Interrupt s' =>
      Playback.next_pid (fst s') = Playback.next_pid (fst s)
      /\ (forall q, q <> pid ->
            Playback.procs (fst s') !! q = Playback.procs (fst s) !! q)
      /\ (forall q,
            Playback.args <$> (Playback.procs (fst s') !! q)
            = Playback.args <$> (Playback.procs (fst s) !! q))
      /\ Playback.poll (fst s') pid <> None
      /\ request_queue (snd s') = request_queue (snd s)
      /\ stdout (snd s') = stdout (snd s)
      /\ stderr (snd s') = stderr (snd s)
      /\ current_process (snd s') = current_process (snd s)
      /\ exists more, ready_queue (snd s') = ready_queue (snd s) ++ more
  | Still_playing _ => True
  end.
Proof.
  induction ticks as [|t rest IH]; intros s Hin; cbn [supervise].
  - destruct (Playback.poll (fst s) pid) eqn:Hpoll.
    + do 3 (split; [auto|]). split; [congruence|].
      do 4 (split; [reflexivity|]). exists []. now rewrite app_nil_r.
    + destruct (check && _); [|exact I]. cbn [fst snd].
      split; [apply next_pid_terminate_or_kill|].
      split; [intros q Hq; now apply frame_terminate_or_kill|].
      split; [intros q; apply args_terminate_or_kill|].
      split; [now apply SupervisionProps.poll_terminate_or_kill|].
      do 4 (split; [reflexivity|]). exists []. now rewrite app_nil_r.
  - destruct (Playback.poll (fst s) pid) eqn:Hpoll.
    + do 3 (split; [auto|]). split; [congruence|].
      do 4 (split; [reflexivity|]). exists []. now rewrite app_nil_r.
    + destruct (check && _).
      * cbn [fst snd].
        split; [apply next_pid_terminate_or_kill|].
        split; [intros q Hq; now apply frame_terminate_or_kill|].
        split; [intros q; apply args_terminate_or_kill|].
        split; [now apply SupervisionProps.poll_terminate_or_kill|].
        do 4 (split; [reflexivity|]). exists []. now rewrite app_nil_r.
      * specialize (IH (during pid t s)
                      (SupervisionProps.procs_during pid t s pid Hin)).
        destruct (during_world pid t s) as (Hn & Hf & Ha).
        destruct (during_state pid t s) as (Hq & Ho & He & Hc & Hr).
        destruct (supervise h check pid rest (during pid t s))
          as [s'|s'|s']; [| |exact I];
          destruct IH as (Hn' & Hf' & Ha' & Hp' & Hq' & Ho' & He' & Hc' & [m Hr']);
          (split; [congruence|]);
          (split; [intros q Hne; rewrite Hf' by assumption; now apply Hf|]);
          (split; [intros q; rewrite Ha'; apply Ha|]);
          (split; [assumption|]);
          (do 4 (split; [congruence|]));
          exists (arrivals t ++ m); rewrite Hr', Hr; now rewrite app_assoc.
Qed.

(** What a call of [play_audio_file] that has ended did. *)
Lemma play_audio_file_effect h w st f md check ticks r w' st' :
  play_audio_file h (w, st) f md check ticks = (r, (w', st')) ->
  match r with
  | Ok None => True
  | Exn e =>
      e = "OSError"%string /\ w' = w /\ st' = st
      /\ exists player, get_audio_player h = Some player
                        /\ Playback.can_spawn h (player ++ [f]) = false
  | Ok (Some b) =>
      match get_audio_player h with
      | None =>
          b = false /\ w' = w /\ st' = print_stderr st No_audio_player_found
      | Some player =>
          Playback.can_spawn h (player ++ [f]) = true
          /\ Playback.next_pid w' = S (Playback.next_pid w)
          /\ (forall q, q <> Playback.next_pid w ->
                Playback.procs w' !! q = Playback.procs w !! q)
          /\ Playback.args <$> (Playback.procs w' !! Playback.next_pid w)
             = Some (player ++ [f])
          /\ Playback.poll w' (Playback.next_pid w) <> None
          /\ current_process st' = None
          /\ request_queue st' = request_queue st
          /\ stdout st' = stdout st
          /\ stderr st' = stderr st
          /\ exists more, ready_queue st' = ready_queue st ++ more
      end
  end.
Proof.
  unfold play_audio_file.
  destruct (get_audio_player h) as [player|].
  2:{ intros [= <- <- <-]. auto. }
  unfold Playback.Popen.
  destruct (Playback.can_spawn h (player ++ [f])) eqn:Hspawn.
  2:{ intros [= <- <- <-]. eauto 10. }
  set (pid := Playback.next_pid w).
  set (w1 := {| Playback.procs := _ |}).
  set (st1 := set_current_process st (Some pid)).
  assert (is_Some (Playback.procs (fst (w1, st1)) !! pid)) as Hin
    by (simpl; rewrite lookup_insert_eq; eauto).
  assert (forall q, q <> pid -> Playback.procs w1 !! q = Playback.procs w !! q)
    as Hframe by (intros q Hq; simpl; now rewrite lookup_insert_ne).
  assert (Playback.args <$> (Playback.procs w1 !! pid) = Some (player ++ [f]))
    as Hargs by (simpl; now rewrite lookup_insert_eq).
  destruct (match md with Some d => negb (d =? 0)%Z | None => false end).
  - destruct ticks as [|t rest]; [intros [= <- <- <-]; exact I|].
    destruct (during_world pid t (w1, st1)) as (Hn & Hf & Ha).
    destruct (during_state pid t (w1, st1)) as (Hq & Ho & He & Hc & Hr).
    pose proof (SupervisionProps.procs_during pid t (w1, st1) pid Hin) as Hin2.
    destruct (during pid t (w1, st1)) as [w2 st2]. cbn [fst snd] in *.
    intros [= <- <- <-].
    split; [reflexivity|].
    destruct (Playback.poll w2 pid) eqn:Hpoll.
    + split; [exact Hn|]. split; [intros q Hne; rewrite Hf; auto|].
      split; [now rewrite Ha|]. split; [congruence|].
      split; [reflexivity|]. do 3 (split; [assumption|]).
      exists (arrivals t). exact Hr.
    + split; [now rewrite next_pid_terminate_or_kill|].
      split; [intros q Hne; rewrite frame_terminate_or_kill, Hf; auto|].
      split; [now rewrite args_terminate_or_kill, Ha|].
      split; [now apply SupervisionProps.poll_terminate_or_kill|].
      split; [reflexivity|]. do 3 (split; [assumption|]).
      exists (arrivals t). exact Hr.
  - pose proof (supervise_ends h check pid ticks (w1, st1) Hin) as Hsup.
    destruct (supervise h check pid ticks (w1, st1))
      as [[w2 st2]|[w2 st2]|s2]; [| |intros [= <- _]; exact I];
      cbn [fst snd] in Hsup;
      destruct Hsup as (Hn & Hf & Ha & Hp & Hq & Ho & He & Hc & Hr);
      intros [= <- <- <-];
      (split; [reflexivity|]);
      (split; [exact Hn|]);
      (split; [intros q Hne; rewrite Hf; auto|]);
      (split; [now rewrite Ha|]);
      (split; [assumption|]);
      (split; [reflexivity|]);
      (do 3 (split; [assumption|]));
      exact Hr.
Qed.




(** *** [cancel_current_audio] *)


(** *** Temporary files of the playback side *)

Lemma save_audio_same :
  ServerPlayback.save_audio = SoundFiles.save_audio.
Proof. reflexivity. Qed.

Lemma save_audio_cases d t audio sr :
  match save_audio d t audio sr with
  | (Ok p, d') =>
      d !! p = None /\ write_error t = None
      /\ d' = <[p := Some (audio, sr)]> d
  | (Exn e, d') =>
      (d' = d /\ ~ has_free_name d t)
      \/ (exists p, d !! p = None /\ write_error t = Some e
                    /\ d' = <[p := None]> d)
  end.
Proof.
  rewrite save_audio_same.
  destruct (SoundFiles.save_audio d t audio sr) as [[p|e] d'] eqn:E.
  - apply SoundFilesProps.save_audio_Ok in E as (Hp & _ & Hw & ->). auto.
  - apply SoundFilesProps.save_audio_Exn in E
      as [(_ & -> & Hall)|(p & Hp & _ & Hw & ->)].
    + left. split; [reflexivity|]. intros (name & Hin & Hfree).
      apply Hall in Hin. rewrite Hfree in Hin. destruct Hin; discriminate.
    + right. eauto.
Qed.

Lemma save_audio_succeeds d t audio sr :
  write_error t = None -> has_free_name d t ->
  exists p, d !! p = None
            /\ save_audio d t audio sr = (Ok p, <[p := Some (audio, sr)]> d).
Proof.
  intros Hw (name & Hin & Hfree). rewrite save_audio_same.
  destruct (SoundFilesProps.save_audio_writes d t audio sr name Hw Hin Hfree)
    as (q & Hq & _ & Hs).
  eauto.
Qed.

Lemma frame_insert_fresh (d : disk) p (x : option wav) q :
  d !! p = None -> is_Some (d !! q) -> <[p := x]> d !! q = d !! q.
Proof.
  intros Hp [y Hq]. apply lookup_insert_ne. congruence.
Qed.

Lemma frame_unlink deletable (d : disk) p q :
  q <> p -> snd (unlink deletable d p) !! q = d !! q.
Proof.
  intros Hne. unfold unlink. destruct (d !! p); [|reflexivity].
  destruct (deletable p); [|reflexivity].
  simpl. apply lookup_delete_ne. congruence.
Qed.

Lemma frame_saved_unlinked deletable (d : disk) p (x : option wav) q :
  d !! p = None -> is_Some (d !! q) ->
  snd (unlink deletable (<[p := x]> d) p) !! q = d !! q.
Proof.
  intros Hp Hq.
  rewrite frame_unlink by (destruct Hq; congruence).
  now apply frame_insert_fresh.
Qed.

(** *** One call played, its file removed *)

Lemma orderly_refl s : orderly s s.
Proof. split; [apply reaped_refl|]. split; [apply settled_refl | auto]. Qed.

Lemma orderly_trans s1 s2 s3 : orderly s1 s2 -> orderly s2 s3 -> orderly s1 s3.
Proof.
  intros (Hr1 & Hs1 & Hf1) (Hr2 & Hs2 & Hf2).
  split; [eapply reaped_trans; eassumption|].
  split; [eapply settled_trans; eassumption|].
  intros q Hq. rewrite Hf2 by (rewrite Hf1; assumption). now apply Hf1.
Qed.

Lemma play_audio_file_settles h w st f md check ticks r w' st' :
  play_audio_file h (w, st) f md check ticks = (r, (w', st')) ->
  r <> Ok None ->
  reaped w w' /\ settled st st'.
Proof.
  intros Hplay Hr. apply play_audio_file_effect in Hplay.
  destruct r as [[b|]|e]; [| congruence |].
  - destruct (get_audio_player h) as [player|].
    + destruct Hplay as (_ & Hn & Hf & _ & Hp & Hc & Hq & Ho & He & Hm).
      split.
      * split; [lia|]. split.
        -- intros pid Hpid. apply Hf. lia.
        -- intros pid Hpid. replace pid with (Playback.next_pid w) by lia.
           exact Hp.
      * split; [assumption|]. split; [assumption|]. split; [assumption|].
        split; [exists 0%nat; rewrite He; now rewrite app_nil_r | auto].
    + destruct Hplay as (_ & -> & ->).
      split; [apply reaped_refl | apply settled_print_stderr].
  - destruct Hplay as (_ & -> & -> & _).
    split; [apply reaped_refl | apply settled_refl].
Qed.

Lemma play_audio_file_snippet_ends h w st f d check t rest :
  d <> 0%Z ->
  fst (play_audio_file h (w, st) f (Some d) check (t :: rest)) <> Ok None.
Proof.
  intros Hd. unfold play_audio_file.
  destruct (get_audio_player h) as [player|]; [|discriminate].
  destruct (Playback.Popen h w (player ++ [f])) as [[pid w1]|]; [|discriminate].
  replace (negb (d =? 0)%Z) with true
    by (symmetry; apply negb_true_iff, Z.eqb_neq, Hd).
  destruct (during pid t _) as [w2 st2]. discriminate.
Qed.

Lemma play_audio_file_no_player h w st f md check ticks :
  get_audio_player h = None ->
  play_audio_file h (w, st) f md check ticks
  = (Ok (Some false), (w, print_stderr st No_audio_player_found)).
Proof. intros Hnone. unfold play_audio_file. now rewrite Hnone. Qed.


(** A file is saved, played with [play_audio_file], and removed: the
    step common to the three places where the worker plays a file. *)
Lemma played_and_removed h deletable s p x md check ticks r ws :
  files s !! p = None ->
  play_audio_file h (world s, server s) p md check ticks = (r, ws) ->
  r <> Ok None ->
  let s' := unlink_quietly deletable
              (with_playback (with_files s (<[p := x]> (files s))) ws) p in
  orderly s s'
  /\ printed s' = printed s
  /\ (deletable p = true -> files s' = files s).
Proof.
  intros Hp Hplay Hr s'. destruct ws as [w' st'].
  destruct (play_audio_file_settles _ _ _ _ _ _ _ _ _ _ Hplay Hr) as [Hre Hse].
  subst s'. unfold unlink_quietly, with_playback, with_files. cbn.
  split; [|split; [reflexivity|]].
  - split; [assumption|]. split; [assumption|].
    intros q Hq. cbn. now apply frame_saved_unlinked.
  - intros Hdel. now apply SoundFilesProps.unlink_saved.
Qed.

Lemma orderly_with_files s d :
  (forall q, is_Some (files s !! q) -> d !! q = files s !! q) ->
  orderly s (with_files s d).
Proof.
  intros Hf. split; [apply reaped_refl|]. split; [apply settled_refl|].
  exact Hf.
Qed.

Lemma orderly_print s l : orderly s (print s l).
Proof. split; [apply reaped_refl|]. split; [apply settled_refl | auto]. Qed.

Lemma orderly_arrive s batches : orderly s (arrive s batches).
Proof.
  split.
  { unfold reaped, arrive. cbn. split; [lia|].
    split; [auto | intros pid; lia]. }
  split; [|auto].
  unfold settled, arrive. cbn.
  do 2 (split; [reflexivity|]). split; [eauto|].
  split; [exists 0%nat; now rewrite app_nil_r | auto].
Qed.

(** What a failed [save_audio] leaves. *)
Lemma save_audio_failed_orderly s t audio sr e d' :
  save_audio (files s) t audio sr = (Exn e, d') ->
  orderly s (with_files s d')
  /\ (write_error t = None -> d' = files s).
Proof.
  intros Hsave. pose proof (save_audio_cases (files s) t audio sr) as Hc.
  rewrite Hsave in Hc.
  destruct Hc as [[-> _]|(p & Hp & Hw & ->)].
  - split; [apply orderly_with_files; auto | auto].
  - split; [|congruence].
    apply orderly_with_files. intros q Hq. now apply frame_insert_fresh.
Qed.

(** *** [play_transition_sound] *)

Lemma play_transition_sound_cases h deletable s t n :
  let (r, s') := play_transition_sound h deletable s t n in
  r <> Pending
  /\ orderly s s'
  /\ printed s' = printed s
  /\ (write_error t = None -> (forall p, deletable p = true) ->
      files s' = files s).
Proof.
  unfold play_transition_sound.
  destruct (TransitionSound.generate_transition_sound 24000) as [chime|e].
  2:{ split; [discriminate|]. split; [apply orderly_refl | auto]. }
  pose proof (save_audio_cases (files s) t (Sounds.samples chime) 24000) as Hc.
  destruct (save_audio (files s) t (Sounds.samples chime) 24000)
    as [[p|e] d'] eqn:Hsave.
  - destruct Hc as (Hp & Hw & ->).
    pose proof (play_audio_file_snippet_ends h (world s) (server s) p 200
                  false (sleeping (PLAYER_STARTUP_DELAY + 200) n) []
                  ltac:(discriminate)) as Hends.
    cbn [world server with_files].
    destruct (play_audio_file h (world s, server s) p (Some 200%Z) false _)
      as [r ws] eqn:Hplay.
    cbn [fst] in Hends.
    destruct (played_and_removed h deletable s p
                (Some (Sounds.samples chime, 24000%Z)) _ _ _ r ws Hp Hplay Hends)
      as (Ho & Hpr & Hf).
    destruct r as [[b|]|e]; [| congruence |].
    + split; [discriminate|]. split; [assumption|]. split; [assumption|].
      intros _ Hdel. apply Hf, Hdel.
    + split; [discriminate|]. split; [assumption|]. split; [assumption|].
      intros _ Hdel. apply Hf, Hdel.
  - destruct (save_audio_failed_orderly s t _ _ e d' Hsave) as [Ho Hf].
    split; [discriminate|]. split; [assumption|]. split; [reflexivity|].
    intros Hw _. cbn. now apply Hf.
Qed.




(** *** The turns of the playback worker *)

Lemma play_snippets_cases h deletable env : forall items s i total,
  let (r, s') := play_snippets h deletable s i total items env in
  match r with
  | Pending => True
  | _ =>
      orderly s s'
      /\ ((forall j, write_error (snippet_tmp (env j)) = None
                     /\ write_error (chime_tmp (env j)) = None) ->
          (forall p, deletable p = true) -> files s' = files s)
  end.
Proof.
  induction items as [|[text audio] rest IH]; intros s i total.
  - cbn [play_snippets]. split; [apply orderly_refl | auto].
  - cbn [play_snippets].
    set (s1 := print s (Snippet (i + 1) total (slice_to text 50))).
    assert (orderly s s1) as H01 by apply orderly_print.
    pose proof (save_audio_cases (files s1) (snippet_tmp (env i)) audio 24000)
      as Hc.
    destruct (save_audio (files s1) (snippet_tmp (env i)) audio 24000)
      as [[p|e] d'] eqn:Hsave.
    + destruct Hc as (Hp & Hw & ->).
      cbn [world server with_files].
      destruct (play_audio_file h (world s1, server s1) p
                  (Some SNIPPET_DURATION) false _) as [r ws] eqn:Hplay.
      destruct r as [[b|]|e]; [| exact I |].
      * destruct (played_and_removed h deletable s1 p (Some (audio, 24000%Z))
                    _ _ _ _ ws Hp Hplay ltac:(discriminate))
          as (H12 & _ & Hf2).
        set (s2 := unlink_quietly deletable _ p) in *.
        pose proof (play_transition_sound_cases h deletable s2
                      (chime_tmp (env i)) (chime_nap (env i))) as Ht.
        destruct (play_transition_sound h deletable s2 (chime_tmp (env i))
                    (chime_nap (env i))) as [r3 s3].
        destruct Ht as (Hr3 & H23 & _ & Hf3).
        destruct r3 as [[]|e|]; [| |congruence].
        -- specialize (IH (arrive s3 (pause_brings (env i))) (S i) total).
           destruct (play_snippets h deletable
                       (arrive s3 (pause_brings (env i))) (S i) total rest env)
             as [r4 s4].
           assert (orderly s (arrive s3 (pause_brings (env i)))) as H04.
           { eapply orderly_trans; [exact H01|].
             eapply orderly_trans; [exact H12|].
             eapply orderly_trans; [exact H23|]. apply orderly_arrive. }
           destruct r4 as [[]|e|]; [| |exact I];
             destruct IH as [H45 Hf5];
             (split; [eapply orderly_trans; [exact H04 | exact H45]|]);
             intros Hall Hdel;
             exact (eq_trans (Hf5 Hall Hdel)
                      (eq_trans (Hf3 (proj2 (Hall i)) Hdel) (Hf2 (Hdel p)))).
        -- split.
           ++ eapply orderly_trans; [exact H01|].
              eapply orderly_trans; [exact H12 | exact H23].
           ++ intros Hall Hdel.
              exact (eq_trans (Hf3 (proj2 (Hall i)) Hdel) (Hf2 (Hdel p))).
      * destruct (played_and_removed h deletable s1 p (Some (audio, 24000%Z))
                    _ _ _ _ ws Hp Hplay ltac:(discriminate))
          as (H12 & _ & Hf2).
        split; [eapply orderly_trans; [exact H01 | exact H12]|].
        intros _ Hdel. exact (Hf2 (Hdel p)).
    + destruct (save_audio_failed_orderly s1 _ _ _ e d' Hsave) as [Ho Hf].
      split; [eapply orderly_trans; [exact H01 | exact Ho]|].
      intros Hall _. exact (Hf (proj1 (Hall i))).
Qed.

Lemma play_last_cases h deletable s batch fin :
  let (r, s') := play_last h deletable s batch fin in
  match r with
  | Pending => True
  | _ =>
      orderly s s'
      /\ (write_error (final_tmp fin) = None ->
          write_error (interrupt_tmp fin) = None ->
          (forall p, deletable p = true) -> files s' = files s)
  end.
Proof.
  unfold play_last. destruct (last batch) as [[text audio]|].
  2:{ split; [apply orderly_refl | auto]. }
  set (s1 := print s (Playing _)).
  assert (orderly s s1) as H01 by apply orderly_print.
  pose proof (save_audio_cases (files s1) (final_tmp fin) audio 24000) as Hc.
  destruct (save_audio (files s1) (final_tmp fin) audio 24000)
    as [[p|e] d'] eqn:Hsave.
  - destruct Hc as (Hp & Hw & ->).
    cbn [world server with_files].
    destruct (play_audio_file h (world s1, server s1) p None true _)
      as [r ws] eqn:Hplay.
    destruct r as [[[|]|]|e]; [| | exact I |].
    + (* interrupted *)
      destruct (played_and_removed h deletable s1 p (Some (audio, 24000%Z))
                  _ _ _ _ ws Hp Hplay ltac:(discriminate))
        as (H12 & _ & _).
      destruct H12 as (Hre & Hse & _).
      set (s2 := print (with_playback _ ws) Interrupted_new_audio_ready).
      assert (orderly s1 s2) as H12.
      { split; [exact Hre|]. split; [exact Hse|].
        intros q Hq. subst s2. cbn. now apply frame_insert_fresh. }
      pose proof (play_transition_sound_cases h deletable s2
                    (interrupt_tmp fin) (interrupt_nap fin)) as Ht.
      destruct (play_transition_sound h deletable s2 (interrupt_tmp fin)
                  (interrupt_nap fin)) as [r3 s3].
      destruct Ht as (Hr3 & H23 & _ & Hf3).
      assert (orderly s1 (unlink_quietly deletable s3 p)
              /\ (write_error (interrupt_tmp fin) = None ->
                  (forall p, deletable p = true) ->
                  files (unlink_quietly deletable s3 p) = files s1)) as [H13 Hf].
      { split.
        - destruct H23 as (Hre3 & Hse3 & Hfr3).
          split; [eapply reaped_trans; [exact Hre | exact Hre3]|].
          split; [eapply settled_trans; [exact Hse | exact Hse3]|].
          intros q Hq. unfold unlink_quietly. cbn [with_files files].
          rewrite frame_unlink by (destruct Hq; congruence).
          rewrite Hfr3.
          + subst s2. cbn. now apply frame_insert_fresh.
          + subst s2. cbn. rewrite frame_insert_fresh by assumption.
            exact Hq.
        - intros Hw2 Hdel. unfold unlink_quietly. cbn [with_files files].
          rewrite Hf3 by assumption. subst s2. cbn.
          now apply SoundFilesProps.unlink_saved. }
      destruct r3 as [[]|e|]; [| |congruence];
        (split; [eapply orderly_trans; [exact H01 | exact H13]|]);
        intros _ Hw2 Hdel; exact (Hf Hw2 Hdel).
    + destruct (played_and_removed h deletable s1 p (Some (audio, 24000%Z))
                  _ _ _ _ ws Hp Hplay ltac:(discriminate))
        as (H12 & _ & Hf2).
      split; [eapply orderly_trans; [exact H01 | exact H12]|].
      intros _ _ Hdel. exact (Hf2 (Hdel p)).
    + destruct (played_and_removed h deletable s1 p (Some (audio, 24000%Z))
                  _ _ _ _ ws Hp Hplay ltac:(discriminate))
        as (H12 & _ & Hf2).
      split; [eapply orderly_trans; [exact H01 | exact H12]|].
      intros _ _ Hdel. exact (Hf2 (Hdel p)).
  - destruct (save_audio_failed_orderly s1 _ _ _ e d' Hsave) as [Ho Hf].
    split; [eapply orderly_trans; [exact H01 | exact Ho]|].
    intros Hw _ _. exact (Hf Hw).
Qed.

Lemma playback_turn_cases h deletable s env fin :
  let (r, s') := playback_turn h deletable s env fin in
  match r with
  | Returned _ =>
      orderly (take_ready s (tl (ready_queue (server s)))) s'
      /\ (writable env fin -> (forall p, deletable p = true) ->
          files s' = files s)
  | Raised _ => False
  | Pending => True
  end.
Proof.
  unfold playback_turn.
  destruct (ready_queue (server s)) as [|batch waiting] eqn:Hq.
  { split; [|auto]. cbn [tl].
    replace (take_ready s []) with s; [apply orderly_refl|].
    destruct s as [w [rq rdy cur out err] d pr]. cbn in Hq. subst rdy.
    reflexivity. }
  cbn [tl]. set (s0 := take_ready s waiting).
  assert (files s0 = files s) as Hf0 by reflexivity.
  assert (forall (r1 : reply unit) (s1 : sys),
            match r1 with
            | Pending => True
            | _ => orderly s0 s1
                   /\ (writable env fin -> (forall p, deletable p = true) ->
                       files s1 = files s)
            end ->
            let (r, s') :=
              match (match r1 with
                     | Returned _ => play_last h deletable s1 batch fin
                     | Raised e => (Raised e, s1)
                     | Pending => (Pending, s1)
                     end) with
              | (Raised e, s2) =>
                  (Returned tt, print s2 (Playback_worker_error e))
              | (r, s2) => (r, s2)
              end in
            match r with
            | Returned _ =>
                orderly s0 s'
                /\ (writable env fin -> (forall p, deletable p = true) ->
                    files s' = files s)
            | Raised _ => False
            | Pending => True
            end) as Hrest.
  { intros r1 s1 H1. destruct r1 as [[]|e|].
    - destruct H1 as [H01 Hf1].
      pose proof (play_last_cases h deletable s1 batch fin) as Hl.
      destruct (play_last h deletable s1 batch fin) as [r2 s2].
      destruct r2 as [[]|e|]; [| |exact I]; destruct Hl as [H12 Hf2].
      + split; [eapply orderly_trans; [exact H01 | exact H12]|].
        intros Hw Hdel.
        exact (eq_trans (Hf2 (proj1 (proj2 Hw)) (proj2 (proj2 Hw)) Hdel)
                 (Hf1 Hw Hdel)).
      + split.
        * eapply orderly_trans; [exact H01|].
          eapply orderly_trans; [exact H12 | apply orderly_print].
        * intros Hw Hdel.
          exact (eq_trans (Hf2 (proj1 (proj2 Hw)) (proj2 (proj2 Hw)) Hdel)
                   (Hf1 Hw Hdel)).
    - destruct H1 as [H01 Hf1]. split.
      + eapply orderly_trans; [exact H01 | apply orderly_print].
      + intros Hw Hdel. exact (Hf1 Hw Hdel).
    - exact I. }
  destruct (1 <? length batch)%nat.
  - pose proof (play_snippets_cases h deletable env (removelast batch) s0 0
                  (length batch - 1)) as Hs.
    destruct (play_snippets h deletable s0 0 (length batch - 1)
                (removelast batch) env) as [r1 s1].
    apply Hrest.
    destruct r1 as [[]|e|]; [| |exact I]; destruct Hs as [H01 Hf1];
      (split; [assumption|]); intros Hw Hdel;
      exact (Hf1 (proj1 Hw) Hdel).
  - apply (Hrest (Returned tt) s0). split; [apply orderly_refl | auto].
Qed.

(** Whenever a turn of the playback worker ends, it ends by returning:
    an exception raised while the batch is played never leaves the
    turn.  Every child started during the turn has exited and no other
    process has been touched; no file that existed has been touched;
    the request queue and stdout of the generation side are as they
    were, and no child is recorded as playing if none was at the
    start. *)
Lemma playback_turn_orderly (h : Playback.host)
    (deletable : string -> bool) (s : sys) (env : nat -> snippet_env)
    (fin : final_env) :
  let (r, s') := playback_turn h deletable s env fin in
  match r with
  | Returned _ =>
      reaped (world s) (world s')
      /\ (forall q, is_Some (files s !! q) -> files s' !! q = files s !! q)
      /\ request_queue (server s') = request_queue (server s)
      /\ stdout (server s') = stdout (server s)
      /\ (exists more,
            ready_queue (server s') = tl (ready_queue (server s)) ++ more)
      /\ (current_process (server s) = None ->
          current_process (server s') = None)
  | Raised _ => False
  | Pending => True
  end.
Proof.
  pose proof (playback_turn_cases h deletable s env fin) as H.
  destruct (playback_turn h deletable s env fin) as [r s'].
  destruct r as [[]|e|]; [|assumption|exact I].
  destruct H as [(Hre & (Hq & Ho & Hr & _ & Hc) & Hf) _].
  cbn in Hre, Hq, Ho, Hr, Hc, Hf. auto 10.
Qed.

(** When the temporary files can be written and removed, a turn of the
    playback worker that ends leaves the disk as it found it: every
    file it saved has been removed, whether the file was played, the
    player was missing, or the launch failed. *)
Lemma playback_turn_files (h : Playback.host)
    (deletable : string -> bool) (s : sys) (env : nat -> snippet_env)
    (fin : final_env) :
  writable env fin -> (forall p, deletable p = true) ->
  let (r, s') := playback_turn h deletable s env fin in
  match r with
  | Pending => True
  | _ => files s' = files s
  end.
Proof.
  intros Hw Hdel.
  pose proof (playback_turn_cases h deletable s env fin) as H.
  destruct (playback_turn h deletable s env fin) as [r s'].
  destruct r as [[]|e|]; [|contradiction|exact I].
  destruct H as [_ Hf]. now apply Hf.
Qed.


Lemma playback_worker_cases h deletable turns : forall s,
  let (r, s') := playback_worker h deletable s turns in
  match r with
  | Returned _ =>
      (reaped (world s) (world s')
       /\ (forall q, is_Some (files s !! q) -> files s' !! q = files s !! q)
       /\ request_queue (server s') = request_queue (server s)
       /\ stdout (server s') = stdout (server s)
       /\ (current_process (server s) = None ->
           current_process (server s') = None))
      /\ (Forall (fun t => writable (snippets t) (final t)) turns ->
          (forall p, deletable p = true) -> files s' = files s)
  | Raised _ => False
  | Pending => True
  end.
Proof.
  induction turns as [|t rest IH]; intros s; cbn [playback_worker].
  - split; [|auto]. split; [apply reaped_refl | auto].
  - set (s0 := deliver s (put_before t)).
    pose proof (playback_turn_cases h deletable s0 (snippets t) (final t)) as Ht.
    destruct (playback_turn h deletable s0 (snippets t) (final t)) as [r1 s1].
    destruct r1 as [[]|e|]; [|assumption|exact I].
    destruct Ht as [(Hre & (Hq & Ho & _ & _ & Hc) & Hf) Hfiles].
    cbn in Hre, Hq, Ho, Hc, Hf.
    specialize (IH s1).
    destruct (playback_worker h deletable s1 rest) as [r2 s2].
    destruct r2 as [[]|e|]; [|assumption|exact I].
    destruct IH as [(Hre2 & Hf2 & Hq2 & Ho2 & Hc2) Hfiles2].
    split.
    + split; [eapply reaped_trans; [exact Hre | exact Hre2]|].
      split; [intros q Hx; rewrite Hf2 by (rewrite Hf; assumption);
              now apply Hf|].
      split; [congruence|]. split; [congruence | auto].
    + intros Hall Hdel. inversion Hall as [|? ? Hw Hrest]; subst.
      rewrite Hfiles2 by assumption. now apply Hfiles.
Qed.


(** When the temporary files can be written and removed, the playback
    worker leaves the disk as it found it after any number of turns:
    every file it saved has been removed, whether the file was played,
    the player was missing, or the launch failed. *)
Theorem playback_worker_removes_its_files (h : Playback.host)
    (deletable : string -> bool) (s : sys) (turns : list turn_env) :
  Forall (fun t => writable (snippets t) (final t)) turns ->
  (forall p, deletable p = true) ->
  let (r, s') := playback_worker h deletable s turns in
  match r with
  | Pending => True
  | _ => files s' = files s
  end.
Proof.
  intros Hw Hdel.
  pose proof (playback_worker_cases h deletable turns s) as H.
  destruct (playback_worker h deletable s turns) as [r s'].
  destruct r as [[]|e|]; [|contradiction|exact I].
  now apply (proj2 H).
Qed.

Lemma playback_worker_removes_its_files_witness :
  let (r, s') := playback_worker Samples.pulse_linux (fun _ => true)
                   Fixtures.two_ready Fixtures.two_turns in
  match r with
  | Pending => True
  | _ => files s' = files Fixtures.two_ready
  end.
Proof.
  apply (playback_worker_removes_its_files Samples.pulse_linux
           (fun _ => true) Fixtures.two_ready Fixtures.two_turns).
  - repeat constructor.
  - reflexivity.
Defined.

(** *** A host without a player *)

Lemma play_transition_sound_no_player h deletable s t n :
  get_audio_player h = None ->
  write_error t = None -> has_free_name (files s) t ->
  (forall p, deletable p = true) ->
  play_transition_sound h deletable s t n
  = (Returned tt,
     {| world := world s;
        server := print_stderr (server s) No_audio_player_found;
        files := files s;
        printed := printed s |}).
Proof.
  intros Hnone Hw Hfree Hdel. unfold play_transition_sound.
  destruct TransitionSoundProps.transition_sound_24k as (chime & -> & _).
  destruct (save_audio_succeeds (files s) t (Sounds.samples chime) 24000
              Hw Hfree) as (p & Hp & ->).
  cbn [world server with_files]. rewrite play_audio_file_no_player by assumption.
  unfold unlink_quietly, with_playback, with_files. cbn.
  rewrite SoundFilesProps.unlink_saved by auto. reflexivity.
Qed.

Lemma play_snippets_no_player h deletable env d0 total :
  get_audio_player h = None ->
  (forall p, deletable p = true) ->
  (forall j, write_error (snippet_tmp (env j)) = None
             /\ write_error (chime_tmp (env j)) = None
             /\ has_free_name d0 (snippet_tmp (env j))
             /\ has_free_name d0 (chime_tmp (env j))) ->
  forall items s i, files s = d0 ->
  exists s',
    play_snippets h deletable s i total items env = (Returned tt, s')
    /\ Playback.procs (world s') = Playback.procs (world s)
    /\ Playback.next_pid (world s') = Playback.next_pid (world s)
    /\ files s' = files s
    /\ printed s' = printed s ++ snippet_lines i total items
    /\ stderr (server s')
       = stderr (server s)
         ++ repeat No_audio_player_found (2 * length items)
    /\ ready_queue (server s')
       = ready_queue (server s)
         ++ concat (map (fun j => pause_brings (env j))
                      (seq i (length items)))
    /\ request_queue (server s') = request_queue (server s)
    /\ stdout (server s') = stdout (server s)
    /\ current_process (server s') = current_process (server s).
Proof.
  intros Hnone Hdel Henv.
  induction items as [|[text audio] rest IH]; intros s i Hd.
  - exists s. cbn [play_snippets snippet_lines length seq map concat].
    rewrite !app_nil_r. repeat split.
  - destruct (Henv i) as (Hw1 & Hw2 & Hfree1 & Hfree2).
    cbn [play_snippets].
    set (s1 := print s (Snippet (i + 1) total (slice_to text 50))).
    destruct (save_audio_succeeds (files s1) (snippet_tmp (env i)) audio 24000
                Hw1 ltac:(cbn; now rewrite Hd)) as (p & Hp & ->).
    cbn [world server with_files].
    rewrite play_audio_file_no_player by assumption.
    set (s2 := unlink_quietly deletable _ p).
    assert (files s2 = d0) as Hd2.
    { subst s2. unfold unlink_quietly, with_playback, with_files. cbn.
      rewrite SoundFilesProps.unlink_saved by auto. exact Hd. }
    rewrite (play_transition_sound_no_player h deletable s2 _ _ Hnone Hw2)
      by (rewrite ?Hd2; auto).
    set (s3 := arrive _ (pause_brings (env i))).
    destruct (IH s3 (S i) Hd2) as (s' & -> & Hprocs & Hnext & Hf & Hpr & He
                                   & Hr & Hq & Ho & Hc).
    exists s'. split; [reflexivity|].
    split; [rewrite Hprocs; reflexivity|].
    split; [rewrite Hnext; reflexivity|].
    split; [transitivity d0; [rewrite Hf; exact Hd2 | now symmetry]|].
    split.
    { rewrite Hpr. cbn. now rewrite <- app_assoc. }
    split.
    { rewrite He. cbn.
      replace (length rest + S (length rest + 0))%nat
        with (S (2 * length rest)) by lia.
      cbn. rewrite <- !app_assoc. reflexivity. }
    split.
    { rewrite Hr. cbn. now rewrite <- app_assoc. }
    split; [rewrite Hq; reflexivity|].
    split; [rewrite Ho; reflexivity|]. rewrite Hc. reflexivity.
Qed.

Lemma play_last_no_player h deletable s batch fin text audio :
  get_audio_player h = None ->
  (forall p, deletable p = true) ->
  write_error (final_tmp fin) = None ->
  has_free_name (files s) (final_tmp fin) ->
  last batch = Some (text, audio) ->
  play_last h deletable s batch fin
  = (Returned tt,
     {| world := world s;
        server := print_stderr (server s) No_audio_player_found;
        files := files s;
        printed := printed s ++ [playing_line text] |}).
Proof.
  intros Hnone Hdel Hw Hfree Hlast. unfold play_last. rewrite Hlast.
  set (s1 := print s _).
  destruct (save_audio_succeeds (files s1) (final_tmp fin) audio 24000
              Hw Hfree) as (p & Hp & ->).
  cbn [world server with_files]. rewrite play_audio_file_no_player by assumption.
  unfold unlink_quietly, with_playback, with_files. cbn.
  rewrite SoundFilesProps.unlink_saved by auto. reflexivity.
Qed.

Lemma length_removelast {A} (l : list A) :
  length (removelast l) = (length l - 1)%nat.
Proof.
  induction l as [|a [|b l] IH]; [reflexivity | reflexivity|].
  cbn [removelast length] in *. rewrite IH. lia.
Qed.

(** On a host without a player a batch is taken from the ready queue,
    announced message by message and lost: nothing is played and no
    process is started.  The files are still written and removed, and
    [No audio player found] is printed once for every snippet, every
    chime and the last message. *)
Theorem turn_without_player_loses_the_batch (h : Playback.host)
    (deletable : string -> bool) (s : sys) (env : nat -> snippet_env)
    (fin : final_env) (batch : list (str * ndarray))
    (waiting : list (list (str * ndarray))) (text : str) (audio : ndarray) :
  get_audio_player h = None ->
  ready_queue (server s) = batch :: waiting ->
  last batch = Some (text, audio) ->
  writable env fin ->
  (forall p, deletable p = true) ->
  (forall j, has_free_name (files s) (snippet_tmp (env j))
             /\ has_free_name (files s) (chime_tmp (env j))) ->
  has_free_name (files s) (final_tmp fin) ->
  let (r, s') := playback_turn h deletable s env fin in
  r = Returned tt
  /\ printed s'
     = printed s
       ++ snippet_lines 0 (length batch - 1) (removelast batch)
       ++ [playing_line text]
  /\ stderr (server s')
     = stderr (server s)
       ++ repeat No_audio_player_found (2 * (length batch - 1) + 1)
  /\ Playback.procs (world s') = Playback.procs (world s)
  /\ Playback.next_pid (world s') = Playback.next_pid (world s)
  /\ files s' = files s
  /\ ready_queue (server s')
     = waiting ++ concat (map (fun j => pause_brings (env j))
                            (seq 0 (length batch - 1))).
Proof.
  intros Hnone Hq Hlast (Hwe & Hwf & _) Hdel Hfree Hfreef.
  unfold playback_turn. rewrite Hq.
  set (s0 := take_ready s waiting).
  assert (exists s1,
            (if (1 <? length batch)%nat
             then play_snippets h deletable s0 0 (length batch - 1)
                    (removelast batch) env
             else (Returned tt, s0)) = (Returned tt, s1)
            /\ Playback.procs (world s1) = Playback.procs (world s)
            /\ Playback.next_pid (world s1) = Playback.next_pid (world s)
            /\ files s1 = files s
            /\ printed s1
               = printed s
                 ++ snippet_lines 0 (length batch - 1) (removelast batch)
            /\ stderr (server s1)
               = stderr (server s)
                 ++ repeat No_audio_player_found (2 * (length batch - 1))
            /\ ready_queue (server s1)
               = waiting ++ concat (map (fun j => pause_brings (env j))
                                      (seq 0 (length batch - 1))))
    as (s1 & -> & Hprocs & Hnext & Hf & Hpr & He & Hr).
  { destruct (Nat.ltb_spec 1 (length batch)) as [Hlen|Hlen].
    - destruct (play_snippets_no_player h deletable env (files s)
                  (length batch - 1) Hnone Hdel
                  ltac:(intros j; destruct (Hwe j); destruct (Hfree j); auto)
                  (removelast batch) s0 0 eq_refl)
        as (s1 & Hs1 & Hprocs & Hnext & Hf & Hpr & He & Hr & _).
      rewrite length_removelast in He, Hr.
      exists s1. auto 10.
    - exists s0.
      destruct batch as [|item [|item2 rest]]; [discriminate| |simpl in Hlen; lia].
      cbn. rewrite !app_nil_r. auto 10. }
  rewrite (play_last_no_player h deletable s1 batch fin text audio Hnone Hdel
             Hwf ltac:(now rewrite Hf) Hlast).
  cbn. split; [reflexivity|].
  split; [rewrite Hpr; now rewrite <- app_assoc|].
  split.
  { rewrite He. rewrite <- app_assoc. f_equal.
    replace (2 * (length batch - 1) + 1)%nat
      with (2 * (length batch - 1) + 1)%nat by reflexivity.
    rewrite repeat_app. reflexivity. }
  auto.
Qed.

Lemma turn_without_player_loses_the_batch_witness :
  let (r, s') := playback_turn Samples.bare_linux (fun _ => true)
                   Fixtures.two_ready Fixtures.calm Fixtures.finale in
  r = Returned tt
  /\ printed s'
     = printed Fixtures.two_ready
       ++ snippet_lines 0
            (length [(lit "one", [R1]); (lit "two", [R1; R0])] - 1)
            (removelast [(lit "one", [R1]); (lit "two", [R1; R0])])
       ++ [playing_line (lit "two")]
  /\ stderr (server s')
     = stderr (server Fixtures.two_ready)
       ++ repeat No_audio_player_found
            (2 * (length [(lit "one", [R1]); (lit "two", [R1; R0])] - 1) + 1)
  /\ Playback.procs (world s') = Playback.procs (world Fixtures.two_ready)
  /\ Playback.next_pid (world s')
     = Playback.next_pid (world Fixtures.two_ready)
  /\ files s' = files Fixtures.two_ready
  /\ ready_queue (server s')
     = [] ++ concat (map (fun j => pause_brings (Fixtures.calm j))
                       (seq 0 (length [(lit "one", [R1]);
                                       (lit "two", [R1; R0])] - 1))).
Proof.
  apply (turn_without_player_loses_the_batch Samples.bare_linux
           (fun _ => true) Fixtures.two_ready Fixtures.calm Fixtures.finale
           [(lit "one", [R1]); (lit "two", [R1; R0])] [] (lit "two") [R1; R0]).
  - reflexivity.
  - reflexivity.
  - reflexivity.
  - split; [intros i; split; reflexivity|]. split; reflexivity.
  - reflexivity.
  - intros j. split; eexists; (split; [left; reflexivity | reflexivity]).
  - eexists. split; [left; reflexivity | reflexivity].
Defined.

(** *** A player that cannot be started *)




(** *** A player that starts *)

Lemma result_eq_dec_pending (r : result (option bool)) :
  {r = Ok None} + {r <> Ok None}.
Proof.
  destruct r as [[b|]|e]; [right; discriminate | now left | right; discriminate].
Qed.

(** A supervision during which the child exits does end. *)
Lemma supervise_child_exits h check pid ticks : forall s,
  is_Some (Playback.procs (fst s) !! pid) ->
  Exists (fun t => is_Some (exits t)) ticks ->
  forall s', supervise h check pid ticks s <> Still_playing s'.
Proof.
  induction ticks as [|t rest IH]; intros s Hin Hex s'.
  - inversion Hex.
  - cbn [supervise].
    destruct (Playback.poll (fst s) pid) eqn:Hpoll; [discriminate|].
    destruct (check && _); [discriminate|].
    pose proof (SupervisionProps.procs_during pid t s pid Hin) as Hin'.
    destruct (exits t) as [rc|] eqn:Hexit.
    + assert (Playback.poll (fst (during pid t s)) pid <> None) as Hp.
      { destruct s as [w st]. unfold during. cbn [fst]. rewrite Hexit.
        unfold Playback.child_exits.
        replace (Playback.poll (Playback.advance w (slept t)) pid)
          with (Playback.poll w pid) by reflexivity.
        cbn [fst] in Hpoll. rewrite Hpoll.
        destruct Hin as [x Hx]. cbn [fst] in Hx.
        unfold Playback.poll, Playback.set_status. cbn.
        rewrite lookup_alter_eq, Hx. discriminate. }
      destruct rest as [|t2 rest]; cbn [supervise];
        destruct (Playback.poll (fst (during pid t s)) pid);
        congruence.
    + apply IH; [assumption|].
      inversion Hex as [? ? [x Hx]|]; [congruence | assumption].
Qed.

Lemma interrupt_leaves_batch h w st f md check ticks w' st' :
  play_audio_file h (w, st) f md check ticks = (Ok (Some true), (w', st')) ->
  ready_queue st' <> [].
Proof.
  unfold play_audio_file.
  destruct (get_audio_player h) as [player|]; [|discriminate].
  destruct (Playback.Popen h w (player ++ [f])) as [[pid w1]|]; [|discriminate].
  destruct (match md with Some d => negb (d =? 0)%Z | None => false end).
  { destruct ticks as [|t rest]; [discriminate|].
    destruct (during pid t _) as [w2 st2]. discriminate. }
  destruct (supervise h check pid ticks _) as [[w2 st2]|[w2 st2]|s2] eqn:Hsup;
    try discriminate.
  intros [= <- <-].
  destruct (SupervisionProps.supervise_interrupt _ _ _ _ _ _ Hsup)
    as [_ (n & _ & _ & Hq & Hs)].
  injection Hs as -> ->. exact Hq.
Qed.

Lemma play_audio_file_launched h w st f md check ticks player r w' st' :
  get_audio_player h = Some player ->
  Playback.can_spawn h (player ++ [f]) = true ->
  play_audio_file h (w, st) f md check ticks = (r, (w', st')) ->
  r <> Ok None ->
  exists b, r = Ok (Some b)
            /\ Playback.next_pid w' = S (Playback.next_pid w)
            /\ (exists more, ready_queue st' = ready_queue st ++ more)
            /\ (b = true -> ready_queue st' <> []).
Proof.
  intros Hpl Hspawn Hplay Hr.
  pose proof (play_audio_file_effect _ _ _ _ _ _ _ _ _ _ Hplay) as He.
  destruct r as [[b|]|e]; [| congruence |].
  - rewrite Hpl in He.
    destruct He as (_ & Hn & _ & _ & _ & _ & _ & _ & _ & Hm).
    exists b. split; [reflexivity|]. split; [assumption|].
    split; [assumption|]. intros ->.
    eapply interrupt_leaves_batch, Hplay.
  - destruct He as (_ & _ & _ & player' & Hpl' & Hno). congruence.
Qed.

Lemma play_transition_sound_launched h deletable s t n player :
  get_audio_player h = Some player ->
  (forall a, Playback.can_spawn h a = true) ->
  (forall p, deletable p = true) ->
  write_error t = None -> has_free_name (files s) t ->
  exists s',
    play_transition_sound h deletable s t n = (Returned tt, s')
    /\ Playback.next_pid (world s') = S (Playback.next_pid (world s))
    /\ files s' = files s
    /\ printed s' = printed s
    /\ exists more, ready_queue (server s') = ready_queue (server s) ++ more.
Proof.
  intros Hpl Hspawn Hdel Hw Hfree. unfold play_transition_sound.
  destruct TransitionSoundProps.transition_sound_24k as (chime & -> & _).
  destruct (save_audio_succeeds (files s) t (Sounds.samples chime) 24000
              Hw Hfree) as (p & Hp & ->).
  cbn [world server with_files].
  pose proof (play_audio_file_snippet_ends h (world s) (server s) p 200
                false (sleeping (PLAYER_STARTUP_DELAY + 200) n) []
                ltac:(discriminate)) as Hends.
  destruct (play_audio_file h (world s, server s) p (Some 200%Z) false _)
    as [r [w' st']] eqn:Hplay.
  cbn [fst] in Hends.
  destruct (play_audio_file_launched _ _ _ _ _ _ _ _ _ _ _ Hpl (Hspawn _)
              Hplay Hends) as (b & -> & Hn & Hm & _).
  eexists. split; [reflexivity|].
  unfold unlink_quietly, with_playback, with_files. cbn.
  split; [assumption|]. split; [now apply SoundFilesProps.unlink_saved|].
  split; [reflexivity | assumption].
Qed.

Lemma play_snippets_launched h deletable env d0 total player :
  get_audio_player h = Some player ->
  (forall a, Playback.can_spawn h a = true) ->
  (forall p, deletable p = true) ->
  (forall j, write_error (snippet_tmp (env j)) = None
             /\ write_error (chime_tmp (env j)) = None
             /\ has_free_name d0 (snippet_tmp (env j))
             /\ has_free_name d0 (chime_tmp (env j))) ->
  forall items s i, files s = d0 ->
  exists s',
    play_snippets h deletable s i total items env = (Returned tt, s')
    /\ Playback.next_pid (world s')
       = (Playback.next_pid (world s) + 2 * length items)%nat
    /\ files s' = files s
    /\ printed s' = printed s ++ snippet_lines i total items.
Proof.
  intros Hpl Hspawn Hdel Henv.
  induction items as [|[text audio] rest IH]; intros s i Hd.
  - exists s. cbn [play_snippets snippet_lines length].
    rewrite app_nil_r. split; [reflexivity|]. split; [lia | auto].
  - destruct (Henv i) as (Hw1 & Hw2 & Hfree1 & Hfree2).
    cbn [play_snippets].
    set (s1 := print s (Snippet (i + 1) total (slice_to text 50))).
    destruct (save_audio_succeeds (files s1) (snippet_tmp (env i)) audio 24000
                Hw1 ltac:(cbn; now rewrite Hd)) as (p & Hp & ->).
    cbn [world server with_files].
    pose proof (play_audio_file_snippet_ends h (world s1) (server s1) p
                  SNIPPET_DURATION false
                  (sleeping (PLAYER_STARTUP_DELAY + SNIPPET_DURATION)
                     (snippet_nap (env i))) []
                  ltac:(discriminate)) as Hends.
    destruct (play_audio_file h (world s1, server s1) p
                (Some SNIPPET_DURATION) false _) as [r [w' st']] eqn:Hplay.
    cbn [fst] in Hends.
    destruct (play_audio_file_launched _ _ _ _ _ _ _ _ _ _ _ Hpl (Hspawn _)
                Hplay Hends) as (b & -> & Hn & _ & _).
    set (s2 := unlink_quietly deletable _ p).
    assert (files s2 = d0) as Hd2.
    { subst s2. unfold unlink_quietly, with_playback, with_files. cbn.
      rewrite SoundFilesProps.unlink_saved by auto. exact Hd. }
    destruct (play_transition_sound_launched h deletable s2
                (chime_tmp (env i)) (chime_nap (env i)) player Hpl Hspawn
                Hdel Hw2 ltac:(now rewrite Hd2))
      as (s3 & -> & Hn3 & Hf3 & Hp3 & _).
    destruct (IH (arrive s3 (pause_brings (env i))) (S i)
                ltac:(cbn; now rewrite Hf3))
      as (s' & -> & Hn' & Hf' & Hp').
    exists s'. split; [reflexivity|].
    split.
    { rewrite Hn'. cbn [arrive world Playback.advance Playback.next_pid].
      rewrite Hn3. subst s2. cbn. rewrite Hn. cbn. lia. }
    split.
    { rewrite Hf'. cbn [arrive files]. rewrite Hf3, Hd2. now symmetry. }
    rewrite Hp'. cbn [arrive printed]. rewrite Hp3. subst s2. cbn.
    now rewrite <- app_assoc.
Qed.

Lemma play_last_launched h deletable s batch fin text audio player :
  get_audio_player h = Some player ->
  (forall a, Playback.can_spawn h a = true) ->
  (forall p, deletable p = true) ->
  write_error (final_tmp fin) = None ->
  write_error (interrupt_tmp fin) = None ->
  has_free_name (files s) (final_tmp fin) ->
  (exists name, In name (candidates (interrupt_tmp fin))
                /\ files s !! name = None
                /\ ~ In name (candidates (final_tmp fin))) ->
  last batch = Some (text, audio) ->
  let (r, s') := play_last h deletable s batch fin in
  match r with
  | Pending => ~ Exists (fun n => is_Some (ends n)) (final_naps fin)
  | Raised _ => False
  | Returned _ =>
      files s' = files s
      /\ ((printed s' = printed s ++ [playing_line text]
           /\ Playback.next_pid (world s')
              = (Playback.next_pid (world s) + 1)%nat)
          \/ (printed s'
              = printed s ++ [playing_line text; Interrupted_new_audio_ready]
              /\ Playback.next_pid (world s')
                 = (Playback.next_pid (world s) + 2)%nat
              /\ ready_queue (server s') <> []))
  end.
Proof.
  intros Hpl Hspawn Hdel Hw Hwi Hfree (name & Hin & Hnone & Hnot) Hlast.
  unfold play_last. rewrite Hlast.
  set (s1 := print s (Playing _)).
  pose proof (SoundFilesProps.save_audio_Ok (files s1) (final_tmp fin) audio
                24000) as Hin_p.
  destruct (save_audio_succeeds (files s1) (final_tmp fin) audio 24000
              Hw Hfree) as (p & Hp & Hsave).
  rewrite save_audio_same in Hsave. specialize (Hin_p _ _ Hsave).
  destruct Hin_p as (_ & Hpin & _).
  rewrite <- save_audio_same in Hsave. rewrite Hsave.
  cbn [world server with_files].
  destruct (play_audio_file h (world s1, server s1) p None true _)
    as [r [w' st']] eqn:Hplay.
  destruct (result_eq_dec_pending r) as [->|Hr].
  { (* still playing: no sleep ends the child *)
    intros Hex. revert Hplay. unfold play_audio_file. rewrite Hpl.
    unfold Playback.Popen. rewrite Hspawn.
    set (pid := Playback.next_pid (world s1)).
    set (w1 := {| Playback.procs := _ |}).
    pose proof (supervise_child_exits h true pid
                  (map (sleeping POLL_INTERVAL) (final_naps fin))
                  (w1, set_current_process (server s1) (Some pid))
                  ltac:(cbn; rewrite lookup_insert_eq; eauto)) as Hsup.
    destruct (supervise h true pid _ _) as [[w2 st2]|[w2 st2]|s2] eqn:E;
      try discriminate.
    intros _. eapply Hsup; [|reflexivity].
    clear -Hex. induction Hex as [n rest Hn|n rest _ IH]; cbn [map];
      [left; exact Hn | right; exact IH]. }
  destruct (play_audio_file_launched _ _ _ _ _ _ _ _ _ _ _ Hpl (Hspawn _)
              Hplay Hr) as (b & -> & Hn & Hm & Hb).
  destruct b.
  - set (s2 := print (with_playback _ (w', st')) Interrupted_new_audio_ready).
    assert (has_free_name (files s2) (interrupt_tmp fin)) as Hfree2.
    { exists name. split; [assumption|]. subst s2. cbn.
      rewrite lookup_insert_ne by (intros ->; contradiction). exact Hnone. }
    destruct (play_transition_sound_launched h deletable s2
                (interrupt_tmp fin) (interrupt_nap fin) player Hpl Hspawn
                Hdel Hwi Hfree2)
      as (s3 & -> & Hn3 & Hf3 & Hp3 & [more Hm3]).
    split.
    { unfold unlink_quietly. cbn [with_files files]. rewrite Hf3.
      subst s2. cbn. now apply SoundFilesProps.unlink_saved. }
    right. unfold unlink_quietly. cbn [with_files printed world server].
    split; [rewrite Hp3; subst s2; cbn; now rewrite <- app_assoc|].
    split; [rewrite Hn3; subst s2; cbn; rewrite Hn; cbn; lia|].
    rewrite Hm3. subst s2. cbn. intros Hnil.
    apply app_eq_nil in Hnil as [Hnil _]. now apply Hb.
  - unfold unlink_quietly, with_playback, with_files. cbn.
    split; [now apply SoundFilesProps.unlink_saved|].
    left. split; [reflexivity|]. rewrite Hn. subst s1. cbn. lia.
Qed.

(** On a host where the player starts, with temporary files that can be
    written and removed, a turn that ends has announced every message
    of the batch, in order, and has started one player for each
    snippet, one for the chime after each snippet and one for the last
    message; when the last message was interrupted it has started one
    more, for the chime, and the batch that interrupted it is still on
    the ready queue.  The turn ends whenever the child of the last
    message exits, and it leaves the disk as it was. *)
Theorem turn_plays_every_message (h : Playback.host)
    (deletable : string -> bool) (s : sys) (env : nat -> snippet_env)
    (fin : final_env) (player : list string) (batch : list (str * ndarray))
    (waiting : list (list (str * ndarray))) (text : str) (audio : ndarray) :
  get_audio_player h = Some player ->
  (forall a, Playback.can_spawn h a = true) ->
  ready_queue (server s) = batch :: waiting ->
  last batch = Some (text, audio) ->
  writable env fin ->
  (forall p, deletable p = true) ->
  (forall j, has_free_name (files s) (snippet_tmp (env j))
             /\ has_free_name (files s) (chime_tmp (env j))) ->
  has_free_name (files s) (final_tmp fin) ->
  (exists name, In name (candidates (interrupt_tmp fin))
                /\ files s !! name = None
                /\ ~ In name (candidates (final_tmp fin))) ->
  let (r, s') := playback_turn h deletable s env fin in
  match r with
  | Pending => ~ Exists (fun n => is_Some (ends n)) (final_naps fin)
  | Raised _ => False
  | Returned _ =>
      files s' = files s
      /\ ((printed s'
           = printed s
             ++ snippet_lines 0 (length batch - 1) (removelast batch)
             ++ [playing_line text]
           /\ Playback.next_pid (world s')
              = (Playback.next_pid (world s)
                 + 2 * (length batch - 1) + 1)%nat)
          \/ (printed s'
              = printed s
                ++ snippet_lines 0 (length batch - 1) (removelast batch)
                ++ [playing_line text; Interrupted_new_audio_ready]
              /\ Playback.next_pid (world s')
                 = (Playback.next_pid (world s)
                    + 2 * (length batch - 1) + 2)%nat
              /\ ready_queue (server s') <> []))
  end.
Proof.
  intros Hpl Hspawn Hq Hlast (Hwe & Hwf & Hwi) Hdel Hfree Hfreef Hfreei.
  unfold playback_turn. rewrite Hq.
  set (s0 := take_ready s waiting).
  assert (exists s1,
            (if (1 <? length batch)%nat
             then play_snippets h deletable s0 0 (length batch - 1)
                    (removelast batch) env
             else (Returned tt, s0)) = (Returned tt, s1)
            /\ Playback.next_pid (world s1)
               = (Playback.next_pid (world s) + 2 * (length batch - 1))%nat
            /\ files s1 = files s
            /\ printed s1
               = printed s
                 ++ snippet_lines 0 (length batch - 1) (removelast batch))
    as (s1 & -> & Hn1 & Hf1 & Hp1).
  { destruct (Nat.ltb_spec 1 (length batch)) as [Hlen|Hlen].
    - destruct (play_snippets_launched h deletable env (files s)
                  (length batch - 1) player Hpl Hspawn Hdel
                  ltac:(intros j; destruct (Hwe j); destruct (Hfree j); auto)
                  (removelast batch) s0 0 eq_refl)
        as (s1 & Hs1 & Hn1 & Hf1 & Hp1).
      rewrite length_removelast in Hn1.
      exists s1. auto.
    - exists s0.
      destruct batch as [|item [|item2 rest]]; [discriminate| |simpl in Hlen; lia].
      cbn. rewrite !app_nil_r. split; [reflexivity|]. split; [lia | auto]. }
  pose proof (play_last_launched h deletable s1 batch fin text audio player
                Hpl Hspawn Hdel Hwf Hwi ltac:(now rewrite Hf1)
                ltac:(now rewrite Hf1) Hlast) as Hl.
  destruct (play_last h deletable s1 batch fin) as [r s'].
  destruct r as [[]|e|]; [|contradiction|exact Hl].
  destruct Hl as [Hf Hcases]. split; [congruence|].
  destruct Hcases as [[Hp Hn]|(Hp & Hn & Hr)]; [left|right].
  - split; [rewrite Hp, Hp1; now rewrite <- app_assoc | lia].
  - split; [rewrite Hp, Hp1; now rewrite <- app_assoc|].
    split; [lia | assumption].
Qed.

Lemma turn_plays_every_message_witness :
  let (r, s') := playback_turn Samples.pulse_linux (fun _ => true)
                   Fixtures.two_ready Fixtures.calm Fixtures.finale in
  match r with
  | Pending =>
      ~ Exists (fun n => is_Some (ends n)) (final_naps Fixtures.finale)
  | Raised _ => False
  | Returned _ =>
      files s' = files Fixtures.two_ready
      /\ ((printed s'
           = printed Fixtures.two_ready
             ++ snippet_lines 0
                  (length [(lit "one", [R1]); (lit "two", [R1; R0])] - 1)
                  (removelast [(lit "one", [R1]); (lit "two", [R1; R0])])
             ++ [playing_line (lit "two")]
           /\ Playback.next_pid (world s')
              = (Playback.next_pid (world Fixtures.two_ready)
                 + 2 * (length [(lit "one", [R1]);
                                (lit "two", [R1; R0])] - 1) + 1)%nat)
          \/ (printed s'
              = printed Fixtures.two_ready
                ++ snippet_lines 0
                     (length [(lit "one", [R1]); (lit "two", [R1; R0])] - 1)
                     (removelast [(lit "one", [R1]); (lit "two", [R1; R0])])
                ++ [playing_line (lit "two"); Interrupted_new_audio_ready]
              /\ Playback.next_pid (world s')
                 = (Playback.next_pid (world Fixtures.two_ready)
                    + 2 * (length [(lit "one", [R1]);
                                   (lit "two", [R1; R0])] - 1) + 2)%nat
              /\ ready_queue (server s') <> []))
  end.
Proof.
  apply (turn_plays_every_message Samples.pulse_linux (fun _ => true)
           Fixtures.two_ready Fixtures.calm Fixtures.finale
           ["paplay"%string] [(lit "one", [R1]); (lit "two", [R1; R0])] []
           (lit "two") [R1; R0]).
  - reflexivity.
  - reflexivity.
  - reflexivity.
  - reflexivity.
  - split; [intros i; split; reflexivity|]. split; reflexivity.
  - reflexivity.
  - intros j. split; eexists; (split; [left; reflexivity | reflexivity]).
  - eexists. split; [left; reflexivity | reflexivity].
  - exists "/tmp/chime.wav"%string.
    split; [left; reflexivity|]. split; [reflexivity|].
    simpl. intros [H|[]]. discriminate H.
Defined.

End ServerPlaybackProps.

(** ** kokoro-server.py: a ping followed by more bytes *)

Module IngressOrderProps.
Import Py Server.

Lemma read_loop_ping_prefix reads : forall data,
  bytes_strip data <> ping ->
  (exists k, bytes_strip (data ++ delivered (firstn k reads)) = ping) ->
  read_loop reads data = Ping.
Proof.
  induction reads as [|r rest IH]; intros data Hnot [k Hk].
  - rewrite firstn_nil in Hk. simpl in Hk. rewrite app_nil_r in Hk.
    contradiction.
  - destruct k as [|k].
    { simpl in Hk. rewrite app_nil_r in Hk. contradiction. }
    cbn [firstn] in Hk.
    destruct r as [[|b chunk]| |e]; cbn [delivered] in Hk;
      try (rewrite app_nil_r in Hk; contradiction).
    cbn [read_loop]. fold ping.
    destruct (bytes_eqb (bytes_strip (data ++ b :: chunk)) ping) eqn:E;
      [reflexivity|].
    apply IH.
    + now apply IngressProps.bytes_eqb_false.
    + exists k. now rewrite <- app_assoc.
Qed.

(** The handler answers as soon as the bytes accumulated after a read
    are a ping: [pong] is written, the connection is closed, and what
    the client sends after that is never read.  Nothing is queued and
    the state is as it was, even when all the bytes of the connection
    together are not a ping. *)
Theorem ping_is_answered_before_the_rest (st : state)
    (reads : list read_result) (now : Z) :
  (exists k, bytes_strip (delivered (firstn k reads)) = ping) ->
  handle_client st reads now = (pong_reply, st).
Proof.
  intros Hk. unfold handle_client.
  rewrite (read_loop_ping_prefix reads []); [reflexivity| |exact Hk].
  vm_compute. discriminate.
Qed.

Lemma ping_is_answered_before_the_rest_witness :
  handle_client Samples.busy
    [ReadBytes (blit "ping"); ReadBytes (blit " and more")] 7
  = (pong_reply, Samples.busy).
Proof.
  apply (ping_is_answered_before_the_rest Samples.busy
           [ReadBytes (blit "ping"); ReadBytes (blit " and more")] 7).
  exists 1%nat. vm_compute. reflexivity.
Defined.

(** The same bytes in one chunk are not a ping, and are queued. *)
Example ping_and_more_in_one_chunk :
  handle_client Samples.idle [ReadBytes (blit "ping and more")] 7
  = ([W_close; W_wait_closed],
     put_request Samples.idle (lit "ping and more", 7%Z)).
Proof. vm_compute. reflexivity. Qed.

End IngressOrderProps.

(** ** kokoro-server.py: what the generation worker puts on the ready queue *)

Module GenerationProps.
Import Py Server ServerNotions.

Lemma generate_requests_audio pl requests : forall call generated g calls,
  Forall (fun item : str * ndarray => snd item <> []) generated ->
  generate_requests pl call requests generated = (Ok g, calls) ->
  Forall (fun item : str * ndarray => snd item <> []) g.
Proof.
  induction requests as [|[text ts] rest IH]; intros call generated g calls Hg.
  - cbn [generate_requests]. now intros [= <- _].
  - cbn [generate_requests].
    destruct (generate_audio pl call text) as [audio|e]; [|discriminate].
    destruct (generate_requests pl (S call) rest _) as [r c] eqn:E.
    intros [= -> _]. eapply IH; [|exact E].
    destruct audio as [[|x a]|]; cbn; try assumption.
    apply Forall_app. split; [assumption|].
    constructor; [discriminate | constructor].
Qed.

Lemma generation_round_playable pl call st late :
  exists more,
    ready_queue (fst (generation_round pl call st late))
    = ready_queue st ++ more
    /\ playable more
    /\ (length more <= 1)%nat.
Proof.
  unfold generation_round.
  destruct (request_queue st) as [|first queued].
  { exists []. rewrite app_nil_r. split; [reflexivity|].
    split; [constructor | simpl; lia]. }
  destruct (generate_requests pl call (first :: queued ++ late) [])
    as [[[|item g]|e] calls] eqn:E; cbn [fst].
  - exists []. rewrite app_nil_r. split; [reflexivity|].
    split; [constructor | simpl; lia].
  - exists [item :: g]. split; [reflexivity|]. split; [|simpl; lia].
    constructor; [|constructor]. split; [discriminate|].
    eapply generate_requests_audio; [|exact E]. constructor.
  - exists []. rewrite app_nil_r. split; [reflexivity|].
    split; [constructor | simpl; lia].
Qed.

Lemma playable_app a b : playable a -> playable b -> playable (a ++ b).
Proof. intros Ha Hb. apply Forall_app. now split. Qed.

Lemma generation_worker_playable pl rounds : forall call st,
  exists more,
    ready_queue (fst (generation_worker pl call st rounds))
    = ready_queue st ++ more
    /\ playable more
    /\ (length more <= length rounds)%nat.
Proof.
  induction rounds as [|[early late] rest IH]; intros call st.
  - exists []. cbn. rewrite app_nil_r. split; [reflexivity|].
    split; [constructor | lia].
  - cbn [generation_worker].
    set (st1 := set_request_queue st (request_queue st ++ early)).
    destruct (generation_round_playable pl call st1 late)
      as (m1 & Hm1 & Hp1 & Hl1).
    destruct (generation_round pl call st1 late) as [st2 calls].
    cbn [fst] in Hm1.
    destruct (IH (call + length calls)%nat st2) as (m2 & Hm2 & Hp2 & Hl2).
    destruct (generation_worker pl (call + length calls) st2 rest)
      as [st3 later].
    cbn [fst] in *. exists (m1 ++ m2).
    split; [rewrite Hm2, Hm1; cbn; now rewrite app_assoc|].
    split; [now apply playable_app|].
    rewrite length_app. cbn [length]. lia.
Qed.

(** Whatever the pipeline does, over any number of turns the generation
    worker only adds to the ready queue, at most one batch a turn, and
    what it adds can be played: no batch is empty and every message in
    a batch has audio that is not empty. *)
Theorem generation_worker_queues_playable_batches (pl : Kokoro.pipeline)
    (call : nat) (st : state)
    (rounds : list (list (str * Z) * list (str * Z))) :
  exists more,
    ready_queue (fst (generation_worker pl call st rounds))
    = ready_queue st ++ more
    /\ playable more
    /\ (length more <= length rounds)%nat.
Proof. exact (generation_worker_playable pl rounds call st). Qed.

End GenerationProps.

(** ** core/logging.py and tts/kokoro.py: what a synthesis logs *)

Module LoggingProps.
Import Py Logging.

Lemma isEnabledFor_above self level level' :
  (level <= level')%Z ->
  isEnabledFor self level = true -> isEnabledFor self level' = true.
Proof.
  unfold isEnabledFor. intros Hle.
  destruct (disabled self); [discriminate|].
  destruct (Z.leb_spec level (manager_disable self)); [discriminate|].
  destruct (Z.leb_spec level' (manager_disable self)); [lia|].
  intros Hen. apply Z.leb_le in Hen. apply Z.leb_le. lia.
Qed.

Lemma trace_dropped self message :
  (TRACE < effective_level self)%Z -> _trace self message = self.
Proof.
  intros Hlevel. unfold _trace, isEnabledFor.
  destruct (disabled self); [reflexivity|].
  destruct (TRACE <=? manager_disable self)%Z; [reflexivity|].
  destruct (Z.leb_spec (effective_level self) TRACE); [lia | reflexivity].
Qed.

(** A logger that handles trace records handles the records of every
    level of the [logging] module; a logger whose effective level is
    one of those levels drops every trace record. *)
Theorem trace_is_the_lowest_level (self : Logger) (message : Kokoro.message) :
  (isEnabledFor self TRACE = true ->
   forall level, In level [DEBUG; INFO; WARNING; ERROR; CRITICAL] ->
                 isEnabledFor self level = true)
  /\ (In (effective_level self) [DEBUG; INFO; WARNING; ERROR; CRITICAL] ->
      _trace self message = self)
  /\ (isEnabledFor self TRACE = true ->
      handled (_trace self message) = handled self ++ [(TRACE, message)]).
Proof.
  split; [|split].
  - intros Ht level Hin. apply (isEnabledFor_above self TRACE); [|assumption].
    unfold TRACE. simpl in Hin.
    destruct Hin as [<-|[<-|[<-|[<-|[<-|[]]]]]]; vm_compute; discriminate.
  - intros Hin. apply trace_dropped. unfold TRACE. simpl in Hin.
    destruct Hin as [<-|[<-|[<-|[<-|[<-|[]]]]]]; reflexivity.
  - intros Ht. unfold _trace. rewrite Ht. reflexivity.
Qed.

(** A synthesis for which the pipeline yields nothing returns [None]
    and leaves no record on a logger whose level is above [TRACE]: the
    failure cannot be told from the log.  A synthesis that raises
    returns [None] as well, and leaves one record at error level on a
    logger that handles errors. *)
Theorem empty_synthesis_leaves_no_record (lg : Logger)
    (self : Kokoro.KokoroTTS) (pl : Kokoro.pipeline) (n : nat) (text : str) :
  Kokoro.pipeline_ self = Some pl ->
  (TRACE < effective_level lg)%Z ->
  let r := Kokoro.synthesize self n text in
  let entries := skipn (length (Kokoro.log self)) (Kokoro.log (snd r)) in
  (pl n text = Kokoro.Yields [] -> fst r = None /\ calls lg entries = lg)
  /\ (forall e, pl n text = Kokoro.Raises e ->
        isEnabledFor lg ERROR = true ->
        fst r = None
        /\ handled (calls lg entries)
           = handled lg ++ [(ERROR, Kokoro.TTS_generation_failed e)]).
Proof.
  intros Hpl Hlevel r entries. subst r entries.
  unfold Kokoro.synthesize, Kokoro.generate. rewrite Hpl.
  split.
  - intros ->. cbn [fst snd Kokoro.logged Kokoro.log].
    rewrite skipn_app, skipn_all, Nat.sub_diag. cbn [skipn app].
    split; [reflexivity|]. cbn. now apply trace_dropped.
  - intros e -> Herr. cbn [fst snd Kokoro.logged Kokoro.log].
    rewrite skipn_app, skipn_all, Nat.sub_diag. cbn [skipn app].
    split; [reflexivity|]. cbn. unfold error. rewrite Herr. reflexivity.
Qed.

Lemma empty_synthesis_leaves_no_record_witness :
  let self := Kokoro.initialize Kokoro.init Samples.mute in
  let r := Kokoro.synthesize self 0 (lit "x") in
  let entries := skipn (length (Kokoro.log self)) (Kokoro.log (snd r)) in
  (Samples.mute 0%nat (lit "x") = Kokoro.Yields [] ->
   fst r = None /\ calls unconfigured entries = unconfigured)
  /\ (forall e, Samples.mute 0%nat (lit "x") = Kokoro.Raises e ->
        isEnabledFor unconfigured ERROR = true ->
        fst r = None
        /\ handled (calls unconfigured entries)
           = handled unconfigured ++ [(ERROR, Kokoro.TTS_generation_failed e)]).
Proof.
  intros self.
  apply (empty_synthesis_leaves_no_record unconfigured self Samples.mute 0
           (lit "x")).
  - reflexivity.
  - vm_compute. reflexivity.
Defined.

End LoggingProps.

(** ** core/context.py: a negative [max_len] *)

Module ContextBoundsProps.
Import Py Context.

(** With a negative [max_len] every text is cut, the empty text too:
    the slice [text[:max_len]] drops the last [-max_len] characters and
    the ellipsis is appended, so that the result is three characters
    longer than what is left of the text, and never shorter than the
    ellipsis. *)
Theorem sanitize_for_log_negative_max_len (text : str) (max_len : Z) :
  (max_len < 0)%Z ->
  sanitize_for_log text max_len
  = firstn (length (escape text) - Z.to_nat (- max_len)) (escape text)
    ++ ellipsis
  /\ len (sanitize_for_log text max_len)
     = (Z.max 0 (len (escape text) + max_len) + 3)%Z
  /\ sanitize_for_log [] max_len = ellipsis.
Proof.
  intros Hneg.
  assert (forall t, sanitize_for_log t max_len
                    = firstn (length (escape t) - Z.to_nat (- max_len))
                        (escape t) ++ ellipsis) as Hcut.
  { intros t. unfold sanitize_for_log, slice_to, len.
    destruct (Z.gtb_spec (Z.of_nat (length (escape t))) max_len); [|lia].
    destruct (Z.leb_spec 0 max_len); [lia | reflexivity]. }
  split; [apply Hcut|]. split.
  - rewrite Hcut. unfold len. rewrite length_app, length_firstn. simpl length.
    lia.
  - rewrite Hcut. reflexivity.
Qed.

Lemma sanitize_for_log_negative_max_len_witness :
  sanitize_for_log (lit "abcdef") (-2)
  = firstn (length (escape (lit "abcdef")) - Z.to_nat (- (-2)))
      (escape (lit "abcdef")) ++ ellipsis
  /\ len (sanitize_for_log (lit "abcdef") (-2))
     = (Z.max 0 (len (escape (lit "abcdef")) + (-2)) + 3)%Z
  /\ sanitize_for_log [] (-2) = ellipsis.
Proof. apply (sanitize_for_log_negative_max_len (lit "abcdef") (-2)). lia. Defined.

End ContextBoundsProps.
